(** * geecache: a distributed read-through cache

    Shallow embedding of the Go packages [lru], [consistenthash],
    [singleflight] and [geecache], and the properties their design
    document states about them.

    Conventions.
    - A Go [string] is a [string] (a sequence of bytes, [len] is
      [String.length]); a [[]byte] is a [list byte].
    - Go [int] and [int64] quantities are integers of [Z].  Every quantity
      the programs compute counts bytes or elements held in memory, so the
      sums stay far inside the 64-bit range and the arithmetic is exact.
    - A Go map is a [gmap], a set of map keys a [gset].
    - A function that may not return yields an [option] or an [outcome]:
      [None] and [Hang] stand for a run that never finishes.
    - The callbacks a cache is given (the getter, the peers, the eviction
      callback) act on a state of their own: they return, and they do not
      call back into the cache.  Lines written to the log are left out.  *)

From Stdlib Require Import ZArith Lia.
From Stdlib.Strings Require Import Byte Ascii.
From stdpp Require Import gmap strings list sorting pretty.

Local Open Scope Z_scope.

(** ** Package lru *)

Module lru.

(** [type Value interface { Len() int }]: the number of bytes a value
    takes, which is not negative. *)
Class Value (V : Type) := {
  Len : V → Z;
  Len_nonneg : ∀ v, 0 ≤ Len v
}.

Section Cache.

(** [Env] is the state the eviction callback acts on (the variables its
    closure captures). *)
Context {V : Type} `{!Value V} {Env : Type}.

Record entry := mkEntry { key : string; value : V }.

(** [ll] is the recency list, front first.  [cache] is the index: the Go map
    sends a key to the pointer to its list element; an element is identified
    by the key of its entry, so the index is kept as its set of keys and a
    pointer is followed with [element]. *)
Record Cache := mkCache {
  maxBytes : Z;
  nbytes : Z;
  ll : list entry;
  cache : gset string;
  OnEvicted : option (string → V → Env → Env);
  env : Env
}.

Definition New (maxBytes : Z) (onEvicted : option (string → V → Env → Env))
    (e : Env) : Cache :=
  {| maxBytes := maxBytes; nbytes := 0; ll := []; cache := ∅;
     OnEvicted := onEvicted; env := e |}.

(** The list element the index holds for [k]. *)
Fixpoint element (k : string) (l : list entry) : option entry :=
  match l with
  | [] => None
  | e :: l' => if decide (key e = k) then Some e else element k l'
  end.

(** [list.Remove]: unlink the element of key [k]. *)
Fixpoint Remove (k : string) (l : list entry) : list entry :=
  match l with
  | [] => []
  | e :: l' => if decide (key e = k) then l' else e :: Remove k l'
  end.

(** [list.MoveToFront] *)
Definition MoveToFront (k : string) (l : list entry) : list entry :=
  match element k l with
  | Some e => e :: Remove k l
  | None => l
  end.

(** [list.Back] *)
Definition Back (l : list entry) : option entry := last l.

Definition size (e : entry) : Z := Z.of_nat (String.length (key e)) + Len (value e).

Definition Get (k : string) (c : Cache) : option V * Cache :=
  if decide (k ∈ cache c) then
    match element k (ll c) with
    | Some kv =>
        (Some (value kv),
         {| maxBytes := maxBytes c; nbytes := nbytes c;
            ll := MoveToFront k (ll c); cache := cache c;
            OnEvicted := OnEvicted c; env := env c |})
    | None => (None, c)
    end
  else (None, c).

Definition RemoveOldest (c : Cache) : Cache :=
  match Back (ll c) with
  | Some kv =>
      {| maxBytes := maxBytes c;
         nbytes := nbytes c - (Z.of_nat (String.length (key kv)) + Len (value kv));
         ll := removelast (ll c);
         cache := cache c ∖ {[ key kv ]};
         OnEvicted := OnEvicted c;
         env := match OnEvicted c with
                | Some f => f (key kv) (value kv) (env c)
                | None => env c
                end |}
  | None => c
  end.

(** The first half of [Add]: update in place or push a new element. *)
Definition store (k : string) (v : V) (c : Cache) : Cache :=
  if decide (k ∈ cache c) then
    match element k (ll c) with
    | Some kv =>
        {| maxBytes := maxBytes c;
           nbytes := nbytes c + (Len v - Len (value kv));
           ll := mkEntry k v :: Remove k (ll c);
           cache := cache c;
           OnEvicted := OnEvicted c; env := env c |}
    | None => c
    end
  else
    {| maxBytes := maxBytes c;
       nbytes := nbytes c + (Z.of_nat (String.length k) + Len v);
       ll := mkEntry k v :: ll c;
       cache := {[ k ]} ∪ cache c;
       OnEvicted := OnEvicted c; env := env c |}.

(** The guard of the eviction loop of [Add]. *)
Definition over (c : Cache) : bool :=
  negb (maxBytes c =? 0) && (maxBytes c <? nbytes c).

(** [for c.maxBytes != 0 && c.maxBytes < c.nbytes { c.RemoveOldest() }],
    run for at most [fuel] iterations. *)
Fixpoint evict (fuel : nat) (c : Cache) : option Cache :=
  if over c then
    match fuel with
    | O => None
    | S n => evict n (RemoveOldest c)
    end
  else Some c.

(** Each iteration that changes the state unlinks one element, and an
    iteration on the empty list changes nothing: one more iteration than
    there are elements decides whether the loop ends ([evict_fuel],
    [evict_forever]). *)
Definition Add (k : string) (v : V) (c : Cache) : option Cache :=
  let c1 := store k v c in
  evict (S (length (ll c1))) c1.

Definition Len_ (c : Cache) : Z := Z.of_nat (length (ll c)).

(** Sum of the sizes of the resident entries. *)
Definition total (l : list entry) : Z := foldr (λ e s, size e + s) 0 l.

(** A sequence of calls on one cache. *)
Inductive op :=
| OpAdd (k : string) (v : V)
| OpGet (k : string)
| OpRemoveOldest.

Definition step (o : op) (c : Cache) : option Cache :=
  match o with
  | OpAdd k v => Add k v c
  | OpGet k => Some (Get k c).2
  | OpRemoveOldest => Some (RemoveOldest c)
  end.

Fixpoint run (ops : list op) (c : Cache) : option Cache :=
  match ops with
  | [] => Some c
  | o :: ops' =>
      match step o c with
      | Some c' => run ops' c'
      | None => None
      end
  end.

(** The keys the calls touch, the latest first: the key of an [Add], and
    the key of a [Get] that finds its entry. *)
Definition touch (o : op) (c : Cache) (h : list string) : list string :=
  match o with
  | OpAdd k _ => k :: h
  | OpGet k => if decide (k ∈ cache c) then k :: h else h
  | OpRemoveOldest => h
  end.

Fixpoint history (ops : list op) (c : Cache) (h : list string) : list string :=
  match ops with
  | [] => h
  | o :: ops' =>
      match step o c with
      | Some c' => history ops' c' (touch o c h)
      | None => touch o c h
      end
  end.

(** How many touches ago [k] was last touched. *)
Fixpoint age (h : list string) (k : string) : nat :=
  match h with
  | [] => O
  | k' :: h' => if decide (k' = k) then O else S (age h' k)
  end.

(** [a] was touched after [b] was. *)
Definition later (h : list string) (a b : entry) : Prop :=
  (age h (key a) < age h (key b))%nat.

(** The index and the list hold the same keys, each once, and the
    counter is the sum of the sizes. *)
Definition wf (c : Cache) : Prop :=
  NoDup (key <$> ll c) ∧
  cache c = list_to_set (key <$> ll c) ∧
  nbytes c = total (ll c).

(** The list runs from the entry touched last to the one touched first. *)
Definition ordered (h : list string) (c : Cache) : Prop :=
  StronglySorted (later h) (ll c) ∧ ∀ e, e ∈ ll c → key e ∈ h.

End Cache.

Arguments entry V : clear implicits.
Arguments Cache V Env : clear implicits.
Arguments op V : clear implicits.

End lru.

(** ** Package consistenthash *)

Module consistenthash.

(** [type Hash func(data []byte) uint32] *)
Definition Hash : Type := list byte → Z.

Definition uint32 (z : Z) : Z := z mod 2 ^ 32.

Record Map := mkMap {
  hash : Hash;
  replicas : Z;
  keys : list Z;
  hashMap : gmap Z string
}.

Section Ring.

(** [crc32.ChecksumIEEE] of the Go library, the hash of a ring made with no
    hash function of its own. *)
Variable ChecksumIEEE : Hash.

Definition New (replicas : Z) (fn : option Hash) : Map :=
  {| hash := match fn with Some f => f | None => ChecksumIEEE end;
     replicas := replicas;
     keys := [];
     hashMap := ∅ |}.

End Ring.

(** [int(m.hash([]byte(s)))] *)
Definition hashOf (m : Map) (s : string) : Z :=
  uint32 (hash m (String.list_byte_of_string s)).

(** [strconv.Itoa] *)
Definition Itoa (i : Z) : string := pretty i.

(** [sort.Ints] *)
Definition Ints (l : list Z) : list Z := merge_sort Z.le l.

(** The body of the inner loop of [Add] for replica [i] of node [key]. *)
Definition addReplica (key : string) (m : Map) (i : nat) : Map :=
  let h := hashOf m (Itoa (Z.of_nat i) +:+ key) in
  {| hash := hash m; replicas := replicas m;
     keys := keys m ++ [h];
     hashMap := <[ h := key ]> (hashMap m) |}.

(** [for i := 0; i < m.replicas; i++ { ... }] *)
Definition addNode (m : Map) (key : string) : Map :=
  foldl (addReplica key) m (seq 0 (Z.to_nat (replicas m))).

Definition Add (nodes : list string) (m : Map) : Map :=
  let m' := foldl addNode m nodes in
  {| hash := hash m'; replicas := replicas m';
     keys := Ints (keys m');
     hashMap := hashMap m' |}.

(** The loop of [sort.Search]: the least index in [[i, j)] at which [f]
    holds, for an [f] that is false then true. *)
Fixpoint searchLoop (fuel : nat) (f : nat → bool) (i j : nat) : nat :=
  match fuel with
  | O => i
  | S fuel' =>
      if decide (i < j)%nat then
        let h := ((i + j) / 2)%nat in
        if negb (f h) then searchLoop fuel' f (h + 1)%nat j
        else searchLoop fuel' f i h
      else i
  end.

(** [sort.Search(n, f)]; the interval halves at each iteration, [n]
    iterations are more than the loop makes ([searchLoop_fuel]). *)
Definition Search (n : nat) (f : nat → bool) : nat := searchLoop n f 0 n.

Definition Get (key : string) (m : Map) : string :=
  if decide (length (keys m) = 0%nat) then ""
  else
    let hash := hashOf m key in
    let idx := Search (length (keys m)) (λ i, bool_decide (keys m !!! i >= hash)%Z) in
    default "" (hashMap m !! (keys m !!! (idx mod length (keys m))%nat)).

(** The words of the design document: the real node of the first virtual
    node at or after the hash of the key, the first one of the ring when
    there is none. *)
Definition owner (m : Map) (key : string) : string :=
  match keys m with
  | [] => ""
  | first :: _ =>
      let v := default first (head (filter (λ k, hashOf m key ≤ k) (keys m))) in
      default "" (hashMap m !! v)
  end.

End consistenthash.

(** ** Results of calls that may panic or never return *)

Inductive outcome (A : Type) : Type :=
| Ret (a : A)
| Panic (msg : string)
| Hang.

Arguments Ret {A} a.
Arguments Panic {A} msg.
Arguments Hang {A}.

#[global] Instance outcome_ret : MRet outcome := λ A a, Ret a.

#[global] Instance outcome_bind : MBind outcome := λ A B k x,
  match x with
  | Ret a => k a
  | Panic msg => Panic msg
  | Hang => Hang
  end.

(** ** Package singleflight *)

Module singleflight.

Section Coalescer.

(** [R] is the pair [(interface{}, error)] a call yields; [Env] is the state
    the wrapped functions act on. *)
Context {R Env : Type}.

(** [type call struct { wg sync.WaitGroup; val interface{}; err error }]:
    [wg] is the counter of the wait group, [res] is [(val, err)], [None]
    while both are still nil. *)
Record call := mkCall { wg : Z; res : option R }.

(** [m] maps a key to the pointer to its call, an index in [calls];
    [None] is the nil map. *)
Record Group := mkGroup {
  m : option (gmap string nat);
  calls : list call
}.

Definition zero : Group := {| m := None; calls := [] |}.

(** *** One caller at a time *)

(** [Do] when no other goroutine is inside [Do].  A call found in the table
    is then one nobody is running: [c.wg.Wait()] returns at once when its
    counter is zero and blocks for ever otherwise.  The result is [None]
    when [(c.val, c.err)] is still [(nil, nil)]. *)
Definition Do (key : string) (fn : Env → outcome (R * Env)) (g : Group) (e : Env)
    : outcome (option R * Group * Env) :=
  let m0 := default ∅ (m g) in
  match m0 !! key with
  | Some c =>
      match calls g !! c with
      | Some cl => if decide (wg cl = 0)
                   then Ret (res cl, {| m := Some m0; calls := calls g |}, e)
                   else Hang
      | None => Hang
      end
  | None =>
      '(r, e') ← fn e;
      Ret (Some r,
           {| m := Some (delete key (<[ key := length (calls g) ]> m0));
              calls := calls g ++ [ {| wg := 0; res := Some r |} ] |}, e')
  end.

(** *** Several callers *)

(** Where a goroutine stands inside [Do].  The table lock is held inside a
    step only, never between two steps. *)
Inductive pc :=
| Enter (key : string) (fn : Env → R * Env)  (* before the first [g.mu.Lock()] *)
| Wait (c : nat)                             (* at [c.wg.Wait()] *)
| Run (key : string) (fn : Env → R * Env) (c : nat)  (* before [fn()] *)
| Done (key : string) (c : nat)              (* before [c.wg.Done()] *)
| Delete (key : string) (c : nat)            (* before the second [g.mu.Lock()] *)
| Woken (c : nat)                            (* before the first [return c.val, c.err] *)
| Return (c : nat)                           (* before the last [return c.val, c.err] *)
| Returned (c : nat) (r : option R).         (* has left [Do] *)

(** [execs] records each execution of a wrapped function: the goroutine,
    the key and the call. *)
Record state := mkState {
  group : Group;
  threads : list pc;
  env : Env;
  execs : list (nat * string * nat)
}.

Definition init (e : Env) : state :=
  {| group := zero; threads := []; env := e; execs := [] |}.

Definition setThread (t : nat) (p : pc) (g : Group) (e : Env)
    (x : list (nat * string * nat)) (s : state) : state :=
  {| group := g; threads := <[ t := p ]> (threads s); env := e; execs := x |}.

(** One step of goroutine [t]; [None] when it is blocked or has returned. *)
Definition step (t : nat) (s : state) : option state :=
  let g := group s in
  match threads s !! t with
  | Some (Enter key fn) =>
      let m0 := default ∅ (m g) in
      match m0 !! key with
      | Some c =>
          Some (setThread t (Wait c) {| m := Some m0; calls := calls g |}
                  (env s) (execs s) s)
      | None =>
          let c := length (calls g) in
          Some (setThread t (Run key fn c)
                  {| m := Some (<[ key := c ]> m0);
                     calls := calls g ++ [ {| wg := 1; res := None |} ] |}
                  (env s) (execs s) s)
      end
  | Some (Wait c) =>
      match calls g !! c with
      | Some cl => if decide (wg cl = 0)
                   then Some (setThread t (Woken c) g (env s) (execs s) s)
                   else None
      | None => None
      end
  | Some (Woken c) =>
      match calls g !! c with
      | Some cl => Some (setThread t (Returned c (res cl)) g (env s) (execs s) s)
      | None => None
      end
  | Some (Run key fn c) =>
      let '(r, e') := fn (env s) in
      Some (setThread t (Done key c)
              {| m := m g;
                 calls := alter (λ cl, {| wg := wg cl; res := Some r |}) c (calls g) |}
              e' (execs s ++ [ (t, key, c) ]) s)
  | Some (Done key c) =>
      Some (setThread t (Delete key c)
              {| m := m g;
                 calls := alter (λ cl, {| wg := wg cl - 1; res := res cl |}) c (calls g) |}
              (env s) (execs s) s)
  | Some (Delete key c) =>
      Some (setThread t (Return c)
              {| m := delete key <$> m g; calls := calls g |}
              (env s) (execs s) s)
  | Some (Return c) =>
      match calls g !! c with
      | Some cl => Some (setThread t (Returned c (res cl)) g (env s) (execs s) s)
      | None => None
      end
  | Some (Returned _ _) => None
  | None => None
  end.

(** What the scheduler and the callers do: a goroutine calls
    [Do(key, fn)], or goroutine [t] takes its next step. *)
Inductive action :=
| Call (key : string) (fn : Env → R * Env)
| Step (t : nat).

Definition act (a : action) (s : state) : option state :=
  match a with
  | Call key fn =>
      Some {| group := group s; threads := threads s ++ [ Enter key fn ];
              env := env s; execs := execs s |}
  | Step t => step t s
  end.

Fixpoint schedule (l : list action) (s : state) : option state :=
  match l with
  | [] => Some s
  | a :: l' => match act a s with
               | Some s' => schedule l' s'
               | None => None
               end
  end.

(** A goroutine is inside [Do] from its call to its return. *)
Definition inside (p : pc) : bool :=
  match p with
  | Returned _ _ => false
  | _ => true
  end.

(** The call a goroutine is attached to, once it has one. *)
Definition attached (p : pc) : option nat :=
  match p with
  | Enter _ _ => None
  | Wait c | Woken c | Run _ _ c | Done _ c | Delete _ c | Return c
  | Returned c _ => Some c
  end.

End Coalescer.

Arguments call R : clear implicits.
Arguments Group R : clear implicits.
Arguments pc R Env : clear implicits.
Arguments state R Env : clear implicits.
Arguments action R Env : clear implicits.

End singleflight.

(** ** Package geecache *)

Module geecache.

(** *** byteview.go *)

(** [make([]byte, n)] *)
Definition make (n : nat) : list byte := replicate n x00.

(** [copy(dst, src)]: the first [min(len(dst), len(src))] elements of [dst]
    are overwritten. *)
Definition copy (dst src : list byte) : list byte :=
  take (length dst) src ++ drop (length src) dst.

Definition cloneBytes (b : list byte) : list byte :=
  let c := make (length b) in
  copy c b.

Record ByteView := mkByteView { b : list byte }.

Definition Len (v : ByteView) : Z := Z.of_nat (length (b v)).

#[global] Instance ByteView_Value : lru.Value ByteView :=
  {| lru.Len := Len; lru.Len_nonneg := λ v, Nat2Z.is_nonneg (length (b v)) |}.

Definition ByteSlice (v : ByteView) : list byte := cloneBytes (b v).

Definition String (v : ByteView) : string := String.string_of_list_byte (b v).

(** [ByteView{}] *)
Definition noView : ByteView := {| b := [] |}.

(** *** cache.go *)

(** [lru] is [None] while the pointer is nil; the store is made with no
    eviction callback. *)
Record cache := mkcache {
  lru_ : option (lru.Cache ByteView unit);
  cacheBytes : Z
}.

(** What a group asks of its collaborators, in order. *)
Inductive event :=
| CacheGet (key : string)
| CacheAdd (key : string)
| GetterGet (key : string)
| PickPeer (key : string)
| PeerGet (group key : string).

Definition add (key : string) (value : ByteView) (c : cache) : outcome cache :=
  let l := match lru_ c with
           | Some l => l
           | None => lru.New (cacheBytes c) None tt
           end in
  match lru.Add key value l with
  | Some l' => Ret {| lru_ := Some l'; cacheBytes := cacheBytes c |}
  | None => Hang
  end.

Definition get (key : string) (c : cache) : ByteView * bool * cache :=
  match lru_ c with
  | None => (noView, false, c)
  | Some l =>
      match lru.Get key l with
      | (Some v, l') => (v, true, {| lru_ := Some l'; cacheBytes := cacheBytes c |})
      | (None, l') => (noView, false, {| lru_ := Some l'; cacheBytes := cacheBytes c |})
      end
  end.

(** *** geecache.go *)

Definition error : Type := string.

Section Groups.

(** [Env] is the state of the world outside the cache: the data source and
    the peers. *)
Context {Env : Type}.

(** [Getter.Get(key) ([]byte, error)] *)
Definition Getter : Type := string → Env → list byte * option error * Env.

(** [PeerGetter.Get(group, key) ([]byte, error)] *)
Definition PeerGetter : Type := string → string → Env → list byte * option error * Env.

(** [PeerPicker.PickPeer(key) (PeerGetter, bool)]: [Some peer] is
    [(peer, true)]. *)
Definition PeerPicker : Type := string → Env → option PeerGetter * Env.

(** [nil] interfaces and pointers are [None]. *)
Record Group := mkGroup {
  name : string;
  getter : option Getter;
  mainCache : cache;
  peers : option PeerPicker;
  loader : option (singleflight.Group (ByteView * option error))
}.

(** The state a method of a group runs in beside the group: the outside
    world and the record of the calls made so far. *)
Record Eff := mkEff { env : Env; trace : list event }.

Definition emit (ev : event) (s : Eff) : Eff :=
  {| env := env s; trace := trace s ++ [ev] |}.

Definition setCache (c : cache) (g : Group) : Group :=
  {| name := name g; getter := getter g; mainCache := c;
     peers := peers g; loader := loader g |}.

Definition nilDeref : string := "invalid memory address or nil pointer dereference".

Definition populateCache (key : string) (value : ByteView) (g : Group) (s : Eff)
    : outcome (Group * Eff) :=
  c ← add key value (mainCache g);
  Ret (setCache c g, emit (CacheAdd key) s).

Definition getLocally (key : string) (g : Group) (s : Eff)
    : outcome (ByteView * option error * Group * Eff) :=
  match getter g with
  | None => Panic nilDeref
  | Some f =>
      let '(bytes, err, e') := f key (env s) in
      let s1 := emit (GetterGet key) {| env := e'; trace := trace s |} in
      match err with
      | Some e => Ret (noView, Some e, g, s1)
      | None =>
          let value := {| b := cloneBytes bytes |} in
          '(g', s2) ← populateCache key value g s1;
          Ret (value, None, g', s2)
      end
  end.

Definition RegisterPeers (p : option PeerPicker) (g : Group) : outcome Group :=
  match peers g with
  | Some _ => Panic "RegisterPeerPicker called more than once"
  | None => Ret {| name := name g; getter := getter g; mainCache := mainCache g;
                   peers := p; loader := loader g |}
  end.

Definition getFromPeer (peer : PeerGetter) (key : string) (g : Group) (s : Eff)
    : ByteView * option error * Eff :=
  let '(bytes, err, e') := peer (name g) key (env s) in
  let s1 := emit (PeerGet (name g) key) {| env := e'; trace := trace s |} in
  match err with
  | Some e => (noView, Some e, s1)
  | None => ({| b := bytes |}, None, s1)
  end.

(** The function [load] hands to the coalescer. *)
Definition loadFn (key : string) (gs : Group * Eff)
    : outcome (ByteView * option error * (Group * Eff)) :=
  let '(g, s) := gs in
  let local (s' : Eff) :=
    '(v, err, g', s'') ← getLocally key g s';
    Ret (v, err, (g', s'')) in
  match peers g with
  | Some pick =>
      let '(peer, e1) := pick key (env s) in
      let s1 := emit (PickPeer key) {| env := e1; trace := trace s |} in
      match peer with
      | Some p =>
          let '(value, err, s2) := getFromPeer p key g s1 in
          match err with
          | None => Ret (value, None, (g, s2))
          | Some _ => local s2
          end
      | None => local s1
      end
  | None => local s
  end.

Definition setLoader (l : singleflight.Group (ByteView * option error)) (g : Group)
    : Group :=
  {| name := name g; getter := getter g; mainCache := mainCache g;
     peers := peers g; loader := Some l |}.

Definition load (key : string) (g : Group) (s : Eff)
    : outcome (ByteView * option error * Group * Eff) :=
  match loader g with
  | None => Panic nilDeref
  | Some l =>
      '(viewi, l', (g', s')) ← singleflight.Do key (loadFn key) l (g, s);
      match viewi with
      | Some (view, None) => Ret (view, None, setLoader l' g', s')
      | Some (_, Some e) => Ret (noView, Some e, setLoader l' g', s')
      | None => Panic "interface conversion: interface is nil, not geecache.ByteView"
      end
  end.

Definition Get (key : string) (g : Group) (s : Eff)
    : outcome (ByteView * option error * Group * Eff) :=
  if decide (key = "") then Ret (noView, Some "key is required", g, s)
  else
    let '(v, ok, c) := get key (mainCache g) in
    let g1 := setCache c g in
    let s1 := emit (CacheGet key) s in
    if ok then Ret (v, None, g1, s1)
    else load key g1 s1.

(** *** The registry *)

(** [groups] is the package variable; a [*Group] is an index in [heap]. *)
Record World := mkWorld {
  groups : gmap string nat;
  heap : list Group;
  eff : Eff
}.

(** The constructor is written out in full before the group has a loader
    and restated with the loader, the lines that do not change left out:
    [NewGroup] is the full constructor with the loader of the
    restatement. *)
Definition NewGroup (name : string) (cacheBytes : Z) (getter : option Getter)
    (w : World) : outcome (nat * World) :=
  match getter with
  | None => Panic "nil Getter"
  | Some _ =>
      let g := {| name := name; getter := getter;
                  mainCache := {| lru_ := None; cacheBytes := cacheBytes |};
                  peers := None;
                  loader := Some singleflight.zero |} in
      Ret (length (heap w),
           {| groups := <[ name := length (heap w) ]> (groups w);
              heap := heap w ++ [g];
              eff := eff w |})
  end.

Definition GetGroup (name : string) (w : World) : option nat := groups w !! name.

(** A method called through a [*Group]. *)
Definition through {A : Type} (p : nat)
    (f : Group → Eff → outcome (A * Group * Eff)) (w : World) : outcome (A * World) :=
  match heap w !! p with
  | None => Panic nilDeref
  | Some g =>
      '(a, g', s') ← f g (eff w);
      Ret (a, {| groups := groups w; heap := <[ p := g' ]> (heap w); eff := s' |})
  end.

(** *** http.go *)

(** [strings.HasPrefix(s, prefix)] *)
Definition HasPrefix (s prefix : string) : bool := String.prefix prefix s.

(** [s[n:]] *)
Fixpoint from (n : nat) (s : string) : string :=
  match n, s with
  | O, _ => s
  | S n', String.String _ s' => from n' s'
  | S _, EmptyString => EmptyString
  end.

(** [s] cut at the first [sep]. *)
Fixpoint cut (sep : Ascii.ascii) (s : string) : option (string * string) :=
  match s with
  | EmptyString => None
  | String.String a s' =>
      if decide (a = sep) then Some (EmptyString, s')
      else match cut sep s' with
           | Some (l, r) => Some (String.String a l, r)
           | None => None
           end
  end.

(** [strings.SplitN(s, sep, n)] for a separator of one byte and [n ≥ 0]. *)
Fixpoint SplitN (s : string) (sep : Ascii.ascii) (n : nat) : list string :=
  match n with
  | O => []
  | S O => [s]
  | S n' => match cut sep s with
            | Some (l, r) => l :: SplitN r sep n'
            | None => [s]
            end
  end.

Record HTTPPool := mkHTTPPool { self : string; basePath : string }.

Definition defaultBasePath : string := "/_geecache/".

Definition NewHTTPPool (self : string) : HTTPPool :=
  {| self := self; basePath := defaultBasePath |}.

(** What a handler does to its [http.ResponseWriter]. *)
Inductive reply :=
| Error_ (msg : string) (code : Z)      (* [http.Error(w, msg, code)] *)
| HeaderSet (k v : string)              (* [w.Header().Set(k, v)] *)
| Write (data : list byte).             (* [w.Write(data)] *)

Definition StatusOK : Z := 200.
Definition StatusBadRequest : Z := 400.
Definition StatusNotFound : Z := 404.
Definition StatusInternalServerError : Z := 500.

(** The status line of a response: the code of [http.Error], and
    [StatusOK] for a [Write] with no status set before it. *)
Fixpoint status (rs : list reply) : option Z :=
  match rs with
  | [] => None
  | Error_ _ code :: _ => Some code
  | Write _ :: _ => Some StatusOK
  | HeaderSet _ _ :: rs' => status rs'
  end.

(** [path] is [r.URL.Path]. *)
Definition ServeHTTP (p : HTTPPool) (path : string) (w : World)
    : outcome (list reply * World) :=
  if negb (HasPrefix path (basePath p)) then
    Panic ("HTTPPool serving unexpected path: " +:+ path)
  else
    let parts := SplitN (from (String.length (basePath p)) path) "/"%char 2 in
    if decide (length parts ≠ 2%nat) then
      Ret ([Error_ "bad request" StatusBadRequest], w)
    else
      let groupName := parts !!! 0%nat in
      let key := parts !!! 1%nat in
      match GetGroup groupName w with
      | None =>
          Ret ([Error_ ("no such group: " +:+ groupName) StatusNotFound], w)
      | Some group =>
          '(view, err, w') ← through group (Get key) w;
          match err with
          | Some e => Ret ([Error_ e StatusInternalServerError], w')
          | None =>
              Ret ([HeaderSet "Content-Type" "application/octet-stream";
                    Write (ByteSlice view)], w')
          end
      end.

End Groups.

Arguments Group Env : clear implicits.
Arguments Eff Env : clear implicits.
Arguments World Env : clear implicits.
Arguments Getter Env : clear implicits.
Arguments PeerGetter Env : clear implicits.
Arguments PeerPicker Env : clear implicits.

End geecache.

(** ** byteview.go over a store of arrays

    Above, a [[]byte] is its contents.  Here a slice is a window on an
    array of a store, so that two slices can share their bytes and a write
    through one is seen through the other. *)

Module byteview.

(** A slice: its array, where it starts in it, its length. *)
Record slice := mkSlice { array : nat; off : nat; len : nat }.

(** The arrays allocated so far. *)
Notation Store := (list (list byte)) (only parsing).

(** The window of [s] lies inside its array. *)
Definition valid (st : Store) (s : slice) : Prop :=
  ∃ a, st !! array s = Some a ∧ (off s + len s ≤ length a)%nat.

(** The bytes of [s]. *)
Definition read (s : slice) (st : Store) : list byte :=
  take (len s) (drop (off s) (default [] (st !! array s))).

(** [s[i] = x]; [None] is the panic for an index out of range. *)
Definition write (s : slice) (i : nat) (x : byte) (st : Store) : option Store :=
  if decide (i < len s)%nat
  then Some (alter (λ a, <[ (off s + i)%nat := x ]> a) (array s) st)
  else None.

(** [make([]byte, n)] *)
Definition make (n : nat) (st : Store) : slice * Store :=
  ({| array := length st; off := 0; len := n |}, st ++ [replicate n x00]).

(** [copy(dst, src)] *)
Definition copy (dst src : slice) (st : Store) : Store :=
  let data := take (len dst) (read src st) in
  alter (λ a, take (off dst) a ++ data ++ drop (off dst + length data) a)
        (array dst) st.

Definition cloneBytes (b : slice) (st : Store) : slice * Store :=
  let '(c, st1) := make (len b) st in
  (c, copy c b st1).

Record ByteView := mkByteView { b : slice }.

Definition Len (v : ByteView) : Z := Z.of_nat (len (b v)).

Definition ByteSlice (v : ByteView) (st : Store) : slice * Store :=
  cloneBytes (b v) st.

Definition String (v : ByteView) (st : Store) : string :=
  String.string_of_list_byte (read (b v) st).

(** Writes through one slice, one after the other. *)
Fixpoint writes (s : slice) (ws : list (nat * byte)) (st : Store) : option Store :=
  match ws with
  | [] => Some st
  | (i, x) :: ws' => match write s i x st with
                     | Some st' => writes s ws' st'
                     | None => None
                     end
  end.

End byteview.

(** ** The pool of peers (httpGetter.go) *)

Module pool.

Record httpGetter := mkHttpGetter { baseURL : string }.

Definition defaultBasePath : string := "/_geecache/".
Definition defaultReplicas : Z := 50.

Section Pool.

(** The ring of the pool is the [consistenthash.Map] of the groupcache
    library, which the pool imports: [Map] is the state of a ring, [New] is
    [consistenthash.New(replicas, nil)], [Add] and [Get] are its methods,
    [Get] on a pointer that may be nil. *)
Context {Map : Type}.
Variable New : Z → Map.
Variable Add : list string → Map → Map.
Variable Get : string → option Map → outcome string.

Record HTTPPool := mkHTTPPool {
  self : string;
  basePath : string;
  peers : option Map;
  httpGetters : option (gmap string httpGetter)
}.

Definition NewHTTPPool (self : string) : HTTPPool :=
  {| self := self; basePath := defaultBasePath; peers := None; httpGetters := None |}.

(** [Set] *)
Definition Set_ (ps : list string) (p : HTTPPool) : HTTPPool :=
  {| self := self p; basePath := basePath p;
     peers := Some (Add ps (New defaultReplicas));
     httpGetters :=
       Some (foldl (λ hg peer, <[ peer := {| baseURL := peer +:+ basePath p |} ]> hg)
               ∅ ps) |}.

(** [(nil, false)] is [None] and [(h, true)] is [Some h], where [h] is
    [None] for the nil pointer the map gives for a peer with no entry. *)
Definition PickPeer (key : string) (p : HTTPPool)
    : outcome (option (option httpGetter)) :=
  peer ← Get key (peers p);
  if decide (peer ≠ "" ∧ peer ≠ self p) then
    Ret (Some (default ∅ (httpGetters p) !! peer))
  else Ret None.

End Pool.

Arguments HTTPPool Map : clear implicits.

End pool.

(** ** The vocabulary of the properties *)

Section lru_vocabulary.

Context {V : Type} `{!lru.Value V} {Env : Type}.
Implicit Types (c : lru.Cache V Env).

(** The capacity bounds the counter. *)
Definition fits c : Prop := 0 < lru.maxBytes c → lru.nbytes c ≤ lru.maxBytes c.

End lru_vocabulary.

(** The value of the bytes of a string. *)
Definition view (s : string) : geecache.ByteView :=
  geecache.mkByteView (String.list_byte_of_string s).

(** [f] is false then true on the indices below [n]. *)
Definition monotone (n : nat) (f : nat → bool) : Prop :=
  ∀ a b, (a ≤ b)%nat → (b < n)%nat → f a = true → f b = true.

(** The ring made by [New] and a sequence of calls of [Add]. *)
Definition ringOf (ChecksumIEEE : consistenthash.Hash) (reps : Z) (fn : option consistenthash.Hash)
    (batches : list (list string)) : consistenthash.Map :=
  foldl (λ m nodes, consistenthash.Add nodes m) (consistenthash.New ChecksumIEEE reps fn) batches.

(** The virtual node [Get] picks for a hash [h]: the first one at or after
    [h], or the first of the ring when all are before [h]. *)
Definition picks (ks : list Z) (h v : Z) : Prop :=
  (∃ i, ks !! i = Some v ∧ h ≤ v ∧
        ∀ j w, (j < i)%nat → ks !! j = Some w → w < h) ∨
  (head ks = Some v ∧ ∀ w, w ∈ ks → w < h).

(** Every virtual node has its real node, one of [nodes]. *)
Definition mapped (nodes : list string) (m : consistenthash.Map) : Prop :=
  (∀ v, v ∈ consistenthash.keys m → is_Some (consistenthash.hashMap m !! v)) ∧
  (∀ v node, consistenthash.hashMap m !! v = Some node → node ∈ nodes).

(** A hash for examples: the sum of the bytes. *)
Definition byteSum : consistenthash.Hash :=
  λ data, foldr (λ x s, Z.of_N (Byte.to_N x) + s) 0 data.

Section group_vocabulary.

Context {Env : Type}.
Implicit Types (g : geecache.Group Env) (c : geecache.cache) (key : string).

(** [key] has an entry in the local store. *)
Definition resident key c : Prop :=
  match geecache.lru_ c with
  | Some l => key ∈ lru.cache l
  | None => False
  end.

(** The local store, once made, is well formed and has the capacity of the
    group. *)
Definition cache_ok c : Prop :=
  match geecache.lru_ c with
  | Some l => lru.wf l ∧ lru.maxBytes l = geecache.cacheBytes c
  | None => True
  end.

(** The entry at the front of the local store. *)
Definition front c : option (lru.entry geecache.ByteView) :=
  match geecache.lru_ c with
  | Some l => head (lru.ll l)
  | None => None
  end.

(** No call is in flight in the coalescer of the group. *)
Definition idle g : Prop :=
  ∃ l, geecache.loader g = Some l ∧ default ∅ (singleflight.m l) = ∅.

(** A group as [NewGroup] makes it and [Get] leaves it. *)
Definition sound g : Prop := cache_ok (geecache.mainCache g) ∧ idle g.

(** The world before any group is made. *)
Definition start (e : Env) : geecache.World Env :=
  {| geecache.groups := ∅; geecache.heap := [];
     geecache.eff := {| geecache.env := e; geecache.trace := [] |} |}.

(** The group [NewGroup] makes. *)
Definition groupOf (name : string) (cacheBytes : Z) (f : geecache.Getter Env)
    : geecache.Group Env :=
  {| geecache.name := name; geecache.getter := Some f;
     geecache.mainCache := {| geecache.lru_ := None; geecache.cacheBytes := cacheBytes |};
     geecache.peers := None;
     geecache.loader := Some singleflight.zero |}.

(** What a program does with the registry: it makes a group, or it looks a
    group up and calls [Get] on it. *)
Inductive wop :=
| MakeGroup (name : string) (cacheBytes : Z) (getter : option (geecache.Getter Env))
| CallGet (name key : string).


Definition wstep (o : wop) (w : geecache.World Env)
    : outcome (geecache.World Env) :=
  match o with
  | MakeGroup name cacheBytes getter =>
      '(_, w') ← geecache.NewGroup name cacheBytes getter w; Ret w'
  | CallGet name key =>
      match geecache.GetGroup name w with
      | Some p => '(_, w') ← geecache.through p (geecache.Get key) w; Ret w'
      | None => Ret w
      end
  end.

Fixpoint wrun (ops : list wop) (w : geecache.World Env)
    : outcome (geecache.World Env) :=
  match ops with
  | [] => Ret w
  | o :: ops' => w' ← wstep o w; wrun ops' w'
  end.

(** The names of the groups made. *)
Fixpoint made (ops : list wop) : list string :=
  match ops with
  | [] => []
  | MakeGroup name _ _ :: ops' => name :: made ops'
  | CallGet _ _ :: ops' => made ops'
  end.

End group_vocabulary.

Arguments wop Env : clear implicits.

(** The calls of the getter in a record of calls. *)
Definition getterCalls (tr : list geecache.event) : nat :=
  foldr (λ ev n, match ev with geecache.GetterGet _ => S n | _ => n end) O tr.

(** The slow database of the tests of the package. *)
Definition db (key : string) : option string :=
  if decide (key = "Tom") then Some "630"
  else if decide (key = "Jack") then Some "589"
  else if decide (key = "Sam") then Some "567"
  else None.

Definition dbGetter : geecache.Getter unit :=
  λ key e, match db key with
           | Some v => (String.list_byte_of_string v, None, e)
           | None => ([], Some (key +:+ " not exist"), e)
           end.

(** A peer picker and a peer for examples: every key is on the one peer,
    which answers with the bytes of "remote". *)
Definition onePeer : geecache.PeerPicker unit :=
  λ key e, (Some (λ group key e, (String.list_byte_of_string "remote", None, e)), e).

(** The world of the examples: the group "scores" over the slow
    database. *)
Definition scores : geecache.World unit :=
  {| geecache.groups := {[ "scores" := 0%nat ]};
     geecache.heap := [groupOf "scores" 2048 dbGetter];
     geecache.eff := {| geecache.env := (); geecache.trace := [] |} |}.

Section coalescer_vocabulary.

Context {R Env : Type}.

Notation pc := (singleflight.pc R Env).
Notation state := (singleflight.state R Env).
Notation call := (singleflight.call R).

Implicit Types (p : pc) (σ : state) (cl : call) (t c : nat) (key : string).

(** The call a goroutine may still write to. *)
Definition owns p : option nat :=
  match p with
  | singleflight.Run _ _ c | singleflight.Done _ c => Some c
  | _ => None
  end.

(** The entry of the table a goroutine has put there and not yet deleted. *)
Definition tabled p : option (string * nat) :=
  match p with
  | singleflight.Run k _ c | singleflight.Done k c | singleflight.Delete k c =>
      Some (k, c)
  | _ => None
  end.

(** The states in which a goroutine has not run its function. *)
Definition before p : bool :=
  match p with
  | singleflight.Enter _ _ | singleflight.Wait _ | singleflight.Woken _
  | singleflight.Run _ _ _ => true
  | _ => false
  end.

(** What the state of a goroutine says of its call. *)
Definition pc_ok p cl : Prop :=
  match p with
  | singleflight.Enter _ _ | singleflight.Wait _ => True
  | singleflight.Run _ _ _ => singleflight.wg cl = 1 ∧ singleflight.res cl = None
  | singleflight.Done _ _ => singleflight.wg cl = 1 ∧ is_Some (singleflight.res cl)
  | singleflight.Woken _ | singleflight.Delete _ _ | singleflight.Return _ =>
      singleflight.wg cl = 0 ∧ is_Some (singleflight.res cl)
  | singleflight.Returned _ r =>
      singleflight.wg cl = 0 ∧ singleflight.res cl = r ∧ is_Some r
  end.

Record inv σ : Prop := mkInv {
  inv_attached : ∀ t p c,
    singleflight.threads σ !! t = Some p → singleflight.attached p = Some c →
    ∃ cl, singleflight.calls (singleflight.group σ) !! c = Some cl ∧ pc_ok p cl;
  inv_owner : ∀ t t' p p' c,
    singleflight.threads σ !! t = Some p → singleflight.threads σ !! t' = Some p' →
    owns p = Some c → owns p' = Some c → t = t';
  inv_once : NoDup (singleflight.execs σ).*2;
  inv_known : ∀ c, c ∈ (singleflight.execs σ).*2 →
    (c < length (singleflight.calls (singleflight.group σ)))%nat;
  inv_torun : ∀ t k f c,
    singleflight.threads σ !! t = Some (singleflight.Run k f c) →
    c ∉ (singleflight.execs σ).*2;
  inv_table : ∀ k c,
    default ∅ (singleflight.m (singleflight.group σ)) !! k = Some c →
    ∃ t p, singleflight.threads σ !! t = Some p ∧ tabled p = Some (k, c);
  inv_before : ∀ t p,
    singleflight.threads σ !! t = Some p → before p = true →
    t ∉ (singleflight.execs σ).*1.*1;
  inv_threads : NoDup (singleflight.execs σ).*1.*1;
  inv_done : ∀ c cl,
    singleflight.calls (singleflight.group σ) !! c = Some cl →
    singleflight.wg cl = 0 → is_Some (singleflight.res cl);
  inv_exists : ∀ t, t ∈ (singleflight.execs σ).*1.*1 →
    (t < length (singleflight.threads σ))%nat;
  inv_ran : ∀ c cl,
    singleflight.calls (singleflight.group σ) !! c = Some cl →
    is_Some (singleflight.res cl) → c ∈ (singleflight.execs σ).*2
}.

(** The steps of a goroutine, one rule for each. *)
Inductive trans (t : nat) (σ : state) : state → Prop :=
| trans_join key fn c :
    singleflight.threads σ !! t = Some (singleflight.Enter key fn) →
    default ∅ (singleflight.m (singleflight.group σ)) !! key = Some c →
    trans t σ
      (singleflight.setThread t (singleflight.Wait c)
         {| singleflight.m := Some (default ∅ (singleflight.m (singleflight.group σ)));
            singleflight.calls := singleflight.calls (singleflight.group σ) |}
         (singleflight.env σ) (singleflight.execs σ) σ)
| trans_register key fn :
    singleflight.threads σ !! t = Some (singleflight.Enter key fn) →
    default ∅ (singleflight.m (singleflight.group σ)) !! key = None →
    trans t σ
      (singleflight.setThread t
         (singleflight.Run key fn (length (singleflight.calls (singleflight.group σ))))
         {| singleflight.m :=
              Some (<[ key := length (singleflight.calls (singleflight.group σ)) ]>
                      (default ∅ (singleflight.m (singleflight.group σ))));
            singleflight.calls := singleflight.calls (singleflight.group σ)
              ++ [ {| singleflight.wg := 1; singleflight.res := None |} ] |}
         (singleflight.env σ) (singleflight.execs σ) σ)
| trans_wake c cl :
    singleflight.threads σ !! t = Some (singleflight.Wait c) →
    singleflight.calls (singleflight.group σ) !! c = Some cl →
    singleflight.wg cl = 0 →
    trans t σ
      (singleflight.setThread t (singleflight.Woken c) (singleflight.group σ)
         (singleflight.env σ) (singleflight.execs σ) σ)
| trans_woken c cl :
    singleflight.threads σ !! t = Some (singleflight.Woken c) →
    singleflight.calls (singleflight.group σ) !! c = Some cl →
    trans t σ
      (singleflight.setThread t (singleflight.Returned c (singleflight.res cl))
         (singleflight.group σ) (singleflight.env σ) (singleflight.execs σ) σ)
| trans_run key fn c r e' :
    singleflight.threads σ !! t = Some (singleflight.Run key fn c) →
    fn (singleflight.env σ) = (r, e') →
    trans t σ
      (singleflight.setThread t (singleflight.Done key c)
         {| singleflight.m := singleflight.m (singleflight.group σ);
            singleflight.calls :=
              alter (λ cl, {| singleflight.wg := singleflight.wg cl;
                              singleflight.res := Some r |}) c
                    (singleflight.calls (singleflight.group σ)) |}
         e' (singleflight.execs σ ++ [ (t, key, c) ]) σ)
| trans_done key c :
    singleflight.threads σ !! t = Some (singleflight.Done key c) →
    trans t σ
      (singleflight.setThread t (singleflight.Delete key c)
         {| singleflight.m := singleflight.m (singleflight.group σ);
            singleflight.calls :=
              alter (λ cl, {| singleflight.wg := singleflight.wg cl - 1;
                              singleflight.res := singleflight.res cl |}) c
                    (singleflight.calls (singleflight.group σ)) |}
         (singleflight.env σ) (singleflight.execs σ) σ)
| trans_delete key c :
    singleflight.threads σ !! t = Some (singleflight.Delete key c) →
    trans t σ
      (singleflight.setThread t (singleflight.Return c)
         {| singleflight.m := delete key <$> singleflight.m (singleflight.group σ);
            singleflight.calls := singleflight.calls (singleflight.group σ) |}
         (singleflight.env σ) (singleflight.execs σ) σ)
| trans_return c cl :
    singleflight.threads σ !! t = Some (singleflight.Return c) →
    singleflight.calls (singleflight.group σ) !! c = Some cl →
    trans t σ
      (singleflight.setThread t (singleflight.Returned c (singleflight.res cl))
         (singleflight.group σ) (singleflight.env σ) (singleflight.execs σ) σ).

End coalescer_vocabulary.

(** A function for examples: it returns the counter and counts one more. *)
Definition tick : nat → nat * nat := λ e, (e, S e).

(** The hashes of the virtual nodes [Add] makes for a real node, in the
    order of the loop. *)
Definition virtualNodes (m : consistenthash.Map) (node : string) : list Z :=
  (λ i : nat, consistenthash.hashOf m (consistenthash.Itoa (Z.of_nat i) +:+ node))
    <$> seq 0 (Z.to_nat (consistenthash.replicas m)).

(** [v] is the least virtual node at or after [h], or the least of all
    when none is at or after [h]. *)
Definition nearest (ks : list Z) (h v : Z) : Prop :=
  v ∈ ks ∧
  ((h ≤ v ∧ ∀ w, w ∈ ks → h ≤ w → v ≤ w) ∨
   ((∀ w, w ∈ ks → w < h) ∧ ∀ w, w ∈ ks → v ≤ w)).

(** What a number of added replicas of nodes of [nodes] change in a ring. *)
Definition grown (nodes : list string) (m0 m1 : consistenthash.Map) : Prop :=
  consistenthash.hash m1 = consistenthash.hash m0 ∧
  consistenthash.replicas m1 = consistenthash.replicas m0 ∧
  (∀ v, v ∈ consistenthash.keys m0 → v ∈ consistenthash.keys m1) ∧
  (∀ v, v ∈ consistenthash.keys m1 →
        v ∈ consistenthash.keys m0 ∨
        ∃ node, node ∈ nodes ∧ consistenthash.hashMap m1 !! v = Some node) ∧
  (∀ v node, consistenthash.hashMap m1 !! v = Some node →
             consistenthash.hashMap m0 !! v = Some node ∨ node ∈ nodes).

(** The ring of this repository in the place of the ring of the library,
    for examples. *)
Definition localGet (key : string) (m : option consistenthash.Map) : outcome string :=
  match m with
  | Some m => Ret (consistenthash.Get key m)
  | None => Panic geecache.nilDeref
  end.

Section registry_vocabulary.

Context {Env : Type}.

(** Every name of the registry leads to a group of that name, which has a
    getter, has no peer picker, and is as [NewGroup] makes it and [Get]
    leaves it. *)
Definition registry_ok (w : geecache.World Env) : Prop :=
  ∀ name p, geecache.GetGroup name w = Some p →
    ∃ g, geecache.heap w !! p = Some g ∧ geecache.name g = name ∧ sound g ∧
         is_Some (geecache.getter g) ∧ geecache.peers g = None.

(** What the group did before it asked the getter, when it has a peer
    picker: the picker gave no peer, or it gave one and that peer
    failed; [e] is the state of the world after that. *)
Definition peerMissed (g : geecache.Group Env) (pick : geecache.PeerPicker Env)
    (key : string) (e0 e : Env) (tr : list geecache.event) : Prop :=
  (pick key e0 = (None, e) ∧ tr = [geecache.PickPeer key]) ∨
  (∃ peer e1 bytes err,
     pick key e0 = (Some peer, e1) ∧
     peer (geecache.name g) key e1 = (bytes, Some err, e) ∧
     tr = [geecache.PickPeer key; geecache.PeerGet (geecache.name g) key]).

End registry_vocabulary.

(** Every group has a capacity that is not negative. *)
Definition roomy {Env : Type} (w : geecache.World Env) : Prop :=
  ∀ p g, geecache.heap w !! p = Some g →
         0 ≤ geecache.cacheBytes (geecache.mainCache g).

Section coalescer_flight_vocabulary.

Context {R Env : Type}.

Implicit Types (p : singleflight.pc R Env) (σ : singleflight.state R Env).

(** What the table and the wait groups say of the goroutines in flight: a
    wait group that is not at zero has a goroutine that will signal it, the
    entry a goroutine has put in the table is there, and no two goroutines
    have put the same call. *)
Record flight σ : Prop := mkFlight {
  flight_waited : ∀ c cl,
    singleflight.calls (singleflight.group σ) !! c = Some cl →
    singleflight.wg cl ≠ 0 →
    ∃ t p, singleflight.threads σ !! t = Some p ∧ owns p = Some c;
  flight_tabled : ∀ t p k c,
    singleflight.threads σ !! t = Some p → tabled p = Some (k, c) →
    default ∅ (singleflight.m (singleflight.group σ)) !! k = Some c;
  flight_one : ∀ t t' p p' k k' c,
    singleflight.threads σ !! t = Some p → singleflight.threads σ !! t' = Some p' →
    tabled p = Some (k, c) → tabled p' = Some (k', c) → t = t'
}.

(** The number of steps a goroutine has at most before it has returned. *)
Definition rank p : nat :=
  match p with
  | singleflight.Enter _ _ => 5
  | singleflight.Run _ _ _ => 4
  | singleflight.Done _ _ => 3
  | singleflight.Delete _ _ | singleflight.Wait _ => 2
  | singleflight.Return _ | singleflight.Woken _ => 1
  | singleflight.Returned _ _ => 0
  end.

Definition weight σ : nat := sum_list (rank <$> singleflight.threads σ).

(** A schedule of steps of goroutines that are inside [Do] already. *)
Definition steps (ts : list nat) : list (singleflight.action R Env) :=
  singleflight.Step <$> ts.

End coalescer_flight_vocabulary.

(** * The bounded store *)

Section lru_facts.

Context {V : Type} `{!lru.Value V} {Env : Type}.
Implicit Types (c : lru.Cache V Env) (l : list (lru.entry V)) (e : lru.entry V).
Implicit Types (h : list string) (k : string).

Lemma element_split k l e :
  lru.element k l = Some e →
  ∃ l1 l2, l = l1 ++ e :: l2 ∧ lru.key e = k ∧ k ∉ (lru.key <$> l1) ∧
           lru.Remove k l = l1 ++ l2.
Proof.
  induction l as [|x l IH]; simpl; [done|].
  case_decide as Hk.
  - intros [= ->]. exists [], l. split_and!; [done|done|set_solver|done].
  - intros (l1 & l2 & -> & ? & ? & ->)%IH.
    exists (x :: l1), l2. split_and!; [done|done| |done].
    rewrite fmap_cons. set_solver.
Qed.

Lemma element_None k l : lru.element k l = None ↔ k ∉ (lru.key <$> l).
Proof.
  induction l as [|x l IH]; simpl; [set_solver|].
  case_decide; rewrite ?IH; set_solver.
Qed.

Lemma total_app l1 l2 : lru.total (l1 ++ l2) = lru.total l1 + lru.total l2.
Proof. induction l1 as [|x l1 IH]; simpl; [done|]. rewrite IH. lia. Qed.

Lemma size_nonneg e : 0 ≤ lru.size e.
Proof. unfold lru.size. pose proof (lru.Len_nonneg (lru.value e)). lia. Qed.

Lemma total_nonneg l : 0 ≤ lru.total l.
Proof.
  induction l as [|x l IH]; simpl; [done|]. pose proof (size_nonneg x). lia.
Qed.

(** A resident key is found by the index, and only a resident key. *)
Lemma wf_lookup c k :
  lru.wf c → (k ∈ lru.cache c ↔ is_Some (lru.element k (lru.ll c))).
Proof.
  intros (_ & -> & _). rewrite elem_of_list_to_set.
  destruct (lru.element k (lru.ll c)) as [e|] eqn:He.
  - apply element_split in He as (l1 & l2 & -> & <- & _ & _).
    split; [eauto|intros _]. rewrite fmap_app, fmap_cons. set_solver.
  - apply element_None in He. split; [done|]. by intros [? ?].
Qed.

Lemma wf_New maxBytes f (e0 : Env) : lru.wf (lru.New (V:=V) maxBytes f e0).
Proof. split_and!; simpl; [constructor|set_solver|done]. Qed.

Lemma NoDup_keys_move l1 l2 e :
  NoDup (lru.key <$> l1 ++ e :: l2) → NoDup (lru.key <$> e :: l1 ++ l2).
Proof.
  rewrite fmap_cons, !fmap_app, fmap_cons. intros Hnd.
  by rewrite <- Permutation_middle in Hnd.
Qed.

Lemma keys_move_set l1 l2 e :
  list_to_set (C:=gset string) (lru.key <$> l1 ++ e :: l2)
  = list_to_set (lru.key <$> e :: l1 ++ l2).
Proof.
  apply set_eq. intros x. rewrite !elem_of_list_to_set.
  rewrite !fmap_app, !fmap_cons, !fmap_app. set_solver.
Qed.

Lemma wf_Get k c : lru.wf c → lru.wf (lru.Get k c).2.
Proof.
  intros Hwf. unfold lru.Get. case_decide as Hin; [|done].
  destruct (lru.element k (lru.ll c)) as [e|] eqn:He; [|done].
  destruct Hwf as (Hnd & Hset & Hn). simpl.
  unfold lru.MoveToFront. rewrite He.
  apply element_split in He as (l1 & l2 & Hl & Hk & Hnot & Hrm).
  rewrite Hrm. rewrite Hl in *. split_and!; simpl.
  - by apply NoDup_keys_move.
  - by rewrite Hset, keys_move_set.
  - rewrite Hn. change (lru.total (e :: l1 ++ l2)) with (lru.size e + lru.total (l1 ++ l2)).
    rewrite !total_app. simpl. lia.
Qed.

Lemma wf_RemoveOldest c : lru.wf c → lru.wf (lru.RemoveOldest c).
Proof.
  intros (Hnd & Hset & Hn). unfold lru.RemoveOldest, lru.Back.
  destruct (last (lru.ll c)) as [e|] eqn:He; [|done].
  apply last_Some in He as [l' Hl]. rewrite Hl in *.
  rewrite removelast_last.
  rewrite fmap_app in Hnd. apply NoDup_app in Hnd as (Hnd1 & Hd & _).
  split_and!; simpl.
  - done.
  - rewrite Hset. apply set_eq. intros x.
    rewrite elem_of_difference, !elem_of_list_to_set, fmap_app. simpl.
    split; [set_solver|].
    intros Hx. split; [set_solver|]. intros Hk%elem_of_singleton. subst x.
    eapply Hd; [done|]. set_solver.
  - rewrite Hn, total_app. simpl. unfold lru.size. lia.
Qed.

Lemma wf_store k v c : lru.wf c → lru.wf (lru.store k v c).
Proof.
  intros Hwf. unfold lru.store. case_decide as Hin.
  - destruct (lru.element k (lru.ll c)) as [e|] eqn:He; [|done].
    destruct Hwf as (Hnd & Hset & Hn).
    apply element_split in He as (l1 & l2 & Hl & Hk & Hnot & Hrm).
    rewrite Hrm. rewrite Hl in *.
    apply NoDup_keys_move in Hnd. rewrite keys_move_set in Hset.
    split_and!; simpl.
    + rewrite fmap_cons in Hnd. simpl. by rewrite <- Hk.
    + rewrite Hset. by rewrite fmap_cons, Hk.
    + rewrite Hn, !total_app. simpl. unfold lru.size. simpl. rewrite Hk. lia.
  - destruct Hwf as (Hnd & Hset & Hn). split_and!; simpl.
    + constructor; [|done]. rewrite Hset in Hin.
      by rewrite elem_of_list_to_set in Hin.
    + by rewrite Hset.
    + rewrite Hn. unfold lru.size. simpl. lia.
Qed.

Lemma wf_evict n c c' : lru.wf c → lru.evict n c = Some c' → lru.wf c'.
Proof.
  revert c. induction n as [|n IH]; intros c Hwf; simpl;
    destruct (lru.over c); try done; try (by intros [= <-]).
  intros. eapply IH; [|done]. by apply wf_RemoveOldest.
Qed.

Lemma wf_Add k v c c' : lru.wf c → lru.Add k v c = Some c' → lru.wf c'.
Proof. intros Hwf. apply wf_evict. by apply wf_store. Qed.

Lemma wf_step o c c' : lru.wf c → lru.step o c = Some c' → lru.wf c'.
Proof.
  intros Hwf. destruct o as [k v|k|]; simpl.
  - by apply wf_Add.
  - intros [= <-]. by apply wf_Get.
  - intros [= <-]. by apply wf_RemoveOldest.
Qed.

Lemma wf_run ops c c' : lru.wf c → lru.run ops c = Some c' → lru.wf c'.
Proof.
  revert c. induction ops as [|o ops IH]; intros c Hwf; simpl.
  - by intros [= <-].
  - destruct (lru.step o c) as [c1|] eqn:Hs; [|done].
    apply IH. by eapply wf_step.
Qed.

(** *** The eviction loop *)

Lemma RemoveOldest_empty c : lru.ll c = [] → lru.RemoveOldest c = c.
Proof. intros Hl. unfold lru.RemoveOldest, lru.Back. by rewrite Hl. Qed.

(** The loop entered with nothing left to unlink never ends. *)
Lemma evict_forever n c :
  lru.ll c = [] → lru.over c = true → lru.evict n c = None.
Proof.
  intros Hl Ho. induction n as [|n IH]; simpl; rewrite Ho; [done|].
  by rewrite RemoveOldest_empty.
Qed.

(** More fuel does not change a result. *)
Lemma evict_fuel n n' c c' :
  lru.evict n c = Some c' → (n ≤ n')%nat → lru.evict n' c = Some c'.
Proof.
  revert n' c. induction n as [|n IH]; intros n' c; simpl.
  - destruct (lru.over c) eqn:Ho; [done|]. intros [= <-] _.
    destruct n'; simpl; by rewrite Ho.
  - destruct (lru.over c) eqn:Ho.
    + intros He Hle. destruct n' as [|n']; [lia|]. simpl. rewrite Ho.
      apply IH; [done|lia].
    + intros [= <-] _. destruct n'; simpl; by rewrite Ho.
Qed.

Lemma RemoveOldest_length c :
  lru.ll c ≠ [] → length (lru.ll (lru.RemoveOldest c)) = pred (length (lru.ll c)).
Proof.
  intros Hne. unfold lru.RemoveOldest, lru.Back.
  destruct (last (lru.ll c)) as [e|] eqn:He.
  - apply last_Some in He as [l' Hl]. simpl. rewrite Hl, removelast_last.
    rewrite length_app. simpl. lia.
  - by apply last_None in He.
Qed.

(** With as many iterations as there are elements and one more, the loop
    that stops has stopped: a loop out of fuel runs for ever. *)
Lemma evict_None n c :
  (length (lru.ll c) < n)%nat → lru.evict n c = None → ∀ n', lru.evict n' c = None.
Proof.
  revert c. induction n as [|n IH]; intros c Hlen; [lia|]. simpl.
  destruct (lru.over c) eqn:Ho; [|done].
  intros He n'. destruct (decide (lru.ll c = [])) as [Hl|Hl].
  - by apply evict_forever.
  - destruct n' as [|n']; simpl; rewrite Ho; [done|].
    apply IH; [|done]. rewrite RemoveOldest_length by done.
    destruct (lru.ll c); [done|]. simpl in *. lia.
Qed.

Lemma RemoveOldest_maxBytes c : lru.maxBytes (lru.RemoveOldest c) = lru.maxBytes c.
Proof. unfold lru.RemoveOldest. by destruct (lru.Back (lru.ll c)). Qed.

(** A capacity that is not negative is met before the list is empty. *)
Lemma evict_terminates n c :
  lru.wf c → 0 ≤ lru.maxBytes c → (length (lru.ll c) < n)%nat →
  is_Some (lru.evict n c).
Proof.
  revert c. induction n as [|n IH]; intros c Hwf Hmax Hlen; [lia|]. simpl.
  destruct (lru.over c) eqn:Ho; [|eauto].
  destruct (decide (lru.ll c = [])) as [Hl|Hl].
  - exfalso. destruct Hwf as (_ & _ & Hn). rewrite Hl in Hn. simpl in Hn.
    unfold lru.over in Ho. rewrite Hn in Ho.
    apply andb_true_iff in Ho as [_ Ho%Z.ltb_lt]. lia.
  - apply IH.
    + by apply wf_RemoveOldest.
    + by rewrite RemoveOldest_maxBytes.
    + rewrite RemoveOldest_length by done.
      destruct (lru.ll c); [done|]. simpl in *. lia.
Qed.

Lemma evict_maxBytes n c c' :
  lru.evict n c = Some c' → lru.maxBytes c' = lru.maxBytes c.
Proof.
  revert c. induction n as [|n IH]; intros c; simpl;
    destruct (lru.over c); try done; try (by intros [= <-]).
  intros ->%IH. apply RemoveOldest_maxBytes.
Qed.

Lemma evict_over n c c' : lru.evict n c = Some c' → lru.over c' = false.
Proof.
  revert c. induction n as [|n IH]; intros c; simpl;
    destruct (lru.over c) eqn:Ho; try done; try (by intros [= <-]).
  apply IH.
Qed.

(** The loop is a number of calls of [RemoveOldest], each made over
    capacity and each on a list that is not empty. *)
Lemma evict_iter n c c' :
  lru.evict n c = Some c' →
  ∃ i, c' = Nat.iter i lru.RemoveOldest c ∧ lru.over c' = false ∧
       ∀ j, (j < i)%nat →
            lru.over (Nat.iter j lru.RemoveOldest c) = true ∧
            lru.ll (Nat.iter j lru.RemoveOldest c) ≠ [].
Proof.
  revert c. induction n as [|n IH]; intros c; simpl.
  - destruct (lru.over c) eqn:Ho; [done|]. intros [= <-].
    exists 0%nat. split_and!; [done|done|lia].
  - destruct (lru.over c) eqn:Ho.
    + intros He. destruct (decide (lru.ll c = [])) as [Hl|Hl].
      { rewrite RemoveOldest_empty in He by done.
        by rewrite evict_forever in He. }
      apply IH in He as (i & -> & Hov & Hj). exists (S i).
      split_and!; [by rewrite Nat.iter_succ_r|done|].
      intros [|j] Hlt; [done|].
      rewrite Nat.iter_succ_r. apply Hj. lia.
    + intros [= <-]. exists 0%nat. split_and!; [done|done|lia].
Qed.

Lemma step_maxBytes o c c' :
  lru.step o c = Some c' → lru.maxBytes c' = lru.maxBytes c.
Proof.
  destruct o as [k v|k|]; simpl.
  - unfold lru.Add. intros ->%evict_maxBytes. unfold lru.store.
    case_decide; [|done]. by destruct (lru.element k (lru.ll c)).
  - intros [= <-]. unfold lru.Get. case_decide; [|done].
    by destruct (lru.element k (lru.ll c)).
  - intros [= <-]. apply RemoveOldest_maxBytes.
Qed.

Lemma run_maxBytes ops c c' :
  lru.run ops c = Some c' → lru.maxBytes c' = lru.maxBytes c.
Proof.
  revert c. induction ops as [|o ops IH]; intros c; simpl.
  - by intros [= <-].
  - destruct (lru.step o c) as [c1|] eqn:Hs; [|done].
    intros ->%IH. by eapply step_maxBytes.
Qed.

(** With a capacity that is not negative every call returns. *)
Lemma step_returns o c :
  lru.wf c → 0 ≤ lru.maxBytes c → is_Some (lru.step o c).
Proof.
  intros Hwf Hmax. destruct o as [k v|k|]; simpl; [|eauto..].
  apply evict_terminates; [by apply wf_store| |lia].
  unfold lru.store. case_decide; [|done].
  by destruct (lru.element k (lru.ll c)).
Qed.

Lemma run_returns ops c :
  lru.wf c → 0 ≤ lru.maxBytes c → is_Some (lru.run ops c).
Proof.
  revert c. induction ops as [|o ops IH]; intros c Hwf Hmax; simpl; [eauto|].
  destruct (step_returns o c Hwf Hmax) as [c1 Hs]. rewrite Hs.
  apply IH; [by eapply wf_step|]. by rewrite (step_maxBytes _ _ _ Hs).
Qed.

Lemma fits_step o c c' : lru.wf c → fits c → lru.step o c = Some c' → fits c'.
Proof.
  intros Hwf Hf. destruct o as [k v|k|]; simpl.
  - intros He. pose proof (evict_over _ _ _ He) as Ho. intros Hpos.
    unfold lru.over in Ho. apply andb_false_iff in Ho as [Ho|Ho].
    + apply negb_false_iff, Z.eqb_eq in Ho. lia.
    + apply Z.ltb_ge in Ho. done.
  - intros [= <-]. unfold lru.Get. case_decide; [|done].
    by destruct (lru.element k (lru.ll c)).
  - intros [= <-]. unfold fits, lru.RemoveOldest.
    destruct (lru.Back (lru.ll c)) as [e|]; [|done]. simpl.
    pose proof (size_nonneg e). unfold lru.size in *. unfold fits in Hf. lia.
Qed.

Lemma fits_run ops c c' : lru.wf c → fits c → lru.run ops c = Some c' → fits c'.
Proof.
  revert c. induction ops as [|o ops IH]; intros c Hwf Hf; simpl.
  - by intros [= <-].
  - destruct (lru.step o c) as [c1|] eqn:Hs; [|done].
    apply IH; [by eapply wf_step|by eapply fits_step].
Qed.

(** *** The order of the list *)

Lemma age_shift h k (a b : lru.entry V) :
  lru.key a ≠ k → lru.key b ≠ k → lru.later h a b → lru.later (k :: h) a b.
Proof.
  unfold lru.later. simpl. intros Ha Hb Hlt.
  rewrite !decide_False by done. lia.
Qed.

Lemma sorted_shift h k l :
  k ∉ (lru.key <$> l) → StronglySorted (lru.later h) l →
  StronglySorted (lru.later (k :: h)) l.
Proof.
  induction l as [|x l IH]; intros Hk Hs; [constructor|].
  rewrite fmap_cons, not_elem_of_cons in Hk. destruct Hk as [Hx Hk].
  apply StronglySorted_cons in Hs as [Hall Hs].
  apply StronglySorted_cons. split; [|by apply IH].
  rewrite Forall_forall in Hall |- *. intros y Hy.
  apply age_shift; [done| |by apply Hall].
  intros Heq. apply Hk. rewrite <- Heq. by apply list_elem_of_fmap_2.
Qed.

(** An entry of key [k] put in front of entries of other keys, [k] being
    touched. *)
Lemma ordered_front h k e l :
  lru.key e = k → k ∉ (lru.key <$> l) →
  StronglySorted (lru.later h) l → (∀ x, x ∈ l → lru.key x ∈ h) →
  StronglySorted (lru.later (k :: h)) (e :: l) ∧
  (∀ x, x ∈ e :: l → lru.key x ∈ k :: h).
Proof.
  intros He Hk Hs Hin. split.
  - apply StronglySorted_cons. split; [|by apply sorted_shift].
    rewrite Forall_forall. intros y Hy. unfold lru.later. simpl.
    rewrite He, decide_True by done. rewrite decide_False; [lia|].
    intros Heq. apply Hk. rewrite Heq. by apply list_elem_of_fmap_2.
  - intros x [->|Hx]%elem_of_cons; [rewrite He|]; set_solver.
Qed.

Lemma sorted_delete h l1 l2 e :
  StronglySorted (lru.later h) (l1 ++ e :: l2) →
  StronglySorted (lru.later h) (l1 ++ l2).
Proof.
  rewrite !StronglySorted_app, StronglySorted_cons.
  intros (Hc & H1 & _ & H2). split_and!; [|done..].
  intros x1 x2 Hx1 Hx2. apply Hc; [done|by right].
Qed.

Lemma ordered_move h k c e l1 l2 e' :
  lru.wf c → lru.ordered h c →
  lru.ll c = l1 ++ e :: l2 → lru.key e = k → lru.key e' = k →
  StronglySorted (lru.later (k :: h)) (e' :: l1 ++ l2) ∧
  (∀ x, x ∈ e' :: l1 ++ l2 → lru.key x ∈ k :: h).
Proof.
  intros (Hnd & _ & _) (Hs & Hin) Hl Hk Hk'. rewrite Hl in *.
  apply NoDup_keys_move in Hnd. rewrite fmap_cons, NoDup_cons in Hnd.
  destruct Hnd as [Hnot _]. rewrite Hk in Hnot.
  apply ordered_front; [done|done|by eapply sorted_delete|].
  intros x Hx. apply Hin. set_solver.
Qed.

Lemma ordered_store h k v c :
  lru.wf c → lru.ordered h c → lru.ordered (k :: h) (lru.store k v c).
Proof.
  intros Hwf Ho. unfold lru.store. case_decide as Hin.
  - destruct (lru.element k (lru.ll c)) as [e|] eqn:He.
    + apply element_split in He as (l1 & l2 & Hl & Hk & _ & Hrm).
      unfold lru.ordered. simpl. rewrite Hrm.
      by eapply ordered_move.
    + apply (wf_lookup c k Hwf) in Hin as [? Hin]. congruence.
  - unfold lru.ordered. simpl. destruct Ho as [Hs Hall].
    apply ordered_front; [done| |done..].
    destruct Hwf as (_ & Hset & _). rewrite Hset in Hin.
    by rewrite elem_of_list_to_set in Hin.
Qed.

Lemma ordered_Get h k c :
  lru.wf c → lru.ordered h c →
  lru.ordered (lru.touch (lru.OpGet k) c h) (lru.Get k c).2.
Proof.
  intros Hwf Ho. unfold lru.Get. simpl. case_decide as Hin; [|done].
  destruct (lru.element k (lru.ll c)) as [e|] eqn:He.
  - unfold lru.ordered, lru.MoveToFront. simpl. rewrite He.
    apply element_split in He as (l1 & l2 & Hl & Hk & _ & Hrm).
    rewrite Hrm. by eapply ordered_move.
  - apply (wf_lookup c k Hwf) in Hin as [? Hin]. congruence.
Qed.

Lemma ordered_RemoveOldest h c :
  lru.ordered h c → lru.ordered h (lru.RemoveOldest c).
Proof.
  intros [Hs Hin]. unfold lru.RemoveOldest, lru.Back.
  destruct (last (lru.ll c)) as [e|] eqn:He; [|done].
  apply last_Some in He as [l' Hl]. rewrite Hl in *.
  unfold lru.ordered. simpl. rewrite removelast_last. split.
  - by apply StronglySorted_app_1_l in Hs.
  - intros x Hx. apply Hin. set_solver.
Qed.

Lemma ordered_iter h c i :
  lru.wf c → lru.ordered h c →
  lru.wf (Nat.iter i lru.RemoveOldest c) ∧
  lru.ordered h (Nat.iter i lru.RemoveOldest c).
Proof.
  intros Hwf Ho. induction i as [|i [IH1 IH2]]; simpl; [done|].
  split; [by apply wf_RemoveOldest|by apply ordered_RemoveOldest].
Qed.

Lemma ordered_step h o c c' :
  lru.wf c → lru.ordered h c → lru.step o c = Some c' →
  lru.ordered (lru.touch o c h) c'.
Proof.
  intros Hwf Ho. destruct o as [k v|k|].
  - simpl. unfold lru.Add. intros (i & -> & _)%evict_iter.
    apply ordered_iter; [by apply wf_store|by apply ordered_store].
  - intros [= <-]. by apply ordered_Get.
  - intros [= <-]. by apply ordered_RemoveOldest.
Qed.

Lemma ordered_run h ops c c' :
  lru.wf c → lru.ordered h c → lru.run ops c = Some c' →
  lru.ordered (lru.history ops c h) c'.
Proof.
  revert h c. induction ops as [|o ops IH]; intros h c Hwf Ho; simpl.
  - by intros [= <-].
  - destruct (lru.step o c) as [c1|] eqn:Hs; [|done].
    apply IH; [by eapply wf_step|by apply ordered_step].
Qed.

(** The element [RemoveOldest] unlinks is the one touched the longest
    ago. *)
Lemma Back_oldest h c e :
  lru.ordered h c → lru.Back (lru.ll c) = Some e →
  ∀ e', e' ∈ lru.ll c → e' ≠ e → lru.later h e' e.
Proof.
  intros [Hs _] [l' Hl]%last_Some e' Hin Hne. rewrite Hl in *.
  eapply StronglySorted_app_1_elem_of; [done| |by left].
  set_solver.
Qed.

End lru_facts.

(** With a negative capacity the loop of [Add] does not end. *)
Lemma evict_negative {V Env} `{!lru.Value V} n (c : lru.Cache V Env) :
  lru.wf c → lru.maxBytes c < 0 → lru.evict n c = None.
Proof.
  revert c. induction n as [|n IH]; intros c Hwf Hneg; simpl.
  - destruct Hwf as (_ & _ & Hn). pose proof (total_nonneg (lru.ll c)).
    unfold lru.over. replace (lru.maxBytes c =? 0) with false by lia.
    replace (lru.maxBytes c <? lru.nbytes c) with true by lia. done.
  - pose proof Hwf as (_ & _ & Hn). pose proof (total_nonneg (lru.ll c)).
    unfold lru.over. replace (lru.maxBytes c =? 0) with false by lia.
    replace (lru.maxBytes c <? lru.nbytes c) with true by lia. simpl.
    apply IH; [by apply wf_RemoveOldest|by rewrite RemoveOldest_maxBytes].
Qed.






(** * The hash ring *)

Section search.

Implicit Types (f : nat → bool) (i j n : nat).

Lemma half_between i j : (i < j)%nat → (i ≤ (i + j) / 2 < j)%nat.
Proof.
  intros Hlt. pose proof (Nat.div_mod_eq (i + j) 2) as Hd.
  pose proof (Nat.mod_upper_bound (i + j) 2 ltac:(lia)). lia.
Qed.

Lemma searchLoop_S f fuel i j :
  consistenthash.searchLoop (S fuel) f i j =
  if decide (i < j)%nat then
    if negb (f ((i + j) / 2)%nat)
    then consistenthash.searchLoop fuel f ((i + j) / 2 + 1)%nat j
    else consistenthash.searchLoop fuel f i ((i + j) / 2)%nat
  else i.
Proof. reflexivity. Qed.

Lemma searchLoop_spec n f fuel i j :
  monotone n f → (j - i ≤ fuel)%nat → (i ≤ j ≤ n)%nat →
  (∀ k, (k < i)%nat → f k = false) → ((j < n)%nat → f j = true) →
  let r := consistenthash.searchLoop fuel f i j in
  (r ≤ n)%nat ∧ (∀ k, (k < r)%nat → f k = false) ∧ ((r < n)%nat → f r = true).
Proof.
  intros Hmono. revert i j. induction fuel as [|fuel IH]; intros i j Hfuel Hij Hlo Hhi.
  - simpl. assert (i = j) as -> by lia. split_and!; [lia|done..].
  - rewrite searchLoop_S. case_decide as Hlt.
    + pose proof (half_between i j Hlt) as Hh.
      destruct (f ((i + j) / 2)%nat) eqn:Hf; cbn [negb].
      * apply IH; [lia|lia|done|]. by intros _.
      * apply IH; [lia|lia| |done].
        intros k Hk. destruct (f k) eqn:Hfk; [|done].
        rewrite <- Hf. symmetry. apply (Hmono k); [lia|lia|done].
    + assert (i = j) as -> by lia. split_and!; [lia|done..].
Qed.

(** [sort.Search] finds the least index at which [f] holds, [n] when there
    is none. *)
Lemma Search_spec n f :
  monotone n f →
  let r := consistenthash.Search n f in
  (r ≤ n)%nat ∧ (∀ k, (k < r)%nat → f k = false) ∧ ((r < n)%nat → f r = true).
Proof.
  intros Hmono. apply searchLoop_spec; [done|lia|lia|lia|lia].
Qed.

(** The loop has ended when [searchLoop] returns: fuel left over is not
    used. *)
Lemma searchLoop_fuel f fuel fuel' i j :
  (j - i ≤ fuel)%nat → (fuel ≤ fuel')%nat →
  consistenthash.searchLoop fuel' f i j = consistenthash.searchLoop fuel f i j.
Proof.
  revert fuel' i j. induction fuel as [|fuel IH]; intros fuel' i j Hf Hle.
  - destruct fuel'; simpl; [done|]. case_decide; [lia|done].
  - destruct fuel' as [|fuel']; [lia|]. rewrite !searchLoop_S.
    case_decide as Hlt; [|done].
    pose proof (half_between i j Hlt).
    destruct (f ((i + j) / 2)%nat); cbn [negb]; apply IH; lia.
Qed.

End search.

Section lists.

Lemma sorted_lookup_le (l : list Z) a b x y :
  StronglySorted Z.le l → l !! a = Some x → l !! b = Some y → (a ≤ b)%nat → x ≤ y.
Proof.
  intros Hs. revert a b. induction Hs as [|z l Hs IH Hall]; intros a b Ha Hb Hab.
  - done.
  - destruct a as [|a], b as [|b]; simpl in *; try lia.
    + simplify_eq. lia.
    + simplify_eq. rewrite Forall_forall in Hall. apply Hall.
      by eapply list_elem_of_lookup_2.
    + eapply IH; [done..|lia].
Qed.

Lemma head_filter_lookup {A} (P : A → Prop) `{!∀ x, Decision (P x)} (l : list A) i y :
  (∀ j w, (j < i)%nat → l !! j = Some w → ¬ P w) →
  l !! i = Some y → P y → head (filter P l) = Some y.
Proof.
  revert i. induction l as [|x l IH]; intros i Hlo Hi Hy; [done|].
  destruct i as [|i]; simpl in *.
  - simplify_eq. by rewrite filter_cons_True.
  - rewrite filter_cons_False; [|by apply (Hlo 0%nat); [lia|]].
    apply (IH i); [|done..]. intros j w Hj Hw. apply (Hlo (S j)); [lia|done].
Qed.

Lemma filter_none {A} (P : A → Prop) `{!∀ x, Decision (P x)} (l : list A) :
  (∀ w, w ∈ l → ¬ P w) → filter P l = [].
Proof.
  induction l as [|x l IH]; intros Hall; [done|].
  rewrite filter_cons_False; [|apply Hall; by left].
  apply IH. intros w Hw. apply Hall. by right.
Qed.

End lists.

Section ring.

Implicit Types (m : consistenthash.Map) (key node : string).

Lemma mapped_mono nodes nodes' m :
  nodes ⊆ nodes' → mapped nodes m → mapped nodes' m.
Proof. intros Hsub [H1 H2]. split; [done|]. intros v node Hv. eauto. Qed.

Lemma mapped_addReplica nodes key m i :
  key ∈ nodes → mapped nodes m → mapped nodes (consistenthash.addReplica key m i).
Proof.
  intros Hkey [H1 H2]. split; simpl.
  - intros v [Hv|Hv%list_elem_of_singleton]%elem_of_app.
    + destruct (decide (consistenthash.hashOf m
                          (consistenthash.Itoa (Z.of_nat i) +:+ key) = v))
        as [->|Hne].
      * rewrite lookup_insert_eq. eauto.
      * rewrite lookup_insert_ne by done. eauto.
    + subst v. rewrite lookup_insert_eq. eauto.
  - intros v node.
    destruct (decide (consistenthash.hashOf m
                        (consistenthash.Itoa (Z.of_nat i) +:+ key) = v))
      as [->|Hne].
    + rewrite lookup_insert_eq. by intros [= <-].
    + rewrite lookup_insert_ne by done. eauto.
Qed.

Lemma mapped_addNode nodes key m :
  key ∈ nodes → mapped nodes m → mapped nodes (consistenthash.addNode m key).
Proof.
  intros Hkey. unfold consistenthash.addNode.
  generalize (seq 0 (Z.to_nat (consistenthash.replicas m))).
  intros l. revert m. induction l as [|i l IH]; intros m Hm; simpl; [done|].
  apply IH. by apply mapped_addReplica.
Qed.

Lemma mapped_addNodes nodes batch m :
  batch ⊆ nodes → mapped nodes m → mapped nodes (foldl consistenthash.addNode m batch).
Proof.
  revert m. induction batch as [|key batch IH]; intros m Hsub Hm; simpl; [done|].
  apply IH; [set_solver|]. apply mapped_addNode; [set_solver|done].
Qed.

Lemma Ints_sorted l : StronglySorted Z.le (consistenthash.Ints l).
Proof.
  unfold consistenthash.Ints. apply Sorted_StronglySorted; [intros x y z; apply Z.le_trans|].
  apply Sorted_merge_sort, Z.le_total.
Qed.

Lemma Ints_elem l v : v ∈ consistenthash.Ints l ↔ v ∈ l.
Proof.
  unfold consistenthash.Ints.
  pose proof (merge_sort_Permutation Z.le l) as Hp.
  split; intros Hv; [by rewrite <- Hp|by rewrite Hp].
Qed.

Lemma mapped_Add nodes batch m :
  batch ⊆ nodes → mapped nodes m → mapped nodes (consistenthash.Add batch m).
Proof.
  intros Hsub Hm. destruct (mapped_addNodes nodes batch m Hsub Hm) as [H1 H2].
  split; [|done]. unfold consistenthash.Add. cbn [consistenthash.keys consistenthash.hashMap].
  intros v Hv. apply H1. by apply (proj1 (Ints_elem _ _)).
Qed.

Lemma ring_invariant ChecksumIEEE reps fn batches :
  StronglySorted Z.le (consistenthash.keys (ringOf ChecksumIEEE reps fn batches)) ∧
  mapped (concat batches) (ringOf ChecksumIEEE reps fn batches).
Proof.
  unfold ringOf. induction batches as [|batch batches IH] using rev_ind.
  - simpl. split; [constructor|]. split; [by intros v ?%elem_of_nil|].
    intros v node. simpl. by rewrite lookup_empty.
  - rewrite foldl_app, concat_app. simpl. destruct IH as [_ IH]. split.
    + apply Ints_sorted.
    + apply mapped_Add; [set_solver|].
      eapply mapped_mono; [|done]. set_solver.
Qed.

(** On a sorted ring that is not empty, [Get] reads the map at the virtual
    node the design picks. *)
Lemma Get_picks key m :
  StronglySorted Z.le (consistenthash.keys m) → consistenthash.keys m ≠ [] →
  ∃ v, picks (consistenthash.keys m) (consistenthash.hashOf m key) v ∧
       consistenthash.Get key m = default "" (consistenthash.hashMap m !! v).
Proof.
  intros Hs Hne. unfold consistenthash.Get.
  rewrite decide_False; [|by destruct (consistenthash.keys m)].
  cbn zeta.
  set (h := consistenthash.hashOf m key).
  set (f := λ i : nat, bool_decide (consistenthash.keys m !!! i >= h)).
  set (n := length (consistenthash.keys m)).
  assert (0 < n)%nat as Hn by (subst n; destruct (consistenthash.keys m); [done|simpl; lia]).
  assert (monotone n f) as Hmono.
  { intros a b Hab Hb. unfold f. rewrite !bool_decide_eq_true. intros Ha.
    destruct (lookup_lt_is_Some_2 (consistenthash.keys m) a) as [x Hx]; [subst n; lia|].
    destruct (lookup_lt_is_Some_2 (consistenthash.keys m) b) as [y Hy]; [done|].
    rewrite (list_lookup_total_correct _ _ _ Hx) in Ha.
    rewrite (list_lookup_total_correct _ _ _ Hy).
    pose proof (sorted_lookup_le _ _ _ _ _ Hs Hx Hy Hab). lia. }
  destruct (Search_spec n f Hmono) as (Hle & Hlo & Hhi).
  set (r := consistenthash.Search n f) in *.
  assert (∀ j w, (j < r)%nat → consistenthash.keys m !! j = Some w → w < h) as Hbefore.
  { intros j w Hj Hw. specialize (Hlo j Hj). unfold f in Hlo.
    rewrite bool_decide_eq_false in Hlo.
    rewrite (list_lookup_total_correct _ _ _ Hw) in Hlo. lia. }
  destruct (decide (r < n)%nat) as [Hlt|Hge].
  - rewrite Nat.mod_small by done.
    destruct (lookup_lt_is_Some_2 (consistenthash.keys m) r) as [v Hv]; [done|].
    rewrite (list_lookup_total_correct _ _ _ Hv).
    exists v. split; [|done]. left. exists r. split_and!; [done| |done].
    specialize (Hhi Hlt). unfold f in Hhi. rewrite bool_decide_eq_true in Hhi.
    rewrite (list_lookup_total_correct _ _ _ Hv) in Hhi. lia.
  - assert (r = n) as -> by lia. rewrite Nat.Div0.mod_same.
    destruct (lookup_lt_is_Some_2 (consistenthash.keys m) 0) as [v Hv]; [done|].
    rewrite (list_lookup_total_correct _ _ _ Hv).
    exists v. split; [|done]. right. split; [by rewrite head_lookup|].
    intros w [j Hj]%list_elem_of_lookup. apply (Hbefore j); [|done].
    by apply lookup_lt_Some in Hj.
Qed.

(** The virtual node the design picks is the one [owner] reads. *)
Lemma picks_owner (ks : list Z) h v first :
  head ks = Some first → picks ks h v →
  default first (head (filter (λ k, h ≤ k) ks)) = v.
Proof.
  intros Hfirst [(i & Hi & Hv & Hlo)|[Hhead Hall]].
  - erewrite head_filter_lookup; [done| |done..].
    intros j w Hj Hw. specialize (Hlo j w Hj Hw). lia.
  - rewrite filter_none; [simpl; congruence|].
    intros w Hw. specialize (Hall w Hw). lia.
Qed.

Lemma picks_unique (ks : list Z) h v v' : picks ks h v → picks ks h v' → v = v'.
Proof.
  intros Hv Hv'. destruct ks as [|first ks].
  - destruct Hv as [(i & Hi & _)|[Hh _]]; [by rewrite lookup_nil in Hi|done].
  - rewrite <- (picks_owner (first :: ks) h v first eq_refl Hv).
    by rewrite <- (picks_owner (first :: ks) h v' first eq_refl Hv').
Qed.

Lemma Get_owner key m :
  StronglySorted Z.le (consistenthash.keys m) →
  consistenthash.Get key m = consistenthash.owner m key.
Proof.
  intros Hs. pose proof (Get_picks key m Hs) as Hp.
  unfold consistenthash.owner. destruct (consistenthash.keys m) as [|first ks] eqn:Hk.
  - unfold consistenthash.Get. by rewrite Hk.
  - destruct Hp as (v & Hv & ->); [done|]. cbn zeta.
    by rewrite (picks_owner (first :: ks) _ v first eq_refl Hv).
Qed.

End ring.



Example ring_Get_example :
  consistenthash.keys (ringOf byteSum 3 (Some byteSum) [["6"; "4"]; ["2"]])
  = [98; 99; 100; 100; 101; 102; 102; 103; 104] ∧
  consistenthash.Get "e" (ringOf byteSum 3 (Some byteSum) [["6"; "4"]; ["2"]]) = "4" ∧
  consistenthash.Get "zz" (ringOf byteSum 3 (Some byteSum) [["6"; "4"]; ["2"]]) = "2" ∧
  consistenthash.Get "e" (consistenthash.New byteSum 3 None) = "".
Proof. vm_compute. done. Qed.

(** * The cache group *)

Lemma copy_make (b : list byte) : geecache.copy (geecache.make (length b)) b = b.
Proof.
  unfold geecache.copy, geecache.make. rewrite length_replicate.
  rewrite firstn_all. rewrite drop_ge by (by rewrite length_replicate).
  by rewrite app_nil_r.
Qed.

(** The clone has the bytes of the original. *)
Lemma cloneBytes_eq (b : list byte) : geecache.cloneBytes b = b.
Proof. apply copy_make. Qed.

Section store_facts.

Context {V : Type} `{!lru.Value V} {Env : Type}.
Implicit Types (c : lru.Cache V Env) (k : string) (v : V).

(** An entry at the front that fits the capacity by itself outlives the
    eviction loop. *)
Lemma evict_keeps_front n c e :
  lru.wf c → head (lru.ll c) = Some e →
  lru.maxBytes c = 0 ∨ lru.size e ≤ lru.maxBytes c →
  (length (lru.ll c) ≤ n)%nat →
  ∃ c', lru.evict n c = Some c' ∧ head (lru.ll c') = Some e.
Proof.
  revert c. induction n as [|n IH]; intros c Hwf Hhead Hcap Hlen.
  - destruct (lru.ll c); [done|simpl in Hlen; lia].
  - simpl. destruct (lru.over c) eqn:Ho; [|eauto].
    destruct (lru.ll c) as [|x [|y rest]] eqn:Hl; [done| |].
    + exfalso. simpl in Hhead. simplify_eq. destruct Hwf as (_ & _ & Hn).
      rewrite Hl in Hn. simpl in Hn. unfold lru.over in Ho.
      apply andb_true_iff in Ho as [Hz%negb_true_iff%Z.eqb_neq Hlt%Z.ltb_lt]. lia.
    + simpl in Hhead. simplify_eq.
      assert (lru.ll (lru.RemoveOldest c) = removelast (e :: y :: rest)) as Hrm.
      { unfold lru.RemoveOldest, lru.Back. rewrite Hl.
        destruct (last (e :: y :: rest)) eqn:Hlast; [done|].
        by apply last_None in Hlast. }
      apply IH.
      * by apply wf_RemoveOldest.
      * rewrite Hrm. done.
      * by rewrite RemoveOldest_maxBytes.
      * rewrite RemoveOldest_length by (by rewrite Hl). rewrite Hl. simpl in *. lia.
Qed.

Lemma store_miss k v c :
  k ∉ lru.cache c →
  lru.ll (lru.store k v c) = lru.mkEntry k v :: lru.ll c ∧
  lru.maxBytes (lru.store k v c) = lru.maxBytes c.
Proof. intros Hk. unfold lru.store. by rewrite decide_False. Qed.

(** [Add] of a key that is not resident, with room for its entry: the
    call returns and the entry is at the front. *)
Lemma Add_keeps k v c :
  lru.wf c → k ∉ lru.cache c →
  lru.maxBytes c = 0 ∨ Z.of_nat (String.length k) + lru.Len v ≤ lru.maxBytes c →
  ∃ c', lru.Add k v c = Some c' ∧ lru.wf c' ∧
        head (lru.ll c') = Some (lru.mkEntry k v) ∧
        lru.maxBytes c' = lru.maxBytes c.
Proof.
  intros Hwf Hk Hcap. destruct (store_miss k v c Hk) as [Hl Hm].
  destruct (evict_keeps_front (S (length (lru.ll (lru.store k v c))))
              (lru.store k v c) (lru.mkEntry k v)) as (c' & He & Hh).
  - by apply wf_store.
  - by rewrite Hl.
  - by rewrite Hm.
  - lia.
  - exists c'. split_and!; [done| |done|].
    + eapply wf_evict; [|done]. by apply wf_store.
    + by rewrite (evict_maxBytes _ _ _ He).
Qed.

(** A key at the front is found. *)
Lemma Get_front k v c :
  lru.wf c → head (lru.ll c) = Some (lru.mkEntry k v) →
  (lru.Get k c).1 = Some v ∧ lru.ll (lru.Get k c).2 = lru.ll c.
Proof.
  intros (_ & Hset & _) Hh. destruct (lru.ll c) as [|x l] eqn:Hl; [done|].
  simpl in Hh. simplify_eq. unfold lru.Get. rewrite decide_True.
  - rewrite Hl. unfold lru.MoveToFront. simpl.
    destruct (decide (k = k)); [|done]. done.
  - rewrite Hset. set_solver.
Qed.

Lemma Get_miss k c : k ∉ lru.cache c → lru.Get k c = (None, c).
Proof. intros Hk. unfold lru.Get. by rewrite decide_False. Qed.

Lemma Get_hit_resident k c v :
  (lru.Get k c).1 = Some v → k ∈ lru.cache c.
Proof. unfold lru.Get. case_decide; [done|]. simpl. done. Qed.

End store_facts.

Section group_facts.

Context {Env : Type}.
Implicit Types (g : geecache.Group Env) (s : geecache.Eff Env) (c : geecache.cache).
Implicit Types (key : string) (v : geecache.ByteView).

Lemma get_miss key c :
  ¬ resident key c → geecache.get key c = (geecache.noView, false, c).
Proof.
  unfold resident, geecache.get. destruct c as [[l|] cb]; simpl; [|done].
  intros Hk. by rewrite Get_miss.
Qed.

Lemma get_hit key c v c' :
  geecache.get key c = (v, true, c') → resident key c.
Proof.
  unfold resident, geecache.get. destruct c as [[l|] cb]; simpl; [|done].
  destruct (lru.Get key l) as [[v'|] l'] eqn:Hg; [|done].
  intros _. apply (Get_hit_resident key l v'). by rewrite Hg.
Qed.

Lemma get_cache_ok key c : cache_ok c → cache_ok (geecache.get key c).2.
Proof.
  unfold cache_ok, geecache.get. destruct c as [[l|] cb]; simpl; [|done].
  intros [Hwf Hm].
  pose proof (wf_Get key l Hwf) as Hwf'.
  pose proof (step_maxBytes (lru.OpGet key) l _ eq_refl) as Hm'.
  destruct (lru.Get key l) as [[v'|] l'] eqn:Hg; simpl in *; split; congruence.
Qed.

Lemma add_keeps key v c :
  cache_ok c → ¬ resident key c →
  geecache.cacheBytes c = 0 ∨
  Z.of_nat (String.length key) + geecache.Len v ≤ geecache.cacheBytes c →
  ∃ c', geecache.add key v c = Ret c' ∧ cache_ok c' ∧
        geecache.cacheBytes c' = geecache.cacheBytes c ∧
        front c' = Some (lru.mkEntry key v).
Proof.
  intros Hok Hres Hcap. unfold geecache.add.
  set (l := match geecache.lru_ c with
            | Some l => l
            | None => lru.New (geecache.cacheBytes c) None ()
            end).
  assert (lru.wf l ∧ lru.maxBytes l = geecache.cacheBytes c ∧ key ∉ lru.cache l)
    as (Hwf & Hm & Hk).
  { subst l. unfold cache_ok, resident in *.
    destruct (geecache.lru_ c) as [l|]; [by destruct Hok|].
    split_and!; [apply wf_New|done|set_solver]. }
  destruct (Add_keeps key v l Hwf Hk) as (l' & -> & Hwf' & Hh & Hm').
  { by rewrite Hm. }
  eexists. split; [done|]. unfold cache_ok, front. simpl.
  split_and!; [done|congruence|done|done].
Qed.

Lemma get_front key v c :
  cache_ok c → front c = Some (lru.mkEntry key v) →
  ∃ c', geecache.get key c = (v, true, c') ∧ cache_ok c' ∧
        front c' = Some (lru.mkEntry key v) ∧
        geecache.cacheBytes c' = geecache.cacheBytes c.
Proof.
  unfold cache_ok, front, geecache.get. destruct c as [[l|] cb]; simpl; [|done].
  intros [Hwf Hm] Hh. destruct (Get_front key v l Hwf Hh) as [Hv Hl].
  pose proof (wf_Get key l Hwf) as Hwf'.
  pose proof (step_maxBytes (lru.OpGet key) l _ eq_refl) as Hm'.
  destruct (lru.Get key l) as [[v'|] l'] eqn:Hg; simpl in *; [|done].
  simplify_eq. eexists. split; [done|]. simpl. rewrite Hl.
  split_and!; [done|congruence|done|done].
Qed.

Lemma setCache_id g : geecache.setCache (geecache.mainCache g) g = g.
Proof. by destruct g. Qed.

Lemma getLocally_err key g s f bytes err e' :
  geecache.getter g = Some f →
  f key (geecache.env s) = (bytes, Some err, e') →
  geecache.getLocally key g s
  = Ret (geecache.noView, Some err, g,
         geecache.emit (geecache.GetterGet key)
           {| geecache.env := e'; geecache.trace := geecache.trace s |}).
Proof. intros Hg Hf. unfold geecache.getLocally. by rewrite Hg, Hf. Qed.

Lemma getLocally_ok key g s f bytes e' :
  geecache.getter g = Some f →
  f key (geecache.env s) = (bytes, None, e') →
  cache_ok (geecache.mainCache g) → ¬ resident key (geecache.mainCache g) →
  geecache.cacheBytes (geecache.mainCache g) = 0 ∨
  Z.of_nat (String.length key) + Z.of_nat (length bytes)
  ≤ geecache.cacheBytes (geecache.mainCache g) →
  ∃ c', geecache.getLocally key g s
        = Ret (geecache.mkByteView bytes, None, geecache.setCache c' g,
               {| geecache.env := e';
                  geecache.trace := geecache.trace s
                    ++ [geecache.GetterGet key; geecache.CacheAdd key] |}) ∧
        cache_ok c' ∧
        geecache.cacheBytes c' = geecache.cacheBytes (geecache.mainCache g) ∧
        front c' = Some (lru.mkEntry key (geecache.mkByteView bytes)).
Proof.
  intros Hg Hf Hok Hres Hcap. unfold geecache.getLocally. rewrite Hg, Hf.
  rewrite cloneBytes_eq.
  destruct (add_keeps key (geecache.mkByteView bytes) (geecache.mainCache g)
              Hok Hres Hcap) as (c' & Hadd & Hok' & Hcb & Hfront).
  exists c'. split; [|done].
  unfold geecache.populateCache. rewrite Hadd. simpl.
  unfold geecache.emit. simpl. by rewrite <- app_assoc.
Qed.

(** [load] with no peer picker and no call in flight for the key is
    [getLocally]; the table of the coalescer is as it was. *)
Lemma load_local key g s l v err g' s' :
  geecache.peers g = None → geecache.loader g = Some l →
  default ∅ (singleflight.m l) !! key = None →
  geecache.getLocally key g s = Ret (v, err, g', s') →
  ∃ l', geecache.load key g s
        = Ret (match err with None => v | Some _ => geecache.noView end, err,
               geecache.setLoader l' g', s') ∧
        default ∅ (singleflight.m l')
        = delete key (default ∅ (singleflight.m l)).
Proof.
  intros Hp Hl Hm Hloc. unfold geecache.load. rewrite Hl.
  unfold singleflight.Do. rewrite Hm. unfold geecache.loadFn. rewrite Hp, Hloc.
  simpl. destruct err as [e|]; eexists; (split; [done|]); simpl;
    by rewrite delete_insert_eq.
Qed.

Lemma idle_table g l key :
  idle g → geecache.loader g = Some l → default ∅ (singleflight.m l) !! key = None.
Proof.
  intros (l' & Hl' & Hm) Hl. simplify_eq. by rewrite Hm, lookup_empty.
Qed.

Lemma add_cache_ok key v c c' :
  cache_ok c → geecache.add key v c = Ret c' → cache_ok c'.
Proof.
  unfold cache_ok, geecache.add. intros Hok.
  set (l := match geecache.lru_ c with
            | Some l => l
            | None => lru.New (geecache.cacheBytes c) None ()
            end).
  assert (lru.wf l ∧ lru.maxBytes l = geecache.cacheBytes c) as [Hwf Hm].
  { subst l. destruct (geecache.lru_ c) as [l|]; [done|].
    split; [apply wf_New|done]. }
  destruct (lru.Add key v l) as [l'|] eqn:Ha; [|done]. intros [= <-]. simpl.
  split; [by eapply wf_Add|].
  by rewrite (step_maxBytes (lru.OpAdd key v) l l' Ha).
Qed.

Lemma getLocally_sound key g s r err g' s' :
  sound g → geecache.getLocally key g s = Ret (r, err, g', s') →
  cache_ok (geecache.mainCache g') ∧ geecache.loader g' = geecache.loader g ∧
  geecache.peers g' = geecache.peers g ∧ geecache.getter g' = geecache.getter g ∧
  geecache.name g' = geecache.name g.
Proof.
  intros [Hok _]. unfold geecache.getLocally.
  destruct (geecache.getter g) as [f|] eqn:Hget; [|done].
  destruct (f key (geecache.env s)) as [[bytes [e|]] e'].
  - intros [= <- <- <- <-]. by split_and!.
  - unfold geecache.populateCache.
    destruct (geecache.add key _ (geecache.mainCache g)) as [c'| |] eqn:Ha;
      simpl; [|done..].
    intros [= <- <- <- <-]. simpl. split_and!; [|done..]. by eapply add_cache_ok.
Qed.

(** [Do] with no call in flight runs the function and leaves no call in
    flight. *)
Lemma Do_idle {R E : Type} key (fn : E → outcome (R * E)) (l : singleflight.Group R)
    e r l' e' :
  default ∅ (singleflight.m l) = ∅ →
  singleflight.Do key fn l e = Ret (r, l', e') →
  ∃ r0, r = Some r0 ∧ fn e = Ret (r0, e') ∧ default ∅ (singleflight.m l') = ∅.
Proof.
  intros Hm. unfold singleflight.Do. rewrite Hm, lookup_empty.
  destruct (fn e) as [[r0 e0]| |]; simpl; [|done..].
  intros [= <- <- <-]. exists r0. simpl. by rewrite delete_insert_eq.
Qed.

Lemma loadFn_sound key g s v err g' s' :
  sound g → geecache.loadFn key (g, s) = Ret (v, err, (g', s')) →
  cache_ok (geecache.mainCache g').
Proof.
  intros Hs. pose proof Hs as [Hok _]. unfold geecache.loadFn.
  assert (∀ s1, geecache.getLocally key g s1 ≫=
                  (λ '(v0, err0, g0, s0), Ret (v0, err0, (g0, s0)))
                = Ret (v, err, (g', s')) → cache_ok (geecache.mainCache g'))
    as Hlocal.
  { intros s1.
    destruct (geecache.getLocally key g s1) as [[[[v0 err0] g0] s0]| |] eqn:Hloc;
      simpl; [|done..].
    intros [= <- <- <- <-]. by eapply getLocally_sound. }
  destruct (geecache.peers g) as [pick|]; [|apply Hlocal].
  destruct (pick key (geecache.env s)) as [[peer|] e1]; [|apply Hlocal].
  destruct (geecache.getFromPeer peer key g _) as [[value [e|]] s2];
    [apply Hlocal|].
  by intros [= <- <- <- <-].
Qed.

Lemma load_sound key g s r err g' s' :
  sound g → geecache.load key g s = Ret (r, err, g', s') → sound g'.
Proof.
  intros Hs. pose proof Hs as [Hok (l & Hl & Hm)]. unfold geecache.load. rewrite Hl.
  destruct (singleflight.Do key (geecache.loadFn key) l (g, s))
    as [[[vi l'] [g0 s0]]| |] eqn:Hdo; simpl; [|done..].
  destruct (Do_idle _ _ _ _ _ _ _ Hm Hdo) as ([v0 err0] & -> & Hfn & Hm').
  apply loadFn_sound in Hfn; [|done].
  destruct err0; intros [= <- <- <- <-]; (split; [done|by exists l']).
Qed.

(** [Get] leaves a sound group sound. *)
Lemma Get_sound key g s r err g' s' :
  sound g → geecache.Get key g s = Ret (r, err, g', s') → sound g'.
Proof.
  intros Hs. pose proof Hs as [Hok (l & Hl & Hm)]. unfold geecache.Get.
  case_decide; [by intros [= <- <- <- <-]|].
  pose proof (get_cache_ok key _ Hok) as Hok1.
  destruct (geecache.get key (geecache.mainCache g)) as [[v ok] c]. simpl in Hok1.
  assert (sound (geecache.setCache c g)) as Hs1 by (split; [done|by exists l]).
  destruct ok; [by intros [= <- <- <- <-]|].
  by apply load_sound.
Qed.

End group_facts.

Lemma groupOf_sound {Env} name cacheBytes (f : geecache.Getter Env) :
  sound (groupOf name cacheBytes f).
Proof. split; [done|]. by eexists. Qed.

Lemma getterCalls_app (tr tr' : list geecache.event) :
  getterCalls (tr ++ tr') = (getterCalls tr + getterCalls tr')%nat.
Proof.
  induction tr as [|ev tr IH]; simpl; [done|]. destruct ev; rewrite ?IH; lia.
Qed.

(** C1, as the group does it.  In a group with no peer picker, a key that is
    not empty and not in the local store, and a getter that succeeds on it:
    when the capacity is unlimited or has room for the entry, a first [Get]
    calls the getter once, stores a value of the bytes it returned and
    returns it, and a second [Get] returns the same value from the local
    store without calling the getter.  When the getter fails on the key,
    [Get] returns its error and the local store is as before. *)
Theorem Get_cold_key_loads_once :
  ∀ (Env : Type) (g : geecache.Group Env) (s : geecache.Eff Env) key f,
    sound g → geecache.peers g = None → geecache.getter g = Some f →
    key ≠ "" → ¬ resident key (geecache.mainCache g) →
    match f key (geecache.env s) with
    | (bytes, None, e') =>
        geecache.cacheBytes (geecache.mainCache g) = 0 ∨
        Z.of_nat (String.length key) + Z.of_nat (length bytes)
        ≤ geecache.cacheBytes (geecache.mainCache g) →
        ∃ g1 g2,
          geecache.Get key g s
          = Ret (geecache.mkByteView bytes, None, g1,
                 {| geecache.env := e';
                    geecache.trace := geecache.trace s
                      ++ [geecache.CacheGet key; geecache.GetterGet key;
                          geecache.CacheAdd key] |}) ∧
          front (geecache.mainCache g1)
          = Some (lru.mkEntry key (geecache.mkByteView bytes)) ∧
          geecache.Get key g1
            {| geecache.env := e';
               geecache.trace := geecache.trace s
                 ++ [geecache.CacheGet key; geecache.GetterGet key;
                     geecache.CacheAdd key] |}
          = Ret (geecache.mkByteView bytes, None, g2,
                 {| geecache.env := e';
                    geecache.trace := geecache.trace s
                      ++ [geecache.CacheGet key; geecache.GetterGet key;
                          geecache.CacheAdd key; geecache.CacheGet key] |}) ∧
          getterCalls (geecache.trace s
                         ++ [geecache.CacheGet key; geecache.GetterGet key;
                             geecache.CacheAdd key; geecache.CacheGet key])
          = S (getterCalls (geecache.trace s))
    | (_, Some err, e') =>
        ∃ g1,
          geecache.Get key g s
          = Ret (geecache.noView, Some err, g1,
                 {| geecache.env := e';
                    geecache.trace := geecache.trace s
                      ++ [geecache.CacheGet key; geecache.GetterGet key] |}) ∧
          geecache.mainCache g1 = geecache.mainCache g
    end.
Proof.
  intros Env g s key f Hs Hp Hget Hkey Hres.
  pose proof Hs as [Hok (l & Hl & Hm)].
  assert (default ∅ (singleflight.m l) !! key = None) as Hfree
    by (by rewrite Hm, lookup_empty).
  destruct (f key (geecache.env s)) as [[bytes [err|]] e'] eqn:Hf.
  - destruct (load_local key g (geecache.emit (geecache.CacheGet key) s) l
                geecache.noView (Some err) g
                (geecache.emit (geecache.GetterGet key)
                   {| geecache.env := e';
                      geecache.trace := geecache.trace
                        (geecache.emit (geecache.CacheGet key) s) |}))
      as (l' & Hload & _); [done..| |].
    { by eapply getLocally_err. }
    exists (geecache.setLoader l' g). split; [|done].
    unfold geecache.Get. rewrite decide_False by done.
    rewrite get_miss by done. rewrite setCache_id. rewrite Hload.
    unfold geecache.emit. simpl. by rewrite <- app_assoc.
  - intros Hcap.
    destruct (getLocally_ok key g (geecache.emit (geecache.CacheGet key) s)
                f bytes e' Hget Hf Hok Hres Hcap) as (c' & Hloc & Hok' & Hcb & Hfront).
    destruct (load_local key g (geecache.emit (geecache.CacheGet key) s) l _ _ _ _
                Hp Hl Hfree Hloc) as (l' & Hload & _).
    destruct (get_front key (geecache.mkByteView bytes) c' Hok' Hfront)
      as (c'' & Hget2 & _).
    exists (geecache.setLoader l' (geecache.setCache c' g)).
    exists (geecache.setCache c'' (geecache.setLoader l' (geecache.setCache c' g))).
    split_and!.
    + unfold geecache.Get. rewrite decide_False by done.
      rewrite get_miss by done. rewrite setCache_id. rewrite Hload.
      unfold geecache.emit. simpl. by rewrite <- app_assoc.
    + done.
    + unfold geecache.Get. rewrite decide_False by done. simpl.
      rewrite Hget2. unfold geecache.emit. simpl. by rewrite <- app_assoc.
    + rewrite getterCalls_app. simpl. lia.
Qed.

Lemma Get_cold_key_loads_once_witness :
  ∃ g1 g2,
    geecache.Get "Tom" (groupOf "scores" 2048 dbGetter)
      {| geecache.env := (); geecache.trace := [] |}
    = Ret (geecache.mkByteView (String.list_byte_of_string "630"), None, g1,
           {| geecache.env := ();
              geecache.trace := [geecache.CacheGet "Tom"; geecache.GetterGet "Tom";
                                 geecache.CacheAdd "Tom"] |}) ∧
    front (geecache.mainCache g1)
    = Some (lru.mkEntry "Tom"
              (geecache.mkByteView (String.list_byte_of_string "630"))) ∧
    geecache.Get "Tom" g1
      {| geecache.env := ();
         geecache.trace := [geecache.CacheGet "Tom"; geecache.GetterGet "Tom";
                            geecache.CacheAdd "Tom"] |}
    = Ret (geecache.mkByteView (String.list_byte_of_string "630"), None, g2,
           {| geecache.env := ();
              geecache.trace := [geecache.CacheGet "Tom"; geecache.GetterGet "Tom";
                                 geecache.CacheAdd "Tom"; geecache.CacheGet "Tom"] |}) ∧
    getterCalls [geecache.CacheGet "Tom"; geecache.GetterGet "Tom";
                 geecache.CacheAdd "Tom"; geecache.CacheGet "Tom"] = 1%nat.
Proof.
  apply (Get_cold_key_loads_once unit (groupOf "scores" 2048 dbGetter)
           {| geecache.env := (); geecache.trace := [] |} "Tom" dbGetter).
  - apply groupOf_sound.
  - reflexivity.
  - reflexivity.
  - discriminate.
  - simpl. tauto.
  - right. vm_compute. discriminate.
Defined.

(** C1 as it is written fails for a group whose capacity has no room for
    the entry: with one byte of capacity the value of "Tom" is stored and
    evicted at once, and the second [Get] calls the getter again. *)
Lemma Get_cold_key_small_capacity :
  ¬ (∀ (g : geecache.Group unit) (s : geecache.Eff unit) key f bytes e',
       sound g → geecache.peers g = None → geecache.getter g = Some f →
       key ≠ "" → ¬ resident key (geecache.mainCache g) →
       f key (geecache.env s) = (bytes, None, e') →
       ∃ v1 g1 s1 v2 g2 s2,
         geecache.Get key g s = Ret (v1, None, g1, s1) ∧
         geecache.Get key g1 s1 = Ret (v2, None, g2, s2) ∧
         getterCalls (geecache.trace s2) = S (getterCalls (geecache.trace s))).
Proof.
  intros Hclaim.
  destruct (Hclaim (groupOf "scores" 1 dbGetter)
              {| geecache.env := (); geecache.trace := [] |} "Tom" dbGetter
              (String.list_byte_of_string "630") ())
    as (v1 & g1 & s1 & v2 & g2 & s2 & H1 & H2 & Hn).
  - apply groupOf_sound.
  - reflexivity.
  - reflexivity.
  - discriminate.
  - simpl. tauto.
  - reflexivity.
  - vm_compute in H1. injection H1 as <- <- <-.
    vm_compute in H2. injection H2 as <- <- <-.
    vm_compute in Hn. discriminate.
Qed.

(** C8.  In a group with no call in flight whose peer picker names a peer
    for the key, when that peer returns bytes, [load] returns a value of
    these bytes after asking the picker and the peer only: the getter is not
    called and nothing is added to the local store, which is as it was.
    So is [Get] for such a key that is not empty and not in the local
    store, and the key is still not in the local store afterwards. *)
Theorem remote_fetch_not_stored :
  ∀ (Env : Type) (g : geecache.Group Env) (s : geecache.Eff Env) key
    pick peer bytes e1 e2,
    idle g → geecache.peers g = Some pick →
    pick key (geecache.env s) = (Some peer, e1) →
    peer (geecache.name g) key e1 = (bytes, None, e2) →
    (∃ g',
       geecache.load key g s
       = Ret (geecache.mkByteView bytes, None, g',
              {| geecache.env := e2;
                 geecache.trace := geecache.trace s
                   ++ [geecache.PickPeer key;
                       geecache.PeerGet (geecache.name g) key] |}) ∧
       geecache.mainCache g' = geecache.mainCache g) ∧
    (key ≠ "" → ¬ resident key (geecache.mainCache g) →
     ∃ g',
       geecache.Get key g s
       = Ret (geecache.mkByteView bytes, None, g',
              {| geecache.env := e2;
                 geecache.trace := geecache.trace s
                   ++ [geecache.CacheGet key; geecache.PickPeer key;
                       geecache.PeerGet (geecache.name g) key] |}) ∧
       geecache.mainCache g' = geecache.mainCache g ∧
       ¬ resident key (geecache.mainCache g')).
Proof.
  intros Env g s key pick peer bytes e1 e2 (l & Hl & Hm) Hp Hpick Hpeer.
  assert (∀ s0, geecache.env s0 = geecache.env s →
    ∃ g', geecache.load key g s0
          = Ret (geecache.mkByteView bytes, None, g',
                 {| geecache.env := e2;
                    geecache.trace := geecache.trace s0
                      ++ [geecache.PickPeer key;
                          geecache.PeerGet (geecache.name g) key] |}) ∧
          geecache.mainCache g' = geecache.mainCache g) as Hload.
  { intros s0 He. unfold geecache.load. rewrite Hl.
    unfold singleflight.Do. rewrite Hm, lookup_empty.
    unfold geecache.loadFn. rewrite Hp, He, Hpick.
    unfold geecache.getFromPeer. simpl. rewrite Hpeer. simpl.
    eexists. split.
    - unfold geecache.emit. simpl. rewrite <- app_assoc. reflexivity.
    - reflexivity. }
  split.
  - by apply Hload.
  - intros Hkey Hres. unfold geecache.Get. rewrite decide_False by done.
    rewrite get_miss by done. rewrite setCache_id.
    destruct (Hload (geecache.emit (geecache.CacheGet key) s) eq_refl)
      as (g' & -> & Hc).
    exists g'. split_and!; [|done|by rewrite Hc].
    unfold geecache.emit. simpl. by rewrite <- app_assoc.
Qed.

Lemma remote_fetch_not_stored_witness :
  ∃ g',
    geecache.Get "Tom"
      {| geecache.name := "scores"; geecache.getter := Some dbGetter;
         geecache.mainCache := {| geecache.lru_ := None; geecache.cacheBytes := 2048 |};
         geecache.peers := Some onePeer;
         geecache.loader := Some singleflight.zero |}
      {| geecache.env := (); geecache.trace := [] |}
    = Ret (geecache.mkByteView (String.list_byte_of_string "remote"), None, g',
           {| geecache.env := ();
              geecache.trace := [geecache.CacheGet "Tom"; geecache.PickPeer "Tom";
                                 geecache.PeerGet "scores" "Tom"] |}) ∧
    geecache.mainCache g'
    = {| geecache.lru_ := None; geecache.cacheBytes := 2048 |} ∧
    ¬ resident "Tom" (geecache.mainCache g').
Proof.
  apply (proj2 (remote_fetch_not_stored unit
           {| geecache.name := "scores"; geecache.getter := Some dbGetter;
              geecache.mainCache := {| geecache.lru_ := None; geecache.cacheBytes := 2048 |};
              geecache.peers := Some onePeer;
              geecache.loader := Some singleflight.zero |}
           {| geecache.env := (); geecache.trace := [] |} "Tom"
           onePeer (λ group key e, (String.list_byte_of_string "remote", None, e))
           (String.list_byte_of_string "remote") () ()
           ltac:(by eexists) eq_refl eq_refl eq_refl)).
  - discriminate.
  - simpl. tauto.
Defined.

(** C9.  [Get] of the empty key returns the error "key is required"; the
    group, the outside world and the record of calls are as before: no call
    to the local store, the peers or the getter is made. *)
Theorem Get_empty_key :
  ∀ (Env : Type) (g : geecache.Group Env) (s : geecache.Eff Env),
    geecache.Get "" g s = Ret (geecache.noView, Some "key is required", g, s).
Proof. intros Env g s. unfold geecache.Get. by rewrite decide_True. Qed.

Lemma through_groups {Env A} p (f : geecache.Group Env → geecache.Eff Env →
    outcome (A * geecache.Group Env * geecache.Eff Env)) w a w' :
  geecache.through p f w = Ret (a, w') → geecache.groups w' = geecache.groups w.
Proof.
  unfold geecache.through. destruct (geecache.heap w !! p) as [g|]; [|done].
  destruct (f g (geecache.eff w)) as [[[a0 g'] s']| |]; simpl; [|done..].
  by intros [= <- <-].
Qed.

Lemma wstep_other {Env} (o : wop Env) w w' name :
  wstep o w = Ret w' → name ∉ made [o] →
  geecache.GetGroup name w' = geecache.GetGroup name w.
Proof.
  unfold geecache.GetGroup. destruct o as [n cb getter|n key]; simpl.
  - destruct getter as [f|]; simpl; [|done]. intros [= <-] Hn. simpl.
    apply lookup_insert_ne. set_solver.
  - destruct (geecache.GetGroup n w) as [p|]; [|by intros [= <-]].
    destruct (geecache.through p (geecache.Get key) w) as [[a w1]| |] eqn:Ht;
      simpl; [|done..].
    intros [= <-] _. by rewrite (through_groups _ _ _ _ _ Ht).
Qed.

Lemma wrun_other {Env} (ops : list (wop Env)) w w' name :
  wrun ops w = Ret w' → name ∉ made ops →
  geecache.GetGroup name w' = geecache.GetGroup name w.
Proof.
  revert w. induction ops as [|o ops IH]; intros w; simpl.
  - by intros [= <-].
  - destruct (wstep o w) as [w1| |] eqn:Hs; simpl; [|done..].
    intros Hr Hn. rewrite (IH w1 Hr).
    + eapply wstep_other; [done|]. destruct o; set_solver.
    + destruct o; set_solver.
Qed.



(** * The peer request handler *)

Lemma cut_Some sep s l r :
  geecache.cut sep s = Some (l, r) → s = l +:+ String sep r.
Proof.
  revert l. induction s as [|a s IH]; intros l; simpl; [done|].
  case_decide as Ha.
  - intros [= <- <-]. by subst a.
  - destruct (geecache.cut sep s) as [[l' r']|]; [|done].
    intros [= <- <-]. specialize (IH l' eq_refl). by subst s.
Qed.

Lemma cut_None sep s l r :
  geecache.cut sep s = None → s ≠ l +:+ String sep r.
Proof.
  revert l. induction s as [|a s IH]; intros l; simpl.
  - intros _. by destruct l.
  - case_decide as Ha; [done|].
    destruct (geecache.cut sep s) as [[l' r']|] eqn:Hc; [done|].
    intros _. destruct l as [|b l].
    + intros [= -> _]. done.
    + intros [= -> Hs]. by eapply IH.
Qed.

Lemma SplitN_two s sep :
  geecache.SplitN s sep 2 =
  match geecache.cut sep s with
  | Some (l, r) => [l; r]
  | None => [s]
  end.
Proof. simpl. by destruct (geecache.cut sep s) as [[l r]|]. Qed.

(** [SplitN(s, "/", 2)] has two parts when [s] has a ["/"], the part before
    the first one and the part after it, and one part otherwise. *)
Lemma SplitN_two_parts s sep :
  length (geecache.SplitN s sep 2) = 2%nat ↔ ∃ l r, s = l +:+ String sep r.
Proof.
  rewrite SplitN_two. destruct (geecache.cut sep s) as [[l r]|] eqn:Hc.
  - split; [|done]. intros _. exists l, r. by apply cut_Some.
  - split; [done|]. intros (l & r & Hs). by apply cut_None in Hs.
Qed.



(** The scenarios of the design document. *)
Example ServeHTTP_scenarios :
  (∃ w', geecache.ServeHTTP (geecache.NewHTTPPool "http://localhost:8001")
           "/_geecache/scores/Tom" scores
         = Ret ([geecache.HeaderSet "Content-Type" "application/octet-stream";
                 geecache.Write (String.list_byte_of_string "630")], w')) ∧
  geecache.ServeHTTP (geecache.NewHTTPPool "http://localhost:8001")
    "/_geecache/unknowngroup/x" scores
  = Ret ([geecache.Error_ "no such group: unknowngroup" 404], scores) ∧
  geecache.ServeHTTP (geecache.NewHTTPPool "http://localhost:8001")
    "/_geecache/scores" scores
  = Ret ([geecache.Error_ "bad request" 400], scores) ∧
  (∃ w', geecache.ServeHTTP (geecache.NewHTTPPool "http://localhost:8001")
           "/_geecache/scores/kkk" scores
         = Ret ([geecache.Error_ "kkk not exist" 500], w')) ∧
  geecache.ServeHTTP (geecache.NewHTTPPool "http://localhost:8001")
    "/other/scores/Tom" scores
  = Panic "HTTPPool serving unexpected path: /other/scores/Tom".
Proof.
  split_and!; [eexists; vm_compute; reflexivity|vm_compute; reflexivity..
              |eexists; vm_compute; reflexivity|vm_compute; reflexivity].
Qed.

(** * Value views over a store *)

Section byteview_facts.

Implicit Types (st : byteview.Store) (s : byteview.slice) (v : byteview.ByteView).

Lemma read_length st s : byteview.valid st s → length (byteview.read s st) = byteview.len s.
Proof.
  intros (a & Ha & Hle). unfold byteview.read. rewrite Ha. simpl.
  rewrite length_take, length_drop. lia.
Qed.

(** An byteview.array allocated after [s] does not change what [s] reads. *)
Lemma read_alloc st s a : byteview.valid st s → byteview.read s (st ++ [a]) = byteview.read s st.
Proof.
  intros (a' & Ha & _). unfold byteview.read.
  rewrite lookup_app_l; [done|]. by eapply lookup_lt_Some.
Qed.

(** A change in another byteview.array does not change what [s] reads. *)
Lemma read_alter st s f (i : nat) :
  i ≠ byteview.array s → byteview.read s (alter f i st) = byteview.read s st.
Proof. intros Hi. unfold byteview.read. by rewrite list_lookup_alter_ne. Qed.

Lemma write_other st st' s s' i x :
  byteview.array s ≠ byteview.array s' → byteview.write s i x st = Some st' →
  byteview.read s' st' = byteview.read s' st.
Proof.
  intros Hne. unfold byteview.write. case_decide; [|done]. intros [= <-].
  by apply read_alter.
Qed.

Lemma write_length st st' s i x :
  byteview.write s i x st = Some st' → length st' = length st.
Proof.
  unfold byteview.write. case_decide; [|done]. intros [= <-]. apply length_alter.
Qed.

Lemma writes_other st st' s s' ws :
  byteview.array s ≠ byteview.array s' → byteview.writes s ws st = Some st' →
  byteview.read s' st' = byteview.read s' st.
Proof.
  intros Hne. revert st. induction ws as [|[i x] ws IH]; intros st; simpl.
  - by intros [= <-].
  - destruct (byteview.write s i x st) as [st1|] eqn:Hw; [|done].
    intros Hws. rewrite (IH _ Hws). by eapply write_other.
Qed.

(** The clone is a new byteview.array with the bytes of the original, and the
    arrays there were are as they were. *)
Lemma cloneBytes_spec st s :
  byteview.valid st s →
  ∃ c st', byteview.cloneBytes s st = (c, st') ∧
           byteview.array c = length st ∧ byteview.off c = 0%nat ∧
           byteview.len c = byteview.len s ∧
           byteview.valid st' c ∧
           byteview.read c st' = byteview.read s st ∧
           byteview.read c st' = geecache.cloneBytes (byteview.read s st) ∧
           (∀ s', byteview.valid st s' →
                  byteview.valid st' s' ∧ byteview.read s' st' = byteview.read s' st).
Proof.
  intros Hv. pose proof (read_length st s Hv) as Hlen.
  unfold byteview.cloneBytes, byteview.make, byteview.copy. eexists _, _. split; [done|]. simpl.
  rewrite (read_alloc st s _ Hv).
  rewrite take_ge by lia.
  rewrite (alter_app_r_alt _ st _ (length st)) by lia. rewrite Nat.sub_diag.
  simpl. rewrite Hlen, drop_replicate, Nat.sub_diag. simpl. rewrite app_nil_r.
  assert (byteview.read {| byteview.array := length st; byteview.off := 0;
                           byteview.len := byteview.len s |}
            (st ++ [byteview.read s st]) = byteview.read s st) as Hread.
  { set (r := byteview.read s st) in *. unfold byteview.read. simpl.
    rewrite lookup_app_r, Nat.sub_diag by lia. simpl. apply take_ge. lia. }
  split_and!; [done..| | | |].
  - exists (byteview.read s st). simpl. split; [|lia].
    by rewrite lookup_app_r, Nat.sub_diag by lia.
  - done.
  - by rewrite cloneBytes_eq.
  - intros s' Hv'. split; [|by apply read_alloc].
    destruct Hv' as (a & Ha & Hle). exists a. split; [|done].
    rewrite lookup_app_l; [done|]. by eapply lookup_lt_Some.
Qed.

End byteview_facts.

(** C10.  For a value view whose payload is a slice of the store,
    [ByteSlice] returns a slice of a new array, with the bytes of the
    payload and no storage in common with it; the payload reads as before,
    and still does after any writes through the slice returned: a later
    read of the view sees the same bytes. *)
Theorem ByteSlice_is_a_copy :
  ∀ (st : byteview.Store) (v : byteview.ByteView),
    byteview.valid st (byteview.b v) →
    ∃ s st',
      byteview.ByteSlice v st = (s, st') ∧
      byteview.read s st' = byteview.read (byteview.b v) st ∧
      st !! byteview.array s = None ∧
      byteview.array s ≠ byteview.array (byteview.b v) ∧
      byteview.read (byteview.b v) st' = byteview.read (byteview.b v) st ∧
      ∀ ws st'',
        byteview.writes s ws st' = Some st'' →
        byteview.read (byteview.b v) st'' = byteview.read (byteview.b v) st ∧
        byteview.String v st'' = byteview.String v st.
Proof.
  intros st v Hv.
  destruct (cloneBytes_spec st (byteview.b v) Hv)
    as (s & st' & Hc & Harr & _ & _ & _ & Hread & _ & Hframe).
  exists s, st'. destruct (Hframe _ Hv) as [_ Hsame].
  assert (byteview.array s ≠ byteview.array (byteview.b v)) as Hne.
  { destruct Hv as (a & Ha & _). apply lookup_lt_Some in Ha. lia. }
  split_and!; [done|done| |done|done|].
  - rewrite Harr. by apply lookup_ge_None_2.
  - intros ws st'' Hws.
    assert (byteview.read (byteview.b v) st'' = byteview.read (byteview.b v) st)
      as Hr by (by rewrite (writes_other _ _ _ _ _ Hne Hws)).
    split; [done|]. unfold byteview.String. by rewrite Hr.
Qed.

Lemma ByteSlice_is_a_copy_witness :
  ∃ s st',
    byteview.ByteSlice
      {| byteview.b := {| byteview.array := 0; byteview.off := 1; byteview.len := 3 |} |}
      [String.list_byte_of_string "x630y"] = (s, st') ∧
    byteview.read s st' = String.list_byte_of_string "630" ∧
    ∀ st'',
      byteview.writes s [(0%nat, x00); (2%nat, x00)] st' = Some st'' →
      byteview.String
        {| byteview.b := {| byteview.array := 0; byteview.off := 1; byteview.len := 3 |} |}
        st'' = "630".
Proof.
  destruct (ByteSlice_is_a_copy [String.list_byte_of_string "x630y"]
              {| byteview.b := {| byteview.array := 0; byteview.off := 1;
                                  byteview.len := 3 |} |})
    as (s & st' & Hs & Hread & _ & _ & _ & Hw).
  - eexists. split; [reflexivity|]. simpl. lia.
  - exists s, st'. split; [exact Hs|]. split; [exact Hread|].
    intros st'' Hws. destruct (Hw _ st'' Hws) as [_ Hstr]. exact Hstr.
Defined.

(** * The request coalescer *)

Section coalescer_facts.

Context {R Env : Type}.

Notation pc := (singleflight.pc R Env).
Notation state := (singleflight.state R Env).
Notation call := (singleflight.call R).

Implicit Types (p : pc) (σ : state) (cl : call) (t c : nat) (key : string).

Lemma step_trans t σ σ' : singleflight.step t σ = Some σ' → trans t σ σ'.
Proof.
  unfold singleflight.step.
  destruct (singleflight.threads σ !! t) as [p|] eqn:Ht; [|done].
  destruct p as [key fn|c|key fn c|key c|key c|c|c|c r].
  - destruct (default ∅ _ !! key) as [c|] eqn:Hm; intros [= <-].
    + by eapply trans_join.
    + by eapply trans_register.
  - destruct (singleflight.calls _ !! c) as [cl|] eqn:Hc; [|done].
    case_decide; [|done]. intros [= <-]. by eapply trans_wake.
  - destruct (fn (singleflight.env σ)) as [r e'] eqn:Hf. intros [= <-].
    by eapply trans_run.
  - intros [= <-]. by eapply trans_done.
  - intros [= <-]. by eapply trans_delete.
  - destruct (singleflight.calls _ !! c) as [cl|] eqn:Hc; [|done].
    intros [= <-]. by eapply trans_woken.
  - destruct (singleflight.calls _ !! c) as [cl|] eqn:Hc; [|done].
    intros [= <-]. by eapply trans_return.
  - done.
Qed.

Lemma threads_set t p g e x σ t0 p0 :
  singleflight.threads (singleflight.setThread t p g e x σ) !! t0 = Some p0 →
  (t0 = t ∧ p0 = p) ∨ (t0 ≠ t ∧ singleflight.threads σ !! t0 = Some p0).
Proof.
  simpl. intros [(-> & -> & _)|[? ?]]%list_lookup_insert_Some; [by left|by right].
Qed.

Lemma threads_set_eq t p g e x σ pold :
  singleflight.threads σ !! t = Some pold →
  singleflight.threads (singleflight.setThread t p g e x σ) !! t = Some p.
Proof. intros Ht. simpl. apply list_lookup_insert_eq. by eapply lookup_lt_Some. Qed.

Lemma threads_set_ne t p g e x σ t0 :
  t0 ≠ t →
  singleflight.threads (singleflight.setThread t p g e x σ) !! t0
  = singleflight.threads σ !! t0.
Proof. intros Hne. simpl. by apply list_lookup_insert_ne. Qed.

(** A step that changes the state of one goroutine only, from and to states
    that own nothing. *)
Lemma inv_move t σ p pold g :
  singleflight.threads σ !! t = Some pold →
  singleflight.calls g = singleflight.calls (singleflight.group σ) →
  default ∅ (singleflight.m g) = default ∅ (singleflight.m (singleflight.group σ)) →
  owns p = None → tabled p = None → tabled pold = None →
  (before p = true → before pold = true) →
  (∀ c, singleflight.attached p = Some c →
        ∃ cl, singleflight.calls (singleflight.group σ) !! c = Some cl ∧ pc_ok p cl) →
  inv σ →
  inv (singleflight.setThread t p g (singleflight.env σ) (singleflight.execs σ) σ).
Proof.
  intros Ht Hcalls Hm Howns Htab Htabold Hbefore Hatt Hinv.
  destruct Hinv as [IA IO I1 IK IR IT IB IN ID IE IX].
  constructor; cbn [singleflight.group singleflight.execs singleflight.setThread].
  - intros t0 p0 c [[-> ->]|[Hne Hp0]]%threads_set Hc; rewrite Hcalls; eauto.
  - intros t0 t1 p0 p1 c [[-> ->]|[Hne0 Hp0]]%threads_set
      [[-> ->]|[Hne1 Hp1]]%threads_set H0 H1; try congruence. eauto.
  - done.
  - intros c Hc. rewrite Hcalls. eauto.
  - intros t0 k f c [[-> Hp]|[Hne Hp0]]%threads_set; [by subst p|]. eauto.
  - intros k c. rewrite Hm. intros (t0 & p0 & Hp0 & Htb)%IT.
    exists t0, p0. split; [|done]. rewrite threads_set_ne; [done|].
    intros ->. congruence.
  - intros t0 p0 [[-> ->]|[Hne Hp0]]%threads_set Hb; eauto.
  - done.
  - intros c cl. rewrite Hcalls. eauto.
  - intros t0 Ht0. simpl. rewrite length_insert. eauto.
  - intros c cl. rewrite Hcalls. eauto.
Qed.

Lemma attached_known σ t p c :
  inv σ → singleflight.threads σ !! t = Some p → singleflight.attached p = Some c →
  (c < length (singleflight.calls (singleflight.group σ)))%nat.
Proof.
  intros Hinv Ht Hc. destruct (inv_attached σ Hinv t p c Ht Hc) as (cl & Hcl & _).
  by eapply lookup_lt_Some.
Qed.

Lemma owns_attached p c : owns p = Some c → singleflight.attached p = Some c.
Proof. by destruct p. Qed.

Lemma tabled_attached p k c : tabled p = Some (k, c) → singleflight.attached p = Some c.
Proof. destruct p; simpl; congruence. Qed.

Lemma inv_register t σ key fn :
  singleflight.threads σ !! t = Some (singleflight.Enter key fn) →
  default ∅ (singleflight.m (singleflight.group σ)) !! key = None →
  inv σ →
  inv (singleflight.setThread t
         (singleflight.Run key fn (length (singleflight.calls (singleflight.group σ))))
         {| singleflight.m :=
              Some (<[ key := length (singleflight.calls (singleflight.group σ)) ]>
                      (default ∅ (singleflight.m (singleflight.group σ))));
            singleflight.calls := singleflight.calls (singleflight.group σ)
              ++ [ {| singleflight.wg := 1; singleflight.res := None |} ] |}
         (singleflight.env σ) (singleflight.execs σ) σ).
Proof.
  intros Ht Hm Hinv. pose proof Hinv as [IA IO I1 IK IR IT IB IN ID IE IX].
  set (n := length (singleflight.calls (singleflight.group σ))).
  constructor;
    cbn [singleflight.group singleflight.execs singleflight.setThread
         singleflight.calls singleflight.m default].
  - intros t0 p0 c [[-> ->]|[Hne Hp0]]%threads_set Hc.
    + simpl in Hc. simplify_eq. eexists. split.
      * by rewrite lookup_app_r, Nat.sub_diag.
      * done.
    + destruct (IA t0 p0 c Hp0 Hc) as (cl & Hcl & Hok). exists cl. split; [|done].
      rewrite lookup_app_l; [done|]. by eapply lookup_lt_Some.
  - intros t0 t1 p0 p1 c [[-> ->]|[Hne0 Hp0]]%threads_set
      [[-> ->]|[Hne1 Hp1]]%threads_set H0 H1; [done| | |by eauto].
    + simpl in H0. simplify_eq.
      pose proof (attached_known σ t1 p1 _ Hinv Hp1 (owns_attached _ _ H1)). lia.
    + simpl in H1. simplify_eq.
      pose proof (attached_known σ t0 p0 _ Hinv Hp0 (owns_attached _ _ H0)). lia.
  - done.
  - intros c Hc%IK. rewrite length_app. simpl. lia.
  - intros t0 k f c [[-> Hp]|[Hne Hp0]]%threads_set; [|by eauto].
    simplify_eq. intros Hc%IK. lia.
  - intros k c. simpl. destruct (decide (key = k)) as [->|Hne].
    + rewrite lookup_insert_eq. intros [= <-]. exists t. eexists.
      split; [apply list_lookup_insert_eq; by eapply lookup_lt_Some|done].
    + rewrite lookup_insert_ne by done. intros (t0 & p0 & Hp0 & Htb)%IT.
      exists t0, p0. split; [|done]. rewrite list_lookup_insert_ne; [done|].
      intros ->. simplify_eq.
  - intros t0 p0 [[-> ->]|[Hne Hp0]]%threads_set Hb; [|by eauto].
    by eapply IB.
  - done.
  - intros c cl [[_ Hcl]|[_ Hcl]]%lookup_snoc_Some; [by eauto|].
    subst cl. simpl. lia.
  - intros t0 Ht0. simpl. rewrite length_insert. eauto.
  - intros c cl [[_ Hcl]|[_ Hcl]]%lookup_snoc_Some; [by eauto|].
    subst cl. simpl. by intros [? ?].
Qed.

Lemma inv_run t σ key fn c r e' :
  singleflight.threads σ !! t = Some (singleflight.Run key fn c) →
  inv σ →
  inv (singleflight.setThread t (singleflight.Done key c)
         {| singleflight.m := singleflight.m (singleflight.group σ);
            singleflight.calls :=
              alter (λ cl, {| singleflight.wg := singleflight.wg cl;
                              singleflight.res := Some r |}) c
                    (singleflight.calls (singleflight.group σ)) |}
         e' (singleflight.execs σ ++ [ (t, key, c) ]) σ).
Proof.
  intros Ht Hinv. pose proof Hinv as [IA IO I1 IK IR IT IB IN ID IE IX].
  destruct (IA t _ c Ht eq_refl) as (cl & Hcl & Hwg & Hres).
  constructor;
    cbn [singleflight.group singleflight.execs singleflight.setThread
         singleflight.calls singleflight.m].
  - intros t0 p0 c0 [[-> ->]|[Hne Hp0]]%threads_set Hc.
    + simpl in Hc. simplify_eq. eexists. split.
      * rewrite list_lookup_alter_eq, Hcl. done.
      * simpl. eauto.
    + destruct (IA t0 p0 c0 Hp0 Hc) as (cl0 & Hcl0 & Hok).
      destruct (decide (c0 = c)) as [->|Hc0].
      * simplify_eq. eexists. split; [by rewrite list_lookup_alter_eq, Hcl|].
        destruct p0; simpl in *; try done; try lia; simplify_eq.
        all: exfalso; apply Hne; by eapply (IO t0 t _ _ c Hp0 Ht).
      * exists cl0. split; [|done]. by rewrite list_lookup_alter_ne.
  - intros t0 t1 p0 p1 c0 [[-> ->]|[Hne0 Hp0]]%threads_set
      [[-> ->]|[Hne1 Hp1]]%threads_set H0 H1; [done| | |by eauto].
    + simpl in H0. simplify_eq. by eapply (IO t t1 _ _ c0 Ht Hp1).
    + simpl in H1. simplify_eq. by eapply (IO t0 t _ _ c0 Hp0 Ht).
  - rewrite fmap_app. simpl. apply NoDup_app. split_and!; [done| |apply NoDup_singleton].
    intros x Hx Hy%list_elem_of_singleton. subst x. by eapply IR.
  - rewrite length_alter, fmap_app. simpl.
    intros c0 [Hc0|Hc0%list_elem_of_singleton]%elem_of_app; [by eauto|].
    subst c0. by eapply lookup_lt_Some.
  - intros t0 k f c0 [[-> Hp]|[Hne Hp0]]%threads_set; [done|].
    rewrite fmap_app. simpl.
    intros [Hc0|Hc0%list_elem_of_singleton]%elem_of_app; [by eapply IR|].
    subst c0. apply Hne. by eapply (IO t0 t _ _ c Hp0 Ht).
  - intros k c0 (t0 & p0 & Hp0 & Htb)%IT.
    destruct (decide (t0 = t)) as [->|Hne].
    + simplify_eq. simpl in Htb. simplify_eq. exists t. eexists.
      split; [by eapply threads_set_eq|done].
    + exists t0, p0. split; [|done]. by rewrite threads_set_ne.
  - intros t0 p0 [[-> ->]|[Hne Hp0]]%threads_set Hb; [done|].
    rewrite !fmap_app. simpl.
    intros [Hin|Hin%list_elem_of_singleton]%elem_of_app; [by eapply IB|done].
  - rewrite !fmap_app. simpl. apply NoDup_app. split_and!; [done| |apply NoDup_singleton].
    intros x Hx Hy%list_elem_of_singleton. subst x. by eapply (IB t _ Ht).
  - intros c0 cl0. destruct (decide (c0 = c)) as [->|Hc0].
    + rewrite list_lookup_alter_eq, Hcl. simpl. intros [= <-]. simpl. eauto.
    + rewrite list_lookup_alter_ne by done. eauto.
  - intros t0. simpl. rewrite length_insert, !fmap_app. simpl.
    intros [Hin|Hin%list_elem_of_singleton]%elem_of_app; [by eauto|].
    subst t0. by eapply lookup_lt_Some.
  - intros c0 cl0. rewrite fmap_app. simpl. destruct (decide (c0 = c)) as [->|Hc0].
    + intros _ _. set_solver.
    + rewrite list_lookup_alter_ne by done. intros Hc0' Hr.
      apply elem_of_app. left. eauto.
Qed.

Lemma inv_signal t σ key c :
  singleflight.threads σ !! t = Some (singleflight.Done key c) →
  inv σ →
  inv (singleflight.setThread t (singleflight.Delete key c)
         {| singleflight.m := singleflight.m (singleflight.group σ);
            singleflight.calls :=
              alter (λ cl, {| singleflight.wg := singleflight.wg cl - 1;
                              singleflight.res := singleflight.res cl |}) c
                    (singleflight.calls (singleflight.group σ)) |}
         (singleflight.env σ) (singleflight.execs σ) σ).
Proof.
  intros Ht Hinv. pose proof Hinv as [IA IO I1 IK IR IT IB IN ID IE IX].
  destruct (IA t _ c Ht eq_refl) as (cl & Hcl & Hwg & Hres).
  constructor;
    cbn [singleflight.group singleflight.execs singleflight.setThread
         singleflight.calls singleflight.m].
  - intros t0 p0 c0 [[-> ->]|[Hne Hp0]]%threads_set Hc.
    + simpl in Hc. simplify_eq. eexists. split.
      * rewrite list_lookup_alter_eq, Hcl. done.
      * simpl. split; [lia|done].
    + destruct (IA t0 p0 c0 Hp0 Hc) as (cl0 & Hcl0 & Hok).
      destruct (decide (c0 = c)) as [->|Hc0].
      * simplify_eq. eexists. split; [by rewrite list_lookup_alter_eq, Hcl|].
        destruct p0; simpl in *; try done; try lia; simplify_eq.
        all: try (destruct Hok as [_ Hn]; rewrite Hn in Hres; by destruct Hres).
        all: exfalso; apply Hne; by eapply (IO t0 t _ _ c Hp0 Ht).
      * exists cl0. split; [|done]. by rewrite list_lookup_alter_ne.
  - intros t0 t1 p0 p1 c0 [[-> ->]|[Hne0 Hp0]]%threads_set
      [[-> ->]|[Hne1 Hp1]]%threads_set H0 H1; try done. eauto.
  - done.
  - rewrite length_alter. eauto.
  - intros t0 k f c0 [[-> Hp]|[Hne Hp0]]%threads_set; [done|]. eauto.
  - intros k c0 (t0 & p0 & Hp0 & Htb)%IT.
    destruct (decide (t0 = t)) as [->|Hne].
    + simplify_eq. simpl in Htb. simplify_eq. exists t. eexists.
      split; [by eapply threads_set_eq|done].
    + exists t0, p0. split; [|done]. by rewrite threads_set_ne.
  - intros t0 p0 [[-> ->]|[Hne Hp0]]%threads_set Hb; [done|]. eauto.
  - done.
  - intros c0 cl0. destruct (decide (c0 = c)) as [->|Hc0].
    + rewrite list_lookup_alter_eq, Hcl. simpl. by intros [= <-].
    + rewrite list_lookup_alter_ne by done. eauto.
  - intros t0 Ht0. simpl. rewrite length_insert. eauto.
  - intros c0 cl0. destruct (decide (c0 = c)) as [->|Hc0].
    + rewrite list_lookup_alter_eq, Hcl. simpl. intros [= <-]. simpl. eauto.
    + rewrite list_lookup_alter_ne by done. eauto.
Qed.

Lemma inv_delete t σ key c :
  singleflight.threads σ !! t = Some (singleflight.Delete key c) →
  inv σ →
  inv (singleflight.setThread t (singleflight.Return c)
         {| singleflight.m := delete key <$> singleflight.m (singleflight.group σ);
            singleflight.calls := singleflight.calls (singleflight.group σ) |}
         (singleflight.env σ) (singleflight.execs σ) σ).
Proof.
  intros Ht Hinv. pose proof Hinv as [IA IO I1 IK IR IT IB IN ID IE IX].
  destruct (IA t _ c Ht eq_refl) as (cl & Hcl & Hwg & Hres).
  constructor;
    cbn [singleflight.group singleflight.execs singleflight.setThread
         singleflight.calls singleflight.m].
  - intros t0 p0 c0 [[-> ->]|[Hne Hp0]]%threads_set Hc; [|by eauto].
    simpl in Hc. simplify_eq. by exists cl.
  - intros t0 t1 p0 p1 c0 [[-> ->]|[Hne0 Hp0]]%threads_set
      [[-> ->]|[Hne1 Hp1]]%threads_set H0 H1; try done. eauto.
  - done.
  - done.
  - intros t0 k f c0 [[-> Hp]|[Hne Hp0]]%threads_set; [done|]. eauto.
  - intros k c0 Hk.
    assert (k ≠ key ∧ default ∅ (singleflight.m (singleflight.group σ)) !! k = Some c0)
      as [Hne Hold].
    { destruct (singleflight.m (singleflight.group σ)) as [m0|]; simpl in *.
      - by apply lookup_delete_Some in Hk as [? ?].
      - by rewrite lookup_empty in Hk. }
    destruct (IT k c0 Hold) as (t0 & p0 & Hp0 & Htb).
    exists t0, p0. split; [|done]. rewrite threads_set_ne; [done|].
    intros ->. simplify_eq. simpl in Htb. congruence.
  - intros t0 p0 [[-> ->]|[Hne Hp0]]%threads_set Hb; [done|]. eauto.
  - done.
  - done.
  - intros t0 Ht0. simpl. rewrite length_insert. eauto.
  - done.
Qed.

Lemma trans_inv t σ σ' : inv σ → trans t σ σ' → inv σ'.
Proof.
  intros Hinv Htr. destruct Htr as [key fn c Ht Hm|key fn Ht Hm|c cl Ht Hc Hwg
    |c cl Ht Hc|key fn c r e' Ht Hf|key c Ht|key c Ht|c cl Ht Hc].
  - eapply inv_move; [done..| |done]. intros c0 [= <-].
    destruct (inv_table σ Hinv key c Hm) as (t0 & p0 & Hp0 & Htb).
    destruct (inv_attached σ Hinv t0 p0 c Hp0 (tabled_attached _ _ _ Htb))
      as (cl & Hcl & _). by exists cl.
  - by apply inv_register.
  - eapply inv_move; [done..| |done]. intros c0 [= <-]. exists cl.
    split; [done|]. split; [done|]. by eapply inv_done.
  - eapply inv_move; [done..| |done]. intros c0 [= <-].
    destruct (inv_attached σ Hinv t _ c Ht eq_refl) as (cl' & Hcl' & Hwg & Hres).
    simplify_eq. by exists cl.
  - by eapply inv_run.
  - by apply inv_signal.
  - by apply inv_delete.
  - eapply inv_move; [done..| |done]. intros c0 [= <-].
    destruct (inv_attached σ Hinv t _ c Ht eq_refl) as (cl' & Hcl' & Hwg & Hres).
    simplify_eq. by exists cl.
Qed.

Lemma inv_init (e : Env) : inv (singleflight.init (R:=R) e).
Proof.
  constructor; simpl; try done; try apply NoDup_nil_2.
  all: try (intros; by rewrite ?lookup_empty in * ).
  all: try (intros ? []%elem_of_nil).
Qed.

Lemma inv_call σ key (fn : Env → R * Env) :
  inv σ →
  inv {| singleflight.group := singleflight.group σ;
         singleflight.threads := singleflight.threads σ ++ [ singleflight.Enter key fn ];
         singleflight.env := singleflight.env σ;
         singleflight.execs := singleflight.execs σ |}.
Proof.
  intros [IA IO I1 IK IR IT IB IN ID IE IX]. constructor; simpl; try done.
  - intros t p c [[_ Hp]|[_ <-]]%lookup_snoc_Some Hc; [by eauto|done].
  - intros t t' p p' c [[_ Hp]|[_ <-]]%lookup_snoc_Some
      [[_ Hp']|[_ <-]]%lookup_snoc_Some H0 H1; try done. eauto.
  - intros t k f c [[_ Hp]|[_ ?]]%lookup_snoc_Some; [by eauto|done].
  - intros k c (t & p & Hp & Htb)%IT. exists t, p. split; [|done].
    rewrite lookup_app_l; [done|]. by eapply lookup_lt_Some.
  - intros t p [[_ Hp]|[-> <-]]%lookup_snoc_Some Hb; [by eauto|].
    intros Hin%IE. lia.
  - intros t Hin%IE. rewrite length_app. simpl. lia.
Qed.

Lemma act_inv (a : singleflight.action R Env) σ σ' :
  inv σ → singleflight.act a σ = Some σ' → inv σ'.
Proof.
  intros Hinv. destruct a as [key fn|t]; simpl.
  - intros [= <-]. by apply inv_call.
  - intros Hs%step_trans. by eapply trans_inv.
Qed.

(** Every state a schedule reaches satisfies the invariant. *)
Lemma schedule_inv (l : list (singleflight.action R Env)) σ σ' :
  inv σ → singleflight.schedule l σ = Some σ' → inv σ'.
Proof.
  revert σ. induction l as [|a l IH]; intros σ Hinv; simpl.
  - by intros [= <-].
  - destruct (singleflight.act a σ) as [σ1|] eqn:Ha; [|done].
    apply IH. by eapply act_inv.
Qed.

End coalescer_facts.

Section coalescer_alone.

Context {R Env : Type}.
Implicit Types (σ : singleflight.state R Env) (key : string).

(** With no goroutine inside [Do] the table is empty. *)
Lemma quiet_table σ key :
  inv σ → (∀ p, p ∈ singleflight.threads σ → singleflight.inside p = false) →
  default ∅ (singleflight.m (singleflight.group σ)) !! key = None.
Proof.
  intros Hinv Hq.
  destruct (default ∅ _ !! key) as [c|] eqn:Hm; [|done].
  destruct (inv_table σ Hinv key c Hm) as (t & p & Hp & Htb).
  apply list_elem_of_lookup_2 in Hp. specialize (Hq p Hp). by destruct p.
Qed.

(** A goroutine that calls [Do] while the table has no call for its key,
    and runs to its return: it runs its function itself, and leaves the
    group as [Do] for one caller does. *)
Lemma alone_runs σ key (fn : Env → R * Env) :
  default ∅ (singleflight.m (singleflight.group σ)) !! key = None →
  ∃ σ',
    singleflight.schedule
      [singleflight.Call key fn;
       singleflight.Step (length (singleflight.threads σ));
       singleflight.Step (length (singleflight.threads σ));
       singleflight.Step (length (singleflight.threads σ));
       singleflight.Step (length (singleflight.threads σ));
       singleflight.Step (length (singleflight.threads σ))] σ = Some σ' ∧
    singleflight.threads σ' !! length (singleflight.threads σ)
    = Some (singleflight.Returned
              (length (singleflight.calls (singleflight.group σ)))
              (Some (fn (singleflight.env σ)).1)) ∧
    singleflight.env σ' = (fn (singleflight.env σ)).2 ∧
    singleflight.execs σ'
    = singleflight.execs σ
      ++ [(length (singleflight.threads σ), key,
           length (singleflight.calls (singleflight.group σ)))] ∧
    singleflight.Do key (λ e, Ret (fn e)) (singleflight.group σ) (singleflight.env σ)
    = Ret (Some (fn (singleflight.env σ)).1, singleflight.group σ',
           singleflight.env σ').
Proof.
  intros Hm. destruct σ as [[m0 calls] threads e x]. simpl in *.
  set (t := length threads). set (c := length calls).
  destruct (fn e) as [r e'] eqn:Hfn.
  eexists. split_and!.
  - cbn [singleflight.schedule singleflight.act].
    unfold singleflight.step at 1. cbn [singleflight.threads singleflight.group].
    rewrite lookup_app_r, Nat.sub_diag by (subst t; lia). cbn [lookup list_lookup].
    cbn [singleflight.m singleflight.calls]. rewrite Hm.
    unfold singleflight.setThread at 1.
    cbn [singleflight.threads singleflight.group singleflight.env singleflight.execs].
    rewrite insert_app_r_alt, Nat.sub_diag by (subst t; lia). cbn [insert list_insert].
    unfold singleflight.step at 1. cbn [singleflight.threads singleflight.group].
    rewrite lookup_app_r, Nat.sub_diag by (subst t; lia). cbn [lookup list_lookup].
    cbn [singleflight.env]. rewrite Hfn.
    unfold singleflight.setThread at 1.
    cbn [singleflight.threads singleflight.group singleflight.env singleflight.execs
         singleflight.m singleflight.calls].
    rewrite insert_app_r_alt, Nat.sub_diag by (subst t; lia). cbn [insert list_insert].
    rewrite (alter_app_r_alt _ calls _ c), Nat.sub_diag by (subst c; lia).
    cbn [alter list_alter singleflight.wg singleflight.res].
    unfold singleflight.step at 1. cbn [singleflight.threads singleflight.group].
    rewrite lookup_app_r, Nat.sub_diag by (subst t; lia). cbn [lookup list_lookup].
    unfold singleflight.setThread at 1.
    cbn [singleflight.threads singleflight.group singleflight.env singleflight.execs
         singleflight.m singleflight.calls].
    rewrite insert_app_r_alt, Nat.sub_diag by (subst t; lia). cbn [insert list_insert].
    rewrite (alter_app_r_alt _ calls _ c), Nat.sub_diag by (subst c; lia).
    cbn [alter list_alter singleflight.wg singleflight.res].
    unfold singleflight.step at 1. cbn [singleflight.threads singleflight.group].
    rewrite lookup_app_r, Nat.sub_diag by (subst t; lia). cbn [lookup list_lookup].
    unfold singleflight.setThread at 1.
    cbn [singleflight.threads singleflight.group singleflight.env singleflight.execs
         singleflight.m singleflight.calls].
    rewrite insert_app_r_alt, Nat.sub_diag by (subst t; lia). cbn [insert list_insert].
    unfold singleflight.step at 1. cbn [singleflight.threads singleflight.group].
    rewrite lookup_app_r, Nat.sub_diag by (subst t; lia). cbn [lookup list_lookup].
    cbn [singleflight.calls].
    rewrite lookup_app_r, Nat.sub_diag by (subst c; lia). cbn [lookup list_lookup].
    unfold singleflight.setThread at 1.
    cbn [singleflight.threads singleflight.group singleflight.env singleflight.execs
         singleflight.m singleflight.calls singleflight.res].
    rewrite insert_app_r_alt, Nat.sub_diag by (subst t; lia). cbn [insert list_insert].
    reflexivity.
  - cbn [singleflight.threads]. by rewrite lookup_app_r, Nat.sub_diag by (subst t; lia).
  - done.
  - done.
  - unfold singleflight.Do. cbn [singleflight.m singleflight.calls singleflight.group].
    rewrite Hm, Hfn. simpl. done.
Qed.

End coalescer_alone.




(** The same schedule run to the end: the two overlapping callers return
    different results. *)
Example coalescer_overlap_results :
  ∃ σ,
    singleflight.schedule
      [singleflight.Call "k" tick; singleflight.Step 0; singleflight.Step 0;
       singleflight.Step 0; singleflight.Step 0; singleflight.Call "k" tick;
       singleflight.Step 1; singleflight.Step 1; singleflight.Step 0;
       singleflight.Step 1; singleflight.Step 1; singleflight.Step 1]
      (singleflight.init 0%nat) = Some σ ∧
    singleflight.threads σ
    = [singleflight.Returned 0 (Some 0%nat); singleflight.Returned 1 (Some 1%nat)] ∧
    singleflight.execs σ = [(0%nat, "k", 0%nat); (1%nat, "k", 1%nat)].
Proof. eexists. split; [vm_compute; reflexivity|]. split; reflexivity. Qed.

(** * More on the bounded store *)

Section lru_more.

Context {V : Type} `{!lru.Value V} {Env : Type}.
Implicit Types (c : lru.Cache V Env) (l : list (lru.entry V)) (e : lru.entry V).
Implicit Types (k : string) (v : V).

Lemma Remove_absent k l : k ∉ (lru.key <$> l) → lru.Remove k l = l.
Proof.
  induction l as [|x l IH]; simpl; [done|]. rewrite not_elem_of_cons.
  intros [Hx Hl]. rewrite decide_False by done. by rewrite IH.
Qed.

Lemma store_ll k v c :
  lru.wf c → lru.ll (lru.store k v c) = lru.mkEntry k v :: lru.Remove k (lru.ll c).
Proof.
  intros Hwf. unfold lru.store. case_decide as Hin.
  - destruct (lru.element k (lru.ll c)) as [e|] eqn:He; [done|].
    apply (wf_lookup c k Hwf) in Hin as [? Hin]. congruence.
  - simpl. rewrite Remove_absent; [done|].
    destruct Hwf as (_ & Hset & _). rewrite Hset in Hin.
    by rewrite elem_of_list_to_set in Hin.
Qed.

Lemma store_fields k v c :
  lru.maxBytes (lru.store k v c) = lru.maxBytes c ∧
  lru.OnEvicted (lru.store k v c) = lru.OnEvicted c ∧
  lru.env (lru.store k v c) = lru.env c.
Proof.
  unfold lru.store. case_decide; [|done].
  by destruct (lru.element k (lru.ll c)).
Qed.

(** [n] calls of [RemoveOldest] unlink the last [n] elements. *)
Lemma iter_ll n c :
  lru.ll (Nat.iter n lru.RemoveOldest c)
  = take (length (lru.ll c) - n) (lru.ll c).
Proof.
  induction n as [|n IH]; simpl.
  - rewrite Nat.sub_0_r. by rewrite firstn_all.
  - set (c1 := Nat.iter n lru.RemoveOldest c) in *.
    unfold lru.RemoveOldest, lru.Back.
    destruct (last (lru.ll c1)) as [e|] eqn:He.
    + simpl. apply last_Some in He as [l' Hl]. rewrite Hl, removelast_last.
      rewrite IH in Hl.
      assert (length (take (length (lru.ll c) - n) (lru.ll c)) = S (length l'))
        as Hlen by (rewrite Hl, length_app; simpl; lia).
      rewrite length_take in Hlen.
      replace (length (lru.ll c) - S n)%nat with (length l') by lia.
      transitivity (take (length l') (take (length (lru.ll c) - n) (lru.ll c))).
      * rewrite Hl. by rewrite take_app_length.
      * rewrite take_take. f_equal. lia.
    + apply last_None in He. rewrite He. rewrite IH in He.
      assert (length (take (length (lru.ll c) - n) (lru.ll c)) = 0%nat) as Hlen
        by (by rewrite He).
      rewrite length_take in Hlen.
      replace (length (lru.ll c) - S n)%nat with 0%nat by lia. done.
Qed.

Lemma iter_fields n c :
  lru.maxBytes (Nat.iter n lru.RemoveOldest c) = lru.maxBytes c ∧
  lru.OnEvicted (Nat.iter n lru.RemoveOldest c) = lru.OnEvicted c.
Proof.
  induction n as [|n [IH1 IH2]]; simpl; [done|].
  rewrite RemoveOldest_maxBytes. split; [done|].
  unfold lru.RemoveOldest. by destruct (lru.Back _).
Qed.

(** The callback is called on each element unlinked, the last one of the
    list first. *)
Lemma iter_env n c :
  (n ≤ length (lru.ll c))%nat →
  lru.env (Nat.iter n lru.RemoveOldest c)
  = match lru.OnEvicted c with
    | Some f => foldr (λ e s, f (lru.key e) (lru.value e) s) (lru.env c)
                  (drop (length (lru.ll c) - n) (lru.ll c))
    | None => lru.env c
    end.
Proof.
  induction n as [|n IH]; intros Hn.
  - simpl. rewrite Nat.sub_0_r, drop_all. by destruct (lru.OnEvicted c).
  - simpl. set (c1 := Nat.iter n lru.RemoveOldest c) in *.
    pose proof (iter_ll n c) as Hl. fold c1 in Hl.
    destruct (iter_fields n c) as [_ Hf]. fold c1 in Hf.
    specialize (IH ltac:(lia)).
    destruct (lookup_lt_is_Some_2 (lru.ll c) (length (lru.ll c) - S n)) as [e He];
      [lia|].
    assert (lru.ll c1 = take (length (lru.ll c) - S n) (lru.ll c) ++ [e]) as Hc1.
    { rewrite Hl. replace (length (lru.ll c) - n)%nat
        with (S (length (lru.ll c) - S n)) by lia.
      by erewrite take_S_r. }
    unfold lru.RemoveOldest, lru.Back. rewrite Hc1, last_snoc. simpl.
    rewrite Hf, IH.
    rewrite (drop_S _ e (length (lru.ll c) - S n)) by done.
    replace (S (length (lru.ll c) - S n)) with (length (lru.ll c) - n)%nat by lia.
    by destruct (lru.OnEvicted c).
Qed.

Lemma total_take_le l n : lru.total (take n l) ≤ lru.total l.
Proof.
  rewrite <- (take_drop n l) at 2. rewrite total_app.
  pose proof (total_nonneg (drop n l)). lia.
Qed.

Lemma store_head k v c :
  lru.wf c → head (lru.ll (lru.store k v c)) = Some (lru.mkEntry k v).
Proof. intros Hwf. by rewrite store_ll. Qed.

(** A [Get] of a key with an element: the value of the element, and the
    element at the front. *)
Lemma Get_resident k v c :
  lru.wf c → lru.mkEntry k v ∈ lru.ll c →
  ∃ c', lru.Get k c = (Some v, c') ∧
        lru.ll c' = lru.mkEntry k v :: lru.Remove k (lru.ll c) ∧
        lru.ll c' ≡ₚ lru.ll c ∧
        lru.nbytes c' = lru.nbytes c ∧ lru.maxBytes c' = lru.maxBytes c ∧
        lru.cache c' = lru.cache c.
Proof.
  intros Hwf Hin. pose proof Hwf as (Hnd & Hset & _).
  assert (k ∈ lru.cache c) as Hk.
  { rewrite Hset, elem_of_list_to_set.
    by apply (list_elem_of_fmap_2 lru.key) in Hin. }
  unfold lru.Get. rewrite decide_True by done.
  destruct (lru.element k (lru.ll c)) as [e|] eqn:He.
  - pose proof He as (l1 & l2 & Hl & Hke & Hnot & Hrm)%element_split.
    assert (e = lru.mkEntry k v) as ->.
    { rewrite Hl in Hnd, Hin. rewrite fmap_app, fmap_cons in Hnd.
      apply NoDup_app in Hnd as (_ & Hd & Hnd2).
      apply NoDup_cons in Hnd2 as [Hn2 _].
      apply elem_of_app in Hin as [Hv|Hv].
      { exfalso. apply Hnot. by apply (list_elem_of_fmap_2 lru.key) in Hv. }
      apply elem_of_cons in Hv as [Hv|Hv]; [done|].
      exfalso. apply Hn2. rewrite Hke.
      by apply (list_elem_of_fmap_2 lru.key) in Hv. }
    eexists. split; [done|]. simpl. unfold lru.MoveToFront. rewrite He.
    split_and!; try done. rewrite Hrm, Hl. by rewrite Permutation_middle.
  - apply (wf_lookup c k Hwf) in Hk as [? Hk]. congruence.
Qed.

(** An [Add] with room for the entry returns, and the entry is at the
    front and found by [Get]. *)
Lemma Add_room k v c :
  lru.wf c →
  lru.maxBytes c = 0 ∨ Z.of_nat (String.length k) + lru.Len v ≤ lru.maxBytes c →
  ∃ c', lru.Add k v c = Some c' ∧ lru.wf c' ∧
        lru.maxBytes c' = lru.maxBytes c ∧
        head (lru.ll c') = Some (lru.mkEntry k v) ∧
        (lru.Get k c').1 = Some v.
Proof.
  intros Hwf Hcap.
  destruct (store_fields k v c) as (Hm & _ & _).
  destruct (evict_keeps_front (S (length (lru.ll (lru.store k v c))))
              (lru.store k v c) (lru.mkEntry k v)) as (c' & He & Hh).
  - by apply wf_store.
  - by apply store_head.
  - by rewrite Hm.
  - lia.
  - assert (lru.wf c') as Hwf' by (eapply wf_evict; [|done]; by apply wf_store).
    exists c'. split_and!; [done|done| |done|].
    + by rewrite (evict_maxBytes _ _ _ He).
    + by apply Get_front.
Qed.

End lru_more.

(** X1.  In a store made by [New] and used through [Add], [Get] and
    [RemoveOldest], no key has two elements in the list, the index finds a
    key exactly when the list has an element for it, and [Len] is the
    number of keys of the index. *)
Theorem lru_index_agrees :
  ∀ (V Env : Type) `(!lru.Value V) maxBytes onEvicted (e0 : Env)
    (ops : list (lru.op V)) c,
    lru.run ops (lru.New maxBytes onEvicted e0) = Some c →
    NoDup (lru.key <$> lru.ll c) ∧
    (∀ k, k ∈ lru.cache c ↔ ∃ v, lru.mkEntry k v ∈ lru.ll c) ∧
    lru.Len_ c = Z.of_nat (size (lru.cache c)).
Proof.
  intros V Env HV maxBytes onEvicted e0 ops c Hrun.
  pose proof (wf_run _ _ _ (wf_New maxBytes onEvicted e0) Hrun) as Hwf.
  pose proof Hwf as (Hnd & Hset & _). split_and!.
  - done.
  - intros k. rewrite Hset, elem_of_list_to_set, list_elem_of_fmap. split.
    + intros ([k' v] & -> & Hin). by exists v.
    + intros [v Hin]. by exists (lru.mkEntry k v).
  - unfold lru.Len_. rewrite Hset, size_list_to_set by done.
    by rewrite length_fmap.
Qed.

Lemma lru_index_agrees_witness :
  ∃ c, lru.run [lru.OpAdd "k1" (view "v1"); lru.OpAdd "k2" (view "v2");
                lru.OpAdd "k1" (view "v3")] (lru.New 0 None tt) = Some c ∧
       NoDup (lru.key <$> lru.ll c) ∧
       lru.Len_ c = Z.of_nat (size (lru.cache c)).
Proof.
  assert (lru.run [lru.OpAdd "k1" (view "v1"); lru.OpAdd "k2" (view "v2");
                   lru.OpAdd "k1" (view "v3")] (lru.New 0 None tt)
          = Some (lru.store "k1" (view "v3")
                    (lru.store "k2" (view "v2")
                       (lru.store "k1" (view "v1") (lru.New 0 None tt))))) as Hrun.
  { vm_compute. reflexivity. }
  destruct (lru_index_agrees geecache.ByteView unit _ 0 None tt _ _ Hrun)
    as (Hnd & _ & Hlen).
  eexists. split; [exact Hrun|]. split; [exact Hnd|exact Hlen].
Defined.

(** X2.  [Get] changes the order of the list and nothing else: the
    entries, the counter, the capacity, the index and the state of the
    callback are as before.  It returns the value of the element of the
    key, and when there is none the store is as before. *)
Theorem lru_Get_reorders_only :
  ∀ (V Env : Type) `(!lru.Value V) maxBytes onEvicted (e0 : Env)
    (ops : list (lru.op V)) c k,
    lru.run ops (lru.New maxBytes onEvicted e0) = Some c →
    lru.ll (lru.Get k c).2 ≡ₚ lru.ll c ∧
    lru.nbytes (lru.Get k c).2 = lru.nbytes c ∧
    lru.maxBytes (lru.Get k c).2 = lru.maxBytes c ∧
    lru.cache (lru.Get k c).2 = lru.cache c ∧
    lru.env (lru.Get k c).2 = lru.env c ∧
    (∀ v, (lru.Get k c).1 = Some v ↔ lru.mkEntry k v ∈ lru.ll c) ∧
    ((lru.Get k c).1 = None → (lru.Get k c).2 = c).
Proof.
  intros V Env HV maxBytes onEvicted e0 ops c k Hrun.
  pose proof (wf_run _ _ _ (wf_New maxBytes onEvicted e0) Hrun) as Hwf.
  pose proof Hwf as (Hnd & Hset & _).
  unfold lru.Get. case_decide as Hin.
  - destruct (lru.element k (lru.ll c)) as [e|] eqn:He.
    + simpl. unfold lru.MoveToFront. rewrite He.
      apply element_split in He as (l1 & l2 & Hl & Hk & Hnot & Hrm).
      rewrite Hrm, Hl. split_and!; try done.
      * by rewrite Permutation_middle.
      * intros v. split.
        -- intros [= <-]. destruct e as [k' v']. simpl in *. subst k'. set_solver.
        -- intros Hv. f_equal. rewrite Hl in Hnd.
           rewrite fmap_app, fmap_cons in Hnd.
           apply NoDup_app in Hnd as (_ & Hd & Hnd2).
           apply NoDup_cons in Hnd2 as [Hn2 _].
           apply elem_of_app in Hv as [Hv|Hv].
           { exfalso. apply Hnot. by apply (list_elem_of_fmap_2 lru.key) in Hv. }
           apply elem_of_cons in Hv as [Hv|Hv]; [by subst e|].
           exfalso. apply Hn2. rewrite Hk.
           by apply (list_elem_of_fmap_2 lru.key) in Hv.
    + apply (wf_lookup c k Hwf) in Hin as [? Hin]. congruence.
  - simpl. split_and!; try done. intros v. split; [done|].
    intros Hv. exfalso. apply Hin. rewrite Hset, elem_of_list_to_set.
    by apply (list_elem_of_fmap_2 lru.key) in Hv.
Qed.

Lemma lru_Get_reorders_only_witness :
  (lru.Get "k1"
     (lru.store "k2" (view "v2") (lru.store "k1" (view "v1") (lru.New 8 None tt)))).1
  = Some (view "v1").
Proof.
  assert (lru.run [lru.OpAdd "k1" (view "v1"); lru.OpAdd "k2" (view "v2")]
            (lru.New 8 None tt)
          = Some (lru.store "k2" (view "v2")
                    (lru.store "k1" (view "v1") (lru.New 8 None tt)))) as Hrun.
  { vm_compute. reflexivity. }
  destruct (lru_Get_reorders_only geecache.ByteView unit _ 8 None tt _ _ "k1" Hrun)
    as (_ & _ & _ & _ & _ & Hv & _).
  apply (proj2 (Hv (view "v1"))).
  vm_compute. apply list_elem_of_In. simpl. tauto.
Defined.

(** X3.  After [Add(k, v)] with room for the entry (unlimited capacity, or
    a capacity of at least [len(k) + v.Len()]), whether the key was resident
    or not, the call returns and [Get(k)] returns [v]. *)
Theorem lru_Add_then_Get :
  ∀ (V Env : Type) `(!lru.Value V) maxBytes onEvicted (e0 : Env)
    (ops : list (lru.op V)) c k v,
    lru.run ops (lru.New maxBytes onEvicted e0) = Some c →
    maxBytes = 0 ∨ Z.of_nat (String.length k) + lru.Len v ≤ maxBytes →
    ∃ c', lru.Add k v c = Some c' ∧ (lru.Get k c').1 = Some v ∧
          head (lru.ll c') = Some (lru.mkEntry k v).
Proof.
  intros V Env HV maxBytes onEvicted e0 ops c k v Hrun Hcap.
  pose proof (wf_run _ _ _ (wf_New maxBytes onEvicted e0) Hrun) as Hwf.
  pose proof (run_maxBytes _ _ _ Hrun) as Hmax. simpl in Hmax.
  destruct (store_fields k v c) as (Hm & _ & _).
  destruct (evict_keeps_front (S (length (lru.ll (lru.store k v c))))
              (lru.store k v c) (lru.mkEntry k v)) as (c' & He & Hh).
  - by apply wf_store.
  - by apply store_head.
  - rewrite Hm, Hmax. done.
  - lia.
  - exists c'. split_and!; [done| |done].
    apply Get_front; [|done]. eapply wf_evict; [|done]. by apply wf_store.
Qed.

Lemma lru_Add_then_Get_witness :
  ∃ c', lru.Add "k1" (view "v3")
          (lru.store "k2" (view "v2") (lru.store "k1" (view "v1") (lru.New 8 None tt)))
        = Some c' ∧
        (lru.Get "k1" c').1 = Some (view "v3") ∧
        head (lru.ll c') = Some (lru.mkEntry "k1" (view "v3")).
Proof.
  assert (lru.run [lru.OpAdd "k1" (view "v1"); lru.OpAdd "k2" (view "v2")]
            (lru.New 8 None tt)
          = Some (lru.store "k2" (view "v2")
                    (lru.store "k1" (view "v1") (lru.New 8 None tt)))) as Hrun.
  { vm_compute. reflexivity. }
  apply (lru_Add_then_Get geecache.ByteView unit _ 8 None tt _ _ "k1" (view "v3") Hrun).
  right. vm_compute. discriminate.
Defined.



Section lru_callback.

Context {V : Type} `{!lru.Value V} {Env : Type}.
Implicit Types (c : lru.Cache V Env).

Lemma evict_OnEvicted n c c' :
  lru.evict n c = Some c' → lru.OnEvicted c' = lru.OnEvicted c.
Proof.
  intros (i & -> & _)%evict_iter. by destruct (iter_fields i c).
Qed.

Lemma step_OnEvicted o c c' :
  lru.step o c = Some c' → lru.OnEvicted c' = lru.OnEvicted c.
Proof.
  destruct o as [k v|k|]; simpl.
  - unfold lru.Add. intros ->%evict_OnEvicted.
    by destruct (store_fields k v c) as (_ & ? & _).
  - intros [= <-]. unfold lru.Get. case_decide; [|done].
    by destruct (lru.element k (lru.ll c)).
  - intros [= <-]. unfold lru.RemoveOldest. by destruct (lru.Back _).
Qed.

Lemma run_OnEvicted ops c c' :
  lru.run ops c = Some c' → lru.OnEvicted c' = lru.OnEvicted c.
Proof.
  revert c. induction ops as [|o ops IH]; intros c; simpl.
  - by intros [= <-].
  - destruct (lru.step o c) as [c1|] eqn:Hs; [|done].
    intros ->%IH. by eapply step_OnEvicted.
Qed.

Lemma wf_iter n c : lru.wf c → lru.wf (Nat.iter n lru.RemoveOldest c).
Proof.
  intros Hwf. induction n as [|n IH]; simpl; [done|]. by apply wf_RemoveOldest.
Qed.

(** Without the guard of the loop nothing is evicted. *)
Lemma evict_unlimited n c : lru.maxBytes c = 0 → lru.evict n c = Some c.
Proof.
  intros Hm. destruct n; simpl; unfold lru.over; by rewrite Hm.
Qed.

End lru_callback.

(** X5.  An [Add] on a store with a capacity that is not negative returns.
    The elements it evicts are the last ones of the list after the
    insertion; the eviction callback, when there is one, is called once on
    each of them and on nothing else, the last element of the list first;
    with no callback the state the callback acts on is as before.  No more
    is evicted than needed: with the element evicted last put back, the
    store would be over its capacity. *)
Theorem lru_Add_reports_evictions :
  ∀ (V Env : Type) `(!lru.Value V) maxBytes onEvicted (e0 : Env)
    (ops : list (lru.op V)) c k v,
    lru.run ops (lru.New maxBytes onEvicted e0) = Some c →
    0 ≤ maxBytes →
    ∃ c' evicted,
      lru.Add k v c = Some c' ∧
      lru.mkEntry k v :: lru.Remove k (lru.ll c) = lru.ll c' ++ evicted ∧
      lru.env c'
      = match onEvicted with
        | Some f => foldr (λ e s, f (lru.key e) (lru.value e) s) (lru.env c) evicted
        | None => lru.env c
        end ∧
      (∀ e, head evicted = Some e → maxBytes < lru.nbytes c' + lru.size e).
Proof.
  intros V Env HV maxBytes onEvicted e0 ops c k v Hrun Hpos.
  pose proof (wf_run _ _ _ (wf_New maxBytes onEvicted e0) Hrun) as Hwf.
  pose proof (run_maxBytes _ _ _ Hrun) as Hmax. simpl in Hmax.
  pose proof (run_OnEvicted _ _ _ Hrun) as Hcb. simpl in Hcb.
  destruct (store_fields k v c) as (Hm & Hf & He0).
  destruct (evict_terminates (S (length (lru.ll (lru.store k v c))))
              (lru.store k v c)) as [c' He];
    [by apply wf_store|rewrite Hm, Hmax; lia|lia|].
  destruct (evict_iter _ _ _ He) as (n & Hc' & _ & Hj).
  assert (n ≤ length (lru.ll (lru.store k v c)))%nat as Hn.
  { destruct n as [|n]; [lia|]. destruct (Hj n ltac:(lia)) as [_ Hne].
    rewrite iter_ll in Hne.
    destruct (decide (S n ≤ length (lru.ll (lru.store k v c))))%nat; [done|].
    exfalso. apply Hne.
    replace (length (lru.ll (lru.store k v c)) - n)%nat with 0%nat by lia. done. }
  exists c', (drop (length (lru.ll (lru.store k v c)) - n) (lru.ll (lru.store k v c))).
  split_and!.
  - done.
  - rewrite Hc', iter_ll, take_drop. by rewrite store_ll.
  - rewrite Hc', iter_env by done. rewrite Hf, He0, Hcb. done.
  - intros e Hhead. rewrite head_lookup, lookup_drop, Nat.add_0_r in Hhead.
    destruct n as [|n].
    { rewrite Nat.sub_0_r in Hhead. apply lookup_lt_Some in Hhead. lia. }
    destruct (Hj n ltac:(lia)) as [Hov _].
    pose proof (wf_iter n _ (wf_store k v c Hwf)) as (_ & _ & Hnb).
    pose proof (wf_evict _ _ _ (wf_store k v c Hwf) He) as (_ & _ & Hnb').
    destruct (iter_fields n (lru.store k v c)) as [Hmn _].
    unfold lru.over in Hov. rewrite Hmn, Hm, Hmax, Hnb, iter_ll in Hov.
    apply andb_true_iff in Hov as [_ Hov%Z.ltb_lt].
    replace (length (lru.ll (lru.store k v c)) - n)%nat
      with (S (length (lru.ll (lru.store k v c)) - S n)) in Hov by lia.
    rewrite (take_S_r _ _ e Hhead), total_app in Hov. simpl in Hov.
    rewrite Hnb', Hc', iter_ll. lia.
Qed.

Lemma lru_Add_reports_evictions_witness :
  ∃ c' evicted,
    lru.Add "k3" (view "v3")
      (lru.store "k2" (view "v2")
         (lru.store "k1" (view "v1")
            (lru.New 8 (Some (λ k (_ : geecache.ByteView) l, k :: l)) [])))
    = Some c' ∧
    lru.mkEntry "k3" (view "v3")
      :: lru.Remove "k3"
           (lru.ll (lru.store "k2" (view "v2")
              (lru.store "k1" (view "v1")
                 (lru.New 8 (Some (λ k (_ : geecache.ByteView) l, k :: l)) []))))
    = lru.ll c' ++ evicted ∧
    lru.env c'
    = foldr (λ e s, lru.key e :: s)
        (lru.env (lru.store "k2" (view "v2")
           (lru.store "k1" (view "v1")
              (lru.New 8 (Some (λ k (_ : geecache.ByteView) l, k :: l)) []))))
        evicted.
Proof.
  assert (lru.run [lru.OpAdd "k1" (view "v1"); lru.OpAdd "k2" (view "v2")]
            (lru.New 8 (Some (λ k (_ : geecache.ByteView) l, k :: l)) [])
          = Some (lru.store "k2" (view "v2")
                    (lru.store "k1" (view "v1")
                       (lru.New 8 (Some (λ k (_ : geecache.ByteView) l, k :: l)) []))))
    as Hrun.
  { vm_compute. reflexivity. }
  destruct (lru_Add_reports_evictions geecache.ByteView (list string) _ 8
           (Some (λ k (_ : geecache.ByteView) l, k :: l)) [] _ _
           "k3" (view "v3") Hrun) as (c' & evicted & Hadd & Hl & Henv & _).
  - lia.
  - exists c', evicted. split; [exact Hadd|]. split; [exact Hl|exact Henv].
Defined.



(** X7.  A store made with capacity 0 has no limit: [Add] evicts nothing
    and calls no callback, every entry of another key stays, and [Len]
    grows by one for a new key and stays for a resident one. *)
Theorem lru_unlimited_never_evicts :
  ∀ (V Env : Type) `(!lru.Value V) onEvicted (e0 : Env)
    (ops : list (lru.op V)) c k v,
    lru.run ops (lru.New 0 onEvicted e0) = Some c →
    ∃ c', lru.Add k v c = Some c' ∧
          lru.ll c' = lru.mkEntry k v :: lru.Remove k (lru.ll c) ∧
          lru.env c' = lru.env c ∧
          (∀ e, e ∈ lru.ll c → lru.key e ≠ k → e ∈ lru.ll c') ∧
          lru.Len_ c' = (if decide (k ∈ lru.cache c) then lru.Len_ c
                         else lru.Len_ c + 1).
Proof.
  intros V Env HV onEvicted e0 ops c k v Hrun.
  pose proof (wf_run _ _ _ (wf_New 0 onEvicted e0) Hrun) as Hwf.
  pose proof (run_maxBytes _ _ _ Hrun) as Hmax. simpl in Hmax.
  destruct (store_fields k v c) as (Hm & _ & He0).
  exists (lru.store k v c). unfold lru.Add.
  rewrite evict_unlimited by (by rewrite Hm).
  split_and!; [done|by apply store_ll|done| |].
  - intros e He Hk. rewrite store_ll by done. apply elem_of_cons. right.
    destruct (decide (k ∈ lru.cache c)) as [Hin|Hin].
    + apply (wf_lookup c k Hwf) in Hin as [x Hx].
      apply element_split in Hx as (l1 & l2 & Hl & Hkx & Hnot & Hrm).
      rewrite Hrm. rewrite Hl in He. set_solver.
    + rewrite Remove_absent; [done|]. destruct Hwf as (_ & Hset & _).
      rewrite Hset in Hin. by rewrite elem_of_list_to_set in Hin.
  - unfold lru.Len_. rewrite store_ll by done. case_decide as Hin.
    + apply (wf_lookup c k Hwf) in Hin as [x Hx].
      apply element_split in Hx as (l1 & l2 & Hl & Hkx & Hnot & Hrm).
      rewrite Hrm, Hl. simpl. rewrite !length_app. simpl. lia.
    + rewrite Remove_absent; [simpl; lia|]. destruct Hwf as (_ & Hset & _).
      rewrite Hset in Hin. by rewrite elem_of_list_to_set in Hin.
Qed.

Lemma lru_unlimited_never_evicts_witness :
  ∃ c', lru.Add "k1" (view "v3")
          (lru.store "k2" (view "v2") (lru.store "k1" (view "v1") (lru.New 0 None tt)))
        = Some c' ∧
        lru.ll c' = [lru.mkEntry "k1" (view "v3"); lru.mkEntry "k2" (view "v2")].
Proof.
  assert (lru.run [lru.OpAdd "k1" (view "v1"); lru.OpAdd "k2" (view "v2")]
            (lru.New 0 None tt)
          = Some (lru.store "k2" (view "v2")
                    (lru.store "k1" (view "v1") (lru.New 0 None tt)))) as Hrun.
  { vm_compute. reflexivity. }
  destruct (lru_unlimited_never_evicts geecache.ByteView unit _ None tt _ _
              "k1" (view "v3") Hrun) as (c' & Ha & Hl & _).
  exists c'. split; [exact Ha|]. rewrite Hl. vm_compute. reflexivity.
Defined.

(** * More on the ring *)

Section ring_more.

Implicit Types (m : consistenthash.Map) (nodes : list string).

Lemma hashOf_hash m m' s :
  consistenthash.hash m' = consistenthash.hash m →
  consistenthash.hashOf m' s = consistenthash.hashOf m s.
Proof. unfold consistenthash.hashOf. by intros ->. Qed.

Lemma addReplicas_fields key m (l : list nat) :
  consistenthash.hash (foldl (consistenthash.addReplica key) m l) = consistenthash.hash m ∧
  consistenthash.replicas (foldl (consistenthash.addReplica key) m l)
  = consistenthash.replicas m ∧
  consistenthash.keys (foldl (consistenthash.addReplica key) m l)
  = consistenthash.keys m
    ++ ((λ i : nat, consistenthash.hashOf m (consistenthash.Itoa (Z.of_nat i) +:+ key))
          <$> l).
Proof.
  revert m. induction l as [|i l IH]; intros m; simpl.
  - by rewrite app_nil_r.
  - destruct (IH (consistenthash.addReplica key m i)) as (-> & -> & ->).
    simpl. split_and!; [done|done|]. rewrite <- app_assoc. simpl. done.
Qed.

Lemma addNode_fields m key :
  consistenthash.hash (consistenthash.addNode m key) = consistenthash.hash m ∧
  consistenthash.replicas (consistenthash.addNode m key) = consistenthash.replicas m ∧
  consistenthash.keys (consistenthash.addNode m key)
  = consistenthash.keys m ++ virtualNodes m key.
Proof. apply addReplicas_fields. Qed.

Lemma virtualNodes_ext m m' node :
  consistenthash.hash m' = consistenthash.hash m →
  consistenthash.replicas m' = consistenthash.replicas m →
  virtualNodes m' node = virtualNodes m node.
Proof.
  intros Hh Hr. unfold virtualNodes. rewrite Hr. apply list_fmap_ext.
  intros _ i _. by apply hashOf_hash.
Qed.

Lemma addNodes_fields m nodes :
  consistenthash.hash (foldl consistenthash.addNode m nodes) = consistenthash.hash m ∧
  consistenthash.replicas (foldl consistenthash.addNode m nodes)
  = consistenthash.replicas m ∧
  consistenthash.keys (foldl consistenthash.addNode m nodes)
  = consistenthash.keys m ++ concat (virtualNodes m <$> nodes).
Proof.
  revert m. induction nodes as [|key nodes IH]; intros m; simpl.
  - by rewrite app_nil_r.
  - destruct (addNode_fields m key) as (Hh & Hr & Hk).
    destruct (IH (consistenthash.addNode m key)) as (-> & -> & ->).
    split_and!; [done|done|]. rewrite Hk, <- app_assoc. do 3 f_equal.
    apply list_fmap_ext. intros _ node _. by apply virtualNodes_ext.
Qed.

Lemma Add_fields nodes m :
  consistenthash.hash (consistenthash.Add nodes m) = consistenthash.hash m ∧
  consistenthash.replicas (consistenthash.Add nodes m) = consistenthash.replicas m ∧
  consistenthash.keys (consistenthash.Add nodes m)
  ≡ₚ consistenthash.keys m ++ concat (virtualNodes m <$> nodes).
Proof.
  destruct (addNodes_fields m nodes) as (Hh & Hr & Hk).
  unfold consistenthash.Add. simpl. split_and!; [done|done|].
  unfold consistenthash.Ints. by rewrite merge_sort_Permutation, Hk.
Qed.

Lemma ringOf_snoc C reps fn batches batch :
  ringOf C reps fn (batches ++ [batch])
  = consistenthash.Add batch (ringOf C reps fn batches).
Proof. unfold ringOf. by rewrite foldl_app. Qed.

Lemma ringOf_fields C reps fn batches :
  consistenthash.hash (ringOf C reps fn batches)
  = consistenthash.hash (consistenthash.New C reps fn) ∧
  consistenthash.replicas (ringOf C reps fn batches) = reps ∧
  consistenthash.keys (ringOf C reps fn batches)
  ≡ₚ concat (virtualNodes (consistenthash.New C reps fn) <$> concat batches).
Proof.
  induction batches as [|batch batches (IH1 & IH2 & IH3)] using rev_ind.
  - done.
  - rewrite ringOf_snoc.
    destruct (Add_fields batch (ringOf C reps fn batches)) as (-> & -> & ->).
    split_and!; [done|done|].
    rewrite IH3, concat_app, fmap_app, concat_app. simpl. rewrite app_nil_r.
    replace (virtualNodes (ringOf C reps fn batches) <$> batch)
      with (virtualNodes (consistenthash.New C reps fn) <$> batch); [done|].
    apply list_fmap_ext. intros _ node _. symmetry.
    by apply virtualNodes_ext.
Qed.

Lemma length_concat_const {A} (ls : list (list A)) n :
  Forall (λ l, length l = n) ls → length (concat ls) = (length ls * n)%nat.
Proof.
  induction 1 as [|l ls Hl _ IH]; simpl; [done|].
  rewrite length_app, IH, Hl. done.
Qed.

(** A pick on a sorted ring is the nearest virtual node. *)
Lemma picks_nearest (ks : list Z) h v :
  StronglySorted Z.le ks → picks ks h v → nearest ks h v.
Proof.
  intros Hs [(i & Hi & Hv & Hlo)|[Hhead Hall]].
  - split; [by eapply list_elem_of_lookup_2|]. left. split; [done|].
    intros w [j Hj]%list_elem_of_lookup_1 Hw.
    destruct (decide (j < i)%nat) as [Hlt|Hge].
    + specialize (Hlo j w Hlt Hj). lia.
    + eapply sorted_lookup_le; [done..|lia].
  - rewrite head_lookup in Hhead.
    split; [by eapply list_elem_of_lookup_2|]. right. split; [done|].
    intros w [j Hj]%list_elem_of_lookup_1.
    eapply sorted_lookup_le; [done..|lia].
Qed.

(** The nearest virtual node of a ring, when it is one of a part of the
    ring, is the nearest of that part. *)
Lemma nearest_sub (ks ks' : list Z) h v v' :
  ks ⊆ ks' → nearest ks h v → nearest ks' h v' → v' ∈ ks → v = v'.
Proof.
  intros Hsub [Hv Hmin] [Hv' Hmin'] Hin.
  pose proof (Hsub v Hv) as Hvin.
  destruct Hmin as [[Hh Hmin]|[Hall Hmin]], Hmin' as [[Hh' Hmin']|[Hall' Hmin']].
  - specialize (Hmin v' Hin Hh'). specialize (Hmin' v Hvin Hh). lia.
  - specialize (Hall' v Hvin). lia.
  - specialize (Hall v' Hin). lia.
  - specialize (Hmin v' Hin). specialize (Hmin' v Hvin). lia.
Qed.

Lemma grown_refl nodes m : grown nodes m m.
Proof. split_and!; auto. Qed.

Lemma grown_addReplica nodes key m0 m i :
  key ∈ nodes → grown nodes m0 m → grown nodes m0 (consistenthash.addReplica key m i).
Proof.
  intros Hkey (Hh & Hr & Hold & Hnew & Hmap). split_and!; simpl; try done.
  - intros v Hv. apply elem_of_app. left. by apply Hold.
  - intros v [Hv|Hv%list_elem_of_singleton]%elem_of_app.
    + destruct (decide (consistenthash.hashOf m
                          (consistenthash.Itoa (Z.of_nat i) +:+ key) = v))
        as [->|Hne].
      * right. exists key. by rewrite lookup_insert_eq.
      * rewrite lookup_insert_ne by done. by apply Hnew.
    + subst v. right. exists key. by rewrite lookup_insert_eq.
  - intros v node.
    destruct (decide (consistenthash.hashOf m
                        (consistenthash.Itoa (Z.of_nat i) +:+ key) = v))
      as [->|Hne].
    + rewrite lookup_insert_eq. intros [= <-]. by right.
    + rewrite lookup_insert_ne by done. apply Hmap.
Qed.

Lemma grown_addNode nodes key m0 m :
  key ∈ nodes → grown nodes m0 m → grown nodes m0 (consistenthash.addNode m key).
Proof.
  intros Hkey. unfold consistenthash.addNode.
  generalize (seq 0 (Z.to_nat (consistenthash.replicas m))).
  intros l. revert m. induction l as [|i l IH]; intros m Hm; simpl; [done|].
  apply IH. by apply grown_addReplica.
Qed.

Lemma grown_addNodes nodes batch m0 m :
  batch ⊆ nodes → grown nodes m0 m → grown nodes m0 (foldl consistenthash.addNode m batch).
Proof.
  revert m. induction batch as [|key batch IH]; intros m Hsub Hm; simpl; [done|].
  apply IH; [set_solver|]. apply grown_addNode; [set_solver|done].
Qed.

Lemma grown_Add nodes m : grown nodes m (consistenthash.Add nodes m).
Proof.
  assert (nodes ⊆ nodes) as Hsub by set_solver.
  destruct (grown_addNodes nodes nodes m m Hsub (grown_refl nodes m))
    as (Hh & Hr & Hold & Hnew & Hmap).
  unfold consistenthash.Add. split_and!; simpl; try done.
  - intros v Hv. apply Ints_elem. by apply Hold.
  - intros v Hv. apply (proj1 (Ints_elem _ _)) in Hv. by apply Hnew.
Qed.

End ring_more.

(** X8.  A ring made by [New(replicas, fn)] and calls of [Add] keeps its
    hash function and its number of replicas, and its virtual nodes are, in
    sorted order, the hashes of [strconv.Itoa(i) + node] for every node
    added and every [i] below [replicas]: a node added twice has its
    virtual nodes twice, and the ring has [replicas] virtual nodes for each
    node added. *)
Theorem ring_Add_virtual_nodes :
  ∀ ChecksumIEEE reps fn (batches : list (list string)),
    consistenthash.hash (ringOf ChecksumIEEE reps fn batches)
    = default ChecksumIEEE fn ∧
    consistenthash.replicas (ringOf ChecksumIEEE reps fn batches) = reps ∧
    StronglySorted Z.le (consistenthash.keys (ringOf ChecksumIEEE reps fn batches)) ∧
    consistenthash.keys (ringOf ChecksumIEEE reps fn batches)
    ≡ₚ concat ((λ node,
                 (λ i : nat,
                    consistenthash.uint32
                      (default ChecksumIEEE fn
                         (String.list_byte_of_string
                            (consistenthash.Itoa (Z.of_nat i) +:+ node))))
                 <$> seq 0 (Z.to_nat reps)) <$> concat batches) ∧
    length (consistenthash.keys (ringOf ChecksumIEEE reps fn batches))
    = (length (concat batches) * Z.to_nat reps)%nat.
Proof.
  intros C reps fn batches.
  destruct (ringOf_fields C reps fn batches) as (Hh & Hr & Hk).
  destruct (ring_invariant C reps fn batches) as [Hs _].
  assert (consistenthash.hash (consistenthash.New C reps fn) = default C fn) as Hd
    by (by destruct fn).
  assert (∀ node,
            virtualNodes (consistenthash.New C reps fn) node
            = (λ i : nat,
                 consistenthash.uint32
                   (default C fn
                      (String.list_byte_of_string
                         (consistenthash.Itoa (Z.of_nat i) +:+ node))))
              <$> seq 0 (Z.to_nat reps)) as Hv.
  { intros node. unfold virtualNodes, consistenthash.hashOf. by rewrite Hd. }
  split_and!; [by rewrite Hh|done|done| |].
  - rewrite Hk.
    replace (virtualNodes (consistenthash.New C reps fn) <$> concat batches)
      with ((λ node,
              (λ i : nat,
                 consistenthash.uint32
                   (default C fn
                      (String.list_byte_of_string
                         (consistenthash.Itoa (Z.of_nat i) +:+ node))))
              <$> seq 0 (Z.to_nat reps)) <$> concat batches); [done|].
    apply list_fmap_ext. intros _ node _. symmetry. apply Hv.
  - rewrite Hk. rewrite (length_concat_const _ (Z.to_nat reps)).
    + by rewrite length_fmap.
    + apply Forall_fmap, Forall_forall. intros node _. simpl.
      unfold virtualNodes. by rewrite length_fmap, length_seq.
Qed.

(** X9.  Adding nodes to a ring moves a key to an added node or not at
    all: [Get(key)] after [Add(nodes...)] is [Get(key)] of before, or one
    of [nodes]. *)
Theorem ring_Add_moves_keys_to_new_nodes :
  ∀ ChecksumIEEE reps fn (batches : list (list string)) nodes key,
    consistenthash.Get key (consistenthash.Add nodes (ringOf ChecksumIEEE reps fn batches))
    = consistenthash.Get key (ringOf ChecksumIEEE reps fn batches) ∨
    consistenthash.Get key (consistenthash.Add nodes (ringOf ChecksumIEEE reps fn batches))
    ∈ nodes.
Proof.
  intros C reps fn batches nodes key.
  set (m := ringOf C reps fn batches).
  destruct (ring_invariant C reps fn batches) as [Hs Hm]. fold m in Hs, Hm.
  destruct (ring_invariant C reps fn (batches ++ [nodes])) as [Hs' [Hm1' _]].
  rewrite ringOf_snoc in Hs', Hm1'. fold m in Hs', Hm1'.
  destruct (grown_Add nodes m) as (Hh & _ & Hold & Hnew & Hmap).
  destruct (decide (consistenthash.keys (consistenthash.Add nodes m) = []))
    as [Hnil|Hne'].
  { left. assert (consistenthash.keys m = []) as Hk.
    { destruct (consistenthash.keys m) as [|x ks]; [done|].
      specialize (Hold x ltac:(left)). rewrite Hnil in Hold.
      by apply elem_of_nil in Hold. }
    unfold consistenthash.Get. by rewrite Hnil, Hk. }
  destruct (Get_picks key _ Hs' Hne') as (v' & Hp' & Hget').
  rewrite (hashOf_hash m _ key Hh) in Hp'.
  apply picks_nearest in Hp'; [|done].
  destruct (Hm1' v' (proj1 Hp')) as [node Hnode].
  rewrite Hget', Hnode. simpl.
  destruct (Hnew v' (proj1 Hp')) as [Hin|(node' & Hin & Hnode')].
  - destruct (Hmap v' node Hnode) as [Hnode0|?]; [left|by right].
    destruct (Get_picks key m Hs) as (v & Hp & Hget).
    { intros Hnil. rewrite Hnil in Hin. by apply elem_of_nil in Hin. }
    apply picks_nearest in Hp; [|done].
    rewrite Hget, (nearest_sub _ _ _ v v' Hold Hp Hp' Hin), Hnode0. done.
  - right. congruence.
Qed.

(** X10.  A ring made with a number of replicas that is not positive has
    no virtual node, whatever is added, and [Get] returns the empty string
    for every key. *)
Theorem ring_without_replicas :
  ∀ ChecksumIEEE reps fn (batches : list (list string)) key,
    reps ≤ 0 →
    consistenthash.keys (ringOf ChecksumIEEE reps fn batches) = [] ∧
    consistenthash.Get key (ringOf ChecksumIEEE reps fn batches) = "".
Proof.
  intros C reps fn batches key Hreps.
  destruct (ringOf_fields C reps fn batches) as (_ & _ & Hk).
  assert (consistenthash.keys (ringOf C reps fn batches) = []) as Hnil.
  { apply Permutation_nil_r. rewrite Hk.
    replace (concat (virtualNodes (consistenthash.New C reps fn) <$> concat batches))
      with (@nil Z); [done|]. symmetry.
    apply nil_length_inv.
    rewrite (length_concat_const _ 0%nat); [lia|].
    apply Forall_fmap, Forall_forall. intros node _. simpl.
    unfold virtualNodes. rewrite length_fmap, length_seq. simpl. lia. }
  split; [done|]. unfold consistenthash.Get. by rewrite Hnil.
Qed.

Lemma ring_without_replicas_witness :
  consistenthash.keys (ringOf byteSum 0 None [["6"; "4"]; ["2"]]) = [] ∧
  consistenthash.Get "e" (ringOf byteSum 0 None [["6"; "4"]; ["2"]]) = "".
Proof.
  apply (ring_without_replicas byteSum 0 None [["6"; "4"]; ["2"]] "e"). lia.
Defined.

(** * More on the group *)

Section group_more.

Context {Env : Type}.
Implicit Types (g : geecache.Group Env) (s : geecache.Eff Env) (c : geecache.cache).
Implicit Types (key : string) (w : geecache.World Env).

Lemma add_cacheBytes key v c c' :
  geecache.add key v c = Ret c' → geecache.cacheBytes c' = geecache.cacheBytes c.
Proof.
  unfold geecache.add. destruct (lru.Add key v _); [|done]. by intros [= <-].
Qed.

Lemma get_cacheBytes key c :
  geecache.cacheBytes (geecache.get key c).2 = geecache.cacheBytes c.
Proof.
  unfold geecache.get. destruct (geecache.lru_ c) as [l|]; [|done].
  by destruct (lru.Get key l) as [[v|] l'].
Qed.

Lemma add_returns key v c :
  cache_ok c → 0 ≤ geecache.cacheBytes c → ∃ c', geecache.add key v c = Ret c'.
Proof.
  intros Hok Hcb. unfold geecache.add.
  set (l := match geecache.lru_ c with
            | Some l => l
            | None => lru.New (geecache.cacheBytes c) None ()
            end).
  assert (lru.wf l ∧ lru.maxBytes l = geecache.cacheBytes c) as [Hwf Hm].
  { subst l. unfold cache_ok in Hok.
    destruct (geecache.lru_ c) as [l|]; [done|]. split; [apply wf_New|done]. }
  destruct (step_returns (lru.OpAdd key v) l Hwf) as [l' Hl']; [lia|].
  simpl in Hl'. rewrite Hl'. eauto.
Qed.

(** With a negative capacity the local store takes nothing. *)
Lemma add_hangs key v c :
  cache_ok c → geecache.cacheBytes c < 0 → geecache.add key v c = Hang.
Proof.
  intros Hok Hcb. unfold geecache.add.
  set (l := match geecache.lru_ c with
            | Some l => l
            | None => lru.New (geecache.cacheBytes c) None ()
            end).
  assert (lru.wf l ∧ lru.maxBytes l = geecache.cacheBytes c) as [Hwf Hm].
  { subst l. unfold cache_ok in Hok.
    destruct (geecache.lru_ c) as [l|]; [done|]. split; [apply wf_New|done]. }
  unfold lru.Add. rewrite evict_negative; [done|by apply wf_store|].
  destruct (store_fields key v l) as (-> & _). lia.
Qed.

(** [Add] with room on the local store, and [Get] after it. *)
Lemma add_get key v c :
  cache_ok c →
  geecache.cacheBytes c = 0 ∨
  Z.of_nat (String.length key) + geecache.Len v ≤ geecache.cacheBytes c →
  ∃ c' c'', geecache.add key v c = Ret c' ∧ cache_ok c' ∧
            geecache.cacheBytes c' = geecache.cacheBytes c ∧
            geecache.get key c' = (v, true, c'') ∧
            front c' = Some (lru.mkEntry key v).
Proof.
  intros Hok Hcap. unfold geecache.add.
  set (l := match geecache.lru_ c with
            | Some l => l
            | None => lru.New (geecache.cacheBytes c) None ()
            end).
  assert (lru.wf l ∧ lru.maxBytes l = geecache.cacheBytes c) as [Hwf Hm].
  { subst l. unfold cache_ok in Hok.
    destruct (geecache.lru_ c) as [l|]; [done|]. split; [apply wf_New|done]. }
  destruct (Add_room key v l Hwf) as (l' & -> & Hwf' & Hm' & Hh & Hg).
  { by rewrite Hm. }
  destruct (lru.Get key l') as [[v'|] l''] eqn:Hget; simpl in Hg; [|done].
  simplify_eq.
  exists {| geecache.lru_ := Some l'; geecache.cacheBytes := geecache.cacheBytes c |},
    {| geecache.lru_ := Some l''; geecache.cacheBytes := geecache.cacheBytes c |}.
  unfold geecache.get, cache_ok, front. simpl. rewrite Hget.
  split_and!; try done. congruence.
Qed.

Lemma getLocally_fields key g s v err g' s' :
  geecache.getLocally key g s = Ret (v, err, g', s') →
  geecache.name g' = geecache.name g ∧ geecache.getter g' = geecache.getter g ∧
  geecache.peers g' = geecache.peers g ∧ geecache.loader g' = geecache.loader g ∧
  geecache.cacheBytes (geecache.mainCache g')
  = geecache.cacheBytes (geecache.mainCache g) ∧
  (is_Some err → v = geecache.noView).
Proof.
  unfold geecache.getLocally.
  destruct (geecache.getter g) as [f|] eqn:Hgt; [|done].
  destruct (f key (geecache.env s)) as [[bytes [e|]] e'].
  - intros [= <- <- <- <-]. by split_and!.
  - unfold geecache.populateCache.
    destruct (geecache.add key _ (geecache.mainCache g)) as [c'| |] eqn:Ha;
      simpl; [|done..].
    intros [= <- <- <- <-]. simpl. split_and!; try done;
      first [by eapply add_cacheBytes|by intros [? ?]].
Qed.

Lemma loadFn_fields key g s v err g' s' :
  geecache.loadFn key (g, s) = Ret (v, err, (g', s')) →
  geecache.name g' = geecache.name g ∧ geecache.getter g' = geecache.getter g ∧
  geecache.peers g' = geecache.peers g ∧ geecache.loader g' = geecache.loader g ∧
  geecache.cacheBytes (geecache.mainCache g')
  = geecache.cacheBytes (geecache.mainCache g) ∧
  (is_Some err → v = geecache.noView).
Proof.
  unfold geecache.loadFn.
  assert (∀ s1, geecache.getLocally key g s1 ≫=
                  (λ '(v0, err0, g0, s0), Ret (v0, err0, (g0, s0)))
                = Ret (v, err, (g', s')) →
          geecache.name g' = geecache.name g ∧
          geecache.getter g' = geecache.getter g ∧
          geecache.peers g' = geecache.peers g ∧
          geecache.loader g' = geecache.loader g ∧
          geecache.cacheBytes (geecache.mainCache g')
          = geecache.cacheBytes (geecache.mainCache g) ∧
          (is_Some err → v = geecache.noView)) as Hlocal.
  { intros s1.
    destruct (geecache.getLocally key g s1) as [[[[v0 err0] g0] s0]| |] eqn:Hloc;
      simpl; [|done..].
    intros [= <- <- <- <-]. by eapply getLocally_fields. }
  destruct (geecache.peers g) as [pick|] eqn:Hpk; [|apply Hlocal].
  destruct (pick key (geecache.env s)) as [[peer|] e1]; [|apply Hlocal].
  destruct (geecache.getFromPeer peer key g _) as [[value [e|]] s2];
    [apply Hlocal|].
  intros [= <- <- <- <-]. split_and!; try done.
Qed.

Lemma load_fields key g s v err g' s' :
  idle g → geecache.load key g s = Ret (v, err, g', s') →
  geecache.name g' = geecache.name g ∧ geecache.getter g' = geecache.getter g ∧
  geecache.peers g' = geecache.peers g ∧
  geecache.cacheBytes (geecache.mainCache g')
  = geecache.cacheBytes (geecache.mainCache g) ∧
  (is_Some err → v = geecache.noView).
Proof.
  intros (l & Hl & Hm). unfold geecache.load. rewrite Hl.
  destruct (singleflight.Do key (geecache.loadFn key) l (g, s))
    as [[[vi l'] [g0 s0]]| |] eqn:Hdo; simpl; [|done..].
  destruct (Do_idle _ _ _ _ _ _ _ Hm Hdo) as ([v0 err0] & -> & Hfn & Hm').
  apply loadFn_fields in Hfn as (? & ? & ? & ? & ? & ?).
  destruct err0; intros [= <- <- <- <-]; simpl; split_and!; done.
Qed.

Lemma Get_fields key g s v err g' s' :
  idle g → geecache.Get key g s = Ret (v, err, g', s') →
  geecache.name g' = geecache.name g ∧ geecache.getter g' = geecache.getter g ∧
  geecache.peers g' = geecache.peers g ∧
  geecache.cacheBytes (geecache.mainCache g')
  = geecache.cacheBytes (geecache.mainCache g) ∧
  (is_Some err → v = geecache.noView).
Proof.
  intros Hidle. unfold geecache.Get.
  case_decide; [by intros [= <- <- <- <-]|].
  pose proof (get_cacheBytes key (geecache.mainCache g)) as Hcb.
  destruct (geecache.get key (geecache.mainCache g)) as [[v0 ok] c]. simpl in Hcb.
  destruct ok.
  - intros [= <- <- <- <-]. simpl. split_and!; done.
  - intros Hload. apply load_fields in Hload; [|done].
    simpl in Hload. by rewrite <- Hcb.
Qed.

Lemma getLocally_returns key g s :
  is_Some (geecache.getter g) → cache_ok (geecache.mainCache g) →
  0 ≤ geecache.cacheBytes (geecache.mainCache g) →
  ∃ v err g' s', geecache.getLocally key g s = Ret (v, err, g', s').
Proof.
  intros [f Hf] Hok Hcb. unfold geecache.getLocally. rewrite Hf.
  destruct (f key (geecache.env s)) as [[bytes [e|]] e']; [by eexists _, _, _, _|].
  unfold geecache.populateCache.
  destruct (add_returns key {| geecache.b := geecache.cloneBytes bytes |}
              (geecache.mainCache g) Hok Hcb) as [c' ->].
  simpl. by eexists _, _, _, _.
Qed.

Lemma loadFn_returns key g s :
  is_Some (geecache.getter g) → cache_ok (geecache.mainCache g) →
  0 ≤ geecache.cacheBytes (geecache.mainCache g) →
  ∃ v err g' s', geecache.loadFn key (g, s) = Ret (v, err, (g', s')).
Proof.
  intros Hf Hok Hcb. unfold geecache.loadFn.
  assert (∀ s1, ∃ v err g' s',
            geecache.getLocally key g s1 ≫=
              (λ '(v0, err0, g0, s0), Ret (v0, err0, (g0, s0)))
            = Ret (v, err, (g', s'))) as Hlocal.
  { intros s1.
    destruct (getLocally_returns key g s1 Hf Hok Hcb) as (v & err & g' & s' & ->).
    simpl. by eexists _, _, _, _. }
  destruct (geecache.peers g) as [pick|]; [|apply Hlocal].
  destruct (pick key (geecache.env s)) as [[peer|] e1]; [|apply Hlocal].
  destruct (geecache.getFromPeer peer key g _) as [[value [e|]] s2];
    [apply Hlocal|].
  by eexists _, _, _, _.
Qed.

Lemma load_returns key g s :
  sound g → is_Some (geecache.getter g) →
  0 ≤ geecache.cacheBytes (geecache.mainCache g) →
  ∃ v err g' s', geecache.load key g s = Ret (v, err, g', s').
Proof.
  intros [Hok (l & Hl & Hm)] Hf Hcb. unfold geecache.load. rewrite Hl.
  unfold singleflight.Do. rewrite Hm, lookup_empty.
  destruct (loadFn_returns key g s Hf Hok Hcb) as (v & err & g' & s' & ->).
  simpl. destruct err; by eexists _, _, _, _.
Qed.

Lemma Get_returns key g s :
  sound g → is_Some (geecache.getter g) →
  0 ≤ geecache.cacheBytes (geecache.mainCache g) →
  ∃ v err g' s', geecache.Get key g s = Ret (v, err, g', s').
Proof.
  intros Hs Hf Hcb. pose proof Hs as [Hok (l & Hl & Hm)]. unfold geecache.Get.
  case_decide; [by eexists _, _, _, _|].
  pose proof (get_cacheBytes key (geecache.mainCache g)) as Hcb'.
  pose proof (get_cache_ok key _ Hok) as Hok1.
  destruct (geecache.get key (geecache.mainCache g)) as [[v ok] c].
  simpl in Hcb', Hok1.
  destruct ok; [by eexists _, _, _, _|].
  apply load_returns; [split; [done|by exists l]|done|simpl; lia].
Qed.

(** [Get] of a key that is not empty and not in the local store is
    [load]. *)
Lemma Get_load key g s :
  key ≠ "" → ¬ resident key (geecache.mainCache g) →
  geecache.Get key g s = geecache.load key g (geecache.emit (geecache.CacheGet key) s).
Proof.
  intros Hkey Hres. unfold geecache.Get. rewrite decide_False by done.
  rewrite get_miss by done. by rewrite setCache_id.
Qed.

(** [load] with no call in flight is the function it hands to the
    coalescer. *)
Lemma load_idle key g s v err g' s' :
  idle g → geecache.loadFn key (g, s) = Ret (v, err, (g', s')) →
  ∃ l', geecache.load key g s
        = Ret (match err with None => v | Some _ => geecache.noView end, err,
               geecache.setLoader l' g', s') ∧
        default ∅ (singleflight.m l') = ∅.
Proof.
  intros (l & Hl & Hm) Hfn. unfold geecache.load. rewrite Hl.
  unfold singleflight.Do. rewrite Hm, lookup_empty, Hfn. simpl.
  destruct err; eexists; (split; [done|]); simpl; by rewrite delete_insert_eq.
Qed.

Lemma registry_start (e : Env) : registry_ok (start e).
Proof. intros name p. unfold geecache.GetGroup. simpl. by rewrite lookup_empty. Qed.

Lemma registry_NewGroup name cb f w p w' :
  registry_ok w → geecache.NewGroup name cb (Some f) w = Ret (p, w') →
  registry_ok w'.
Proof.
  intros Hreg [= <- <-] n q. unfold geecache.GetGroup. simpl.
  destruct (decide (name = n)) as [->|Hne].
  - rewrite lookup_insert_eq. intros [= <-].
    exists (groupOf n cb f). rewrite lookup_app_r, Nat.sub_diag by done.
    split_and!; [done|done|apply groupOf_sound|by eexists|done].
  - rewrite lookup_insert_ne by done. intros Hq.
    destruct (Hreg n q Hq) as (g & Hg & Hrest). exists g. split; [|done].
    rewrite lookup_app_l; [done|]. by eapply lookup_lt_Some.
Qed.

Lemma registry_Get name key w p a w' :
  registry_ok w → geecache.GetGroup name w = Some p →
  geecache.through p (geecache.Get key) w = Ret (a, w') → registry_ok w'.
Proof.
  intros Hreg Hp. unfold geecache.through.
  destruct (Hreg name p Hp) as (g & Hg & Hname & Hs & Hf & Hpeers). rewrite Hg.
  destruct (geecache.Get key g (geecache.eff w)) as [[[[v err] g'] s']| |] eqn:Hget;
    simpl; [|done..].
  intros [= <- <-] n q. unfold geecache.GetGroup. simpl. intros Hq.
  destruct (decide (q = p)) as [->|Hne].
  - exists g'. rewrite list_lookup_insert_eq by (by eapply lookup_lt_Some).
    destruct (Hreg n p Hq) as (g0 & Hg0 & Hn0 & _). simplify_eq.
    pose proof (Get_sound _ _ _ _ _ _ _ Hs Hget) as Hs'.
    destruct (Get_fields _ _ _ _ _ _ _ (proj2 Hs) Hget) as (Hn & Hgt & Hpr & _).
    split_and!; [done|done|done|by rewrite Hgt|by rewrite Hpr].
  - rewrite list_lookup_insert_ne by done. by apply Hreg.
Qed.

Lemma registry_wstep (o : wop Env) w w' :
  registry_ok w → wstep o w = Ret w' → registry_ok w'.
Proof.
  intros Hreg. destruct o as [name cb getter|name key]; simpl.
  - destruct getter as [f|]; [|done].
    destruct (geecache.NewGroup name cb (Some f) w) as [[p w1]| |] eqn:Hn;
      simpl; [|done..].
    intros [= <-]. by eapply registry_NewGroup.
  - destruct (geecache.GetGroup name w) as [p|] eqn:Hp; [|by intros [= <-]].
    destruct (geecache.through p (geecache.Get key) w) as [[a w1]| |] eqn:Ht;
      simpl; [|done..].
    intros [= <-]. by eapply registry_Get.
Qed.

Lemma registry_wrun (ops : list (wop Env)) w w' :
  registry_ok w → wrun ops w = Ret w' → registry_ok w'.
Proof.
  revert w. induction ops as [|o ops IH]; intros w Hreg; simpl.
  - by intros [= <-].
  - destruct (wstep o w) as [w1| |] eqn:Hs; simpl; [|done..].
    apply IH. by eapply registry_wstep.
Qed.

(** The names made stay in the registry. *)
Lemma wstep_keeps (o : wop Env) w w' name :
  wstep o w = Ret w' →
  is_Some (geecache.GetGroup name w) ∨ name ∈ made [o] →
  is_Some (geecache.GetGroup name w').
Proof.
  unfold geecache.GetGroup. destruct o as [n cb getter|n key]; simpl.
  - destruct getter as [f|]; simpl; [|done]. intros [= <-]. simpl.
    destruct (decide (n = name)) as [->|Hne].
    + rewrite lookup_insert_eq. eauto.
    + rewrite lookup_insert_ne by done. intros [?|Hin]; [done|]. set_solver.
  - destruct (geecache.GetGroup n w) as [p|].
    + destruct (geecache.through p (geecache.Get key) w) as [[a w1]| |] eqn:Ht;
        simpl; [|done..].
      intros [= <-]. rewrite (through_groups _ _ _ _ _ Ht).
      intros [?|Hin]; [done|]. set_solver.
    + intros [= <-] [?|Hin]; [done|]. set_solver.
Qed.

Lemma wrun_keeps (ops : list (wop Env)) w w' name :
  wrun ops w = Ret w' →
  is_Some (geecache.GetGroup name w) ∨ name ∈ made ops →
  is_Some (geecache.GetGroup name w').
Proof.
  revert w. induction ops as [|o ops IH]; intros w; simpl.
  - intros [= <-] [?|Hin]; [done|]. set_solver.
  - destruct (wstep o w) as [w1| |] eqn:Hs; simpl; [|done..].
    intros Hr Hn. apply (IH w1 Hr).
    destruct Hn as [Hn|Hn].
    + left. eapply wstep_keeps; [done|by left].
    + destruct o as [n cb getter|n key]; simpl in Hn.
      * apply elem_of_cons in Hn as [->|Hn]; [|by right].
        left. eapply wstep_keeps; [done|]. right. simpl. set_solver.
      * by right.
Qed.

End group_more.

(** X13.  [Get] of a key that has an entry in the local store returns the
    value of the entry and asks neither the peers nor the getter, whether
    the group has a peer picker or not; the entry goes to the front of the
    store and the store holds the same entries as before. *)
Theorem Get_hit_served_locally :
  ∀ (Env : Type) (g : geecache.Group Env) (s : geecache.Eff Env) key l v,
    key ≠ "" → cache_ok (geecache.mainCache g) →
    geecache.lru_ (geecache.mainCache g) = Some l →
    lru.mkEntry key v ∈ lru.ll l →
    ∃ g' l',
      geecache.Get key g s
      = Ret (v, None, g',
             {| geecache.env := geecache.env s;
                geecache.trace := geecache.trace s ++ [geecache.CacheGet key] |}) ∧
      geecache.lru_ (geecache.mainCache g') = Some l' ∧
      lru.ll l' = lru.mkEntry key v :: lru.Remove key (lru.ll l) ∧
      lru.ll l' ≡ₚ lru.ll l ∧ lru.nbytes l' = lru.nbytes l ∧
      geecache.getter g' = geecache.getter g ∧
      geecache.peers g' = geecache.peers g ∧
      geecache.loader g' = geecache.loader g.
Proof.
  intros Env g s key l v Hkey Hok Hl Hin.
  unfold cache_ok in Hok. rewrite Hl in Hok. destruct Hok as [Hwf Hm].
  destruct (Get_resident key v l Hwf Hin) as (l' & Hget & Hll & Hperm & Hn & _).
  exists (geecache.setCache
            {| geecache.lru_ := Some l';
               geecache.cacheBytes := geecache.cacheBytes (geecache.mainCache g) |} g),
    l'.
  split_and!; try done.
  unfold geecache.Get. rewrite decide_False by done.
  unfold geecache.get. rewrite Hl, Hget. done.
Qed.

Lemma Get_hit_served_locally_witness :
  ∃ g',
    geecache.Get "Tom"
      (geecache.setCache
         {| geecache.lru_ :=
              Some (lru.store "Sam" (view "567")
                      (lru.store "Tom" (view "630") (lru.New 2048 None tt)));
            geecache.cacheBytes := 2048 |}
         (groupOf "scores" 2048 dbGetter))
      {| geecache.env := (); geecache.trace := [] |}
    = Ret (view "630", None, g',
           {| geecache.env := (); geecache.trace := [geecache.CacheGet "Tom"] |}).
Proof.
  destruct (Get_hit_served_locally unit
              (geecache.setCache
                 {| geecache.lru_ :=
                      Some (lru.store "Sam" (view "567")
                              (lru.store "Tom" (view "630") (lru.New 2048 None tt)));
                    geecache.cacheBytes := 2048 |}
                 (groupOf "scores" 2048 dbGetter))
              {| geecache.env := (); geecache.trace := [] |} "Tom"
              (lru.store "Sam" (view "567")
                 (lru.store "Tom" (view "630") (lru.New 2048 None tt)))
              (view "630"))
    as (g' & l' & Hget & _).
  - discriminate.
  - split; [|reflexivity]. apply wf_store, wf_store, wf_New.
  - reflexivity.
  - vm_compute. apply list_elem_of_In. simpl. tauto.
  - exists g'. exact Hget.
Defined.

(** X14.  A group with no peer picker takes one by [RegisterPeers], and a
    second [RegisterPeers] panics.  After that, [Get] of a key that is not
    in the local store, when the picker gives no peer for the key or the
    peer it gives fails, asks the getter, stores the value of the bytes
    (with room for the entry) and returns it: the failure of the peer is
    not the failure of [Get]. *)
Theorem Get_falls_back_to_getter :
  ∀ (Env : Type) (g : geecache.Group Env) (s : geecache.Eff Env) key
    pick f tr e bytes e' p',
    sound g → geecache.peers g = None → geecache.getter g = Some f →
    key ≠ "" → ¬ resident key (geecache.mainCache g) →
    peerMissed g pick key (geecache.env s) e tr →
    f key e = (bytes, None, e') →
    geecache.cacheBytes (geecache.mainCache g) = 0 ∨
    Z.of_nat (String.length key) + Z.of_nat (length bytes)
    ≤ geecache.cacheBytes (geecache.mainCache g) →
    ∃ g1 g2,
      geecache.RegisterPeers (Some pick) g = Ret g1 ∧
      geecache.RegisterPeers p' g1 = Panic "RegisterPeerPicker called more than once" ∧
      geecache.Get key g1 s
      = Ret (geecache.mkByteView bytes, None, g2,
             {| geecache.env := e';
                geecache.trace := geecache.trace s ++ [geecache.CacheGet key] ++ tr
                  ++ [geecache.GetterGet key; geecache.CacheAdd key] |}) ∧
      front (geecache.mainCache g2)
      = Some (lru.mkEntry key (geecache.mkByteView bytes)) ∧
      sound g2.
Proof.
  intros Env g s key pick f tr e bytes e' p' Hs Hp Hf Hkey Hres Hmiss Hfk Hcap.
  pose proof Hs as [Hok (l & Hl & Hm)].
  set (g1 := {| geecache.name := geecache.name g; geecache.getter := geecache.getter g;
                geecache.mainCache := geecache.mainCache g;
                geecache.peers := Some pick; geecache.loader := geecache.loader g |}).
  assert (idle g1) as Hidle by (by exists l).
  set (s1 := geecache.emit (geecache.CacheGet key) s).
  assert (∃ c', geecache.loadFn key (g1, s1)
                = Ret (geecache.mkByteView bytes, None,
                       (geecache.setCache c' g1,
                        {| geecache.env := e';
                           geecache.trace := geecache.trace s
                             ++ [geecache.CacheGet key] ++ tr
                             ++ [geecache.GetterGet key; geecache.CacheAdd key] |})) ∧
                cache_ok c' ∧
                front c' = Some (lru.mkEntry key (geecache.mkByteView bytes)))
    as (c' & Hfn & Hok' & Hfront).
  { unfold geecache.loadFn. cbn [geecache.peers g1 geecache.env s1 geecache.emit].
    destruct Hmiss as [[Hpick ->]|(peer & e1 & pb & perr & Hpick & Hpeer & ->)];
      rewrite Hpick.
    - destruct (getLocally_ok key g1
                  (geecache.emit (geecache.PickPeer key)
                     {| geecache.env := e; geecache.trace := geecache.trace s1 |})
                  f bytes e' Hf Hfk Hok Hres Hcap) as (c' & -> & Hok' & _ & Hfront).
      exists c'. split; [|done]. simpl. by rewrite <- !app_assoc.
    - unfold geecache.getFromPeer.
      cbn [geecache.env geecache.emit geecache.name g1]. rewrite Hpeer.
      destruct (getLocally_ok key g1
                  (geecache.emit (geecache.PeerGet (geecache.name g) key)
                     {| geecache.env := e;
                        geecache.trace :=
                          geecache.trace
                            (geecache.emit (geecache.PickPeer key)
                               {| geecache.env := e1;
                                  geecache.trace := geecache.trace s1 |}) |})
                  f bytes e' Hf Hfk Hok Hres Hcap) as (c' & -> & Hok' & _ & Hfront).
      exists c'. split; [|done]. simpl. by rewrite <- !app_assoc. }
  destruct (load_idle key g1 s1 _ _ _ _ Hidle Hfn) as (l' & Hload & Hm').
  exists g1, (geecache.setLoader l' (geecache.setCache c' g1)).
  split_and!.
  - unfold geecache.RegisterPeers. by rewrite Hp.
  - done.
  - rewrite Get_load by done. exact Hload.
  - done.
  - split; [done|]. by exists l'.
Qed.

Lemma Get_falls_back_to_getter_witness :
  ∃ g1 g2,
    geecache.RegisterPeers
      (Some (λ key e, (Some (λ group key e, ([], Some "peer is down", e)), e)))
      (groupOf "scores" 2048 dbGetter) = Ret g1 ∧
    geecache.Get "Tom" g1 {| geecache.env := (); geecache.trace := [] |}
    = Ret (view "630", None, g2,
           {| geecache.env := ();
              geecache.trace :=
                [] ++ [geecache.CacheGet "Tom"]
                ++ [geecache.PickPeer "Tom"; geecache.PeerGet "scores" "Tom"]
                ++ [geecache.GetterGet "Tom"; geecache.CacheAdd "Tom"] |}).
Proof.
  destruct (Get_falls_back_to_getter unit (groupOf "scores" 2048 dbGetter)
              {| geecache.env := (); geecache.trace := [] |} "Tom"
              (λ key e, (Some (λ group key e, ([], Some "peer is down", e)), e))
              dbGetter
              [geecache.PickPeer "Tom"; geecache.PeerGet "scores" "Tom"]
              () (String.list_byte_of_string "630") () None)
    as (g1 & g2 & Hreg & _ & Hget & _).
  - apply groupOf_sound.
  - reflexivity.
  - reflexivity.
  - discriminate.
  - simpl. tauto.
  - right. eexists _, _, _, _. split; [reflexivity|]. split; reflexivity.
  - reflexivity.
  - right. vm_compute. discriminate.
  - exists g1, g2. split; [exact Hreg|exact Hget].
Defined.

(** X15.  On a group that is as [NewGroup] or a [Get] left it, with a
    getter and a capacity that is not negative, [Get] returns for every key:
    it neither panics nor hangs, whatever the getter and the peers answer.
    With an error the value is the empty one, and the group it leaves has
    its getter, its capacity and no call in flight, so that the next [Get]
    returns as well. *)
Theorem Get_always_returns :
  ∀ (Env : Type) (g : geecache.Group Env) (s : geecache.Eff Env) key,
    sound g → is_Some (geecache.getter g) →
    0 ≤ geecache.cacheBytes (geecache.mainCache g) →
    ∃ v err g' s',
      geecache.Get key g s = Ret (v, err, g', s') ∧
      (is_Some err → v = geecache.noView) ∧
      sound g' ∧ geecache.getter g' = geecache.getter g ∧
      geecache.peers g' = geecache.peers g ∧
      geecache.name g' = geecache.name g ∧
      geecache.cacheBytes (geecache.mainCache g')
      = geecache.cacheBytes (geecache.mainCache g).
Proof.
  intros Env g s key Hs Hf Hcb.
  destruct (Get_returns key g s Hs Hf Hcb) as (v & err & g' & s' & Hget).
  exists v, err, g', s'.
  destruct (Get_fields _ _ _ _ _ _ _ (proj2 Hs) Hget) as (Hn & Hgt & Hpr & Hc & Hv).
  split_and!; try done. by eapply Get_sound.
Qed.

Lemma Get_always_returns_witness :
  ∃ v err g' s',
    geecache.Get "unknown" (groupOf "scores" 2048 dbGetter)
      {| geecache.env := (); geecache.trace := [] |} = Ret (v, err, g', s') ∧
    (is_Some err → v = geecache.noView).
Proof.
  destruct (Get_always_returns unit (groupOf "scores" 2048 dbGetter)
              {| geecache.env := (); geecache.trace := [] |} "unknown")
    as (v & err & g' & s' & Hget & Hv & _).
  - apply groupOf_sound.
  - eexists. reflexivity.
  - simpl. lia.
  - exists v, err, g', s'. split; [exact Hget|exact Hv].
Defined.





Lemma string_of_list_byte_length (l : list byte) :
  String.length (String.string_of_list_byte l) = length l.
Proof.
  unfold String.string_of_list_byte.
  induction l as [|x l IH]; simpl; [done|]. by rewrite IH.
Qed.

(** X18.  The accessors of a value agree: [ByteSlice] has the bytes of the
    value, [Len] is their number and the length of [String], [String] has
    the same bytes, and the value [getLocally] makes of the bytes of a
    string reads back as that string. *)
Theorem ByteView_accessors_agree :
  ∀ (v : geecache.ByteView),
    geecache.ByteSlice v = geecache.b v ∧
    geecache.Len v = Z.of_nat (length (geecache.ByteSlice v)) ∧
    geecache.Len v = Z.of_nat (String.length (geecache.String v)) ∧
    String.list_byte_of_string (geecache.String v) = geecache.b v ∧
    ∀ s, geecache.String
           {| geecache.b := geecache.cloneBytes (String.list_byte_of_string s) |} = s.
Proof.
  intros v. unfold geecache.ByteSlice, geecache.Len, geecache.String.
  rewrite cloneBytes_eq, string_of_list_byte_length.
  split_and!; try done.
  - apply String.list_byte_of_string_of_list_byte.
  - intros s. simpl. rewrite cloneBytes_eq.
    apply String.string_of_list_byte_of_string.
Qed.

(** X19.  The local store of a group is made by the first [add], with the
    capacity of the group: [get] on a store not yet made misses and makes
    nothing, and a value added with room for its entry (capacity 0 is no
    limit) is the value the next [get] of the key returns. *)
Theorem cache_add_then_get :
  ∀ (c : geecache.cache) key v,
    cache_ok c →
    geecache.cacheBytes c = 0 ∨
    Z.of_nat (String.length key) + geecache.Len v ≤ geecache.cacheBytes c →
    (geecache.lru_ c = None → geecache.get key c = (geecache.noView, false, c)) ∧
    ∃ c' c'' l,
      geecache.add key v c = Ret c' ∧
      geecache.lru_ c' = Some l ∧ lru.maxBytes l = geecache.cacheBytes c ∧
      geecache.cacheBytes c' = geecache.cacheBytes c ∧
      geecache.get key c' = (v, true, c'').
Proof.
  intros c key v Hok Hcap. split.
  - intros Hl. unfold geecache.get. by rewrite Hl.
  - destruct (add_get key v c Hok Hcap) as (c' & c'' & Hadd & Hok' & Hcb & Hget & Hfr).
    unfold front in Hfr. unfold cache_ok in Hok'.
    destruct (geecache.lru_ c') as [l|] eqn:Hl; [|done].
    exists c', c'', l. split_and!; try done. destruct Hok' as [_ ->]. done.
Qed.

Lemma cache_add_then_get_witness :
  ∃ c' c'',
    geecache.add "Tom" (view "630")
      {| geecache.lru_ := None; geecache.cacheBytes := 2048 |} = Ret c' ∧
    geecache.get "Tom" c' = (view "630", true, c'').
Proof.
  destruct (cache_add_then_get
              {| geecache.lru_ := None; geecache.cacheBytes := 2048 |}
              "Tom" (view "630")) as (_ & c' & c'' & l & Hadd & _ & _ & _ & Hget).
  - exact I.
  - right. vm_compute. discriminate.
  - exists c', c''. split; [exact Hadd|exact Hget].
Defined.

Section serving.

Context {Env : Type}.
Implicit Types (w : geecache.World Env) (key : string).

Lemma through_returns name key w p :
  registry_ok w → roomy w → geecache.GetGroup name w = Some p →
  ∃ v err w', geecache.through p (geecache.Get key) w = Ret (v, err, w') ∧
              registry_ok w' ∧ roomy w' ∧
              geecache.groups w' = geecache.groups w.
Proof.
  intros Hreg Hroom Hp.
  destruct (Hreg name p Hp) as (g & Hg & Hname & Hs & Hf & Hpeers).
  destruct (Get_returns key g (geecache.eff w) Hs Hf (Hroom p g Hg))
    as (v & err & g' & s' & Hget).
  assert (geecache.through p (geecache.Get key) w
          = Ret (v, err, {| geecache.groups := geecache.groups w;
                            geecache.heap := <[ p := g' ]> (geecache.heap w);
                            geecache.eff := s' |})) as Hthrough.
  { unfold geecache.through. by rewrite Hg, Hget. }
  eexists _, _, _. split; [exact Hthrough|]. split_and!.
  - by eapply registry_Get.
  - intros q g0. simpl. destruct (decide (q = p)) as [->|Hne].
    + rewrite list_lookup_insert_eq by (by eapply lookup_lt_Some).
      intros [= <-].
      destruct (Get_fields _ _ _ _ _ _ _ (proj2 Hs) Hget) as (_ & _ & _ & -> & _).
      by eapply Hroom.
    + rewrite list_lookup_insert_ne by done. apply Hroom.
  - done.
Qed.

Lemma wrun_returns (ops : list (wop Env)) w :
  (∀ name cb getter, MakeGroup name cb getter ∈ ops → is_Some getter ∧ 0 ≤ cb) →
  registry_ok w → roomy w →
  ∃ w', wrun ops w = Ret w' ∧ registry_ok w' ∧ roomy w'.
Proof.
  revert w. induction ops as [|o ops IH]; intros w Hops Hreg Hroom; simpl.
  - by exists w.
  - assert (∃ w1, wstep o w = Ret w1 ∧ registry_ok w1 ∧ roomy w1)
      as (w1 & -> & Hreg1 & Hroom1).
    { destruct o as [name cb getter|name key]; simpl.
      - destruct (Hops name cb getter) as [[f ->] Hcb]; [by left|].
        simpl. eexists. split; [done|]. split.
        + by eapply registry_NewGroup.
        + intros q g0. simpl. intros [[_ Hq]|[_ <-]]%lookup_snoc_Some.
          * by eapply Hroom.
          * done.
      - destruct (geecache.GetGroup name w) as [p|] eqn:Hp; [|by exists w].
        destruct (through_returns name key w p Hreg Hroom Hp)
          as (v & err & w' & -> & Hreg' & Hroom' & _).
        simpl. by exists w'. }
    simpl. apply IH; [|done|done].
    intros name cb getter Hin. apply (Hops name cb getter). by right.
Qed.

Lemma roomy_start (e : Env) : roomy (start e).
Proof. intros p g. simpl. by rewrite lookup_nil. Qed.

End serving.



(** * More on the handler and the pool *)

Lemma HasPrefix_app (b r : string) : geecache.HasPrefix (b +:+ r) b = true.
Proof.
  unfold geecache.HasPrefix. induction b as [|a b IH]; simpl.
  - by destruct r.
  - by destruct (ascii_dec a a).
Qed.

Lemma from_app (b r : string) : geecache.from (String.length b) (b +:+ r) = r.
Proof. induction b as [|a b IH]; simpl; [by destruct r|done]. Qed.

Lemma cut_app sep (l r : string) :
  sep ∉ String.list_ascii_of_string l →
  geecache.cut sep (l +:+ String sep r) = Some (l, r).
Proof.
  induction l as [|a l IH]; simpl.
  - intros _. by rewrite decide_True.
  - rewrite not_elem_of_cons. intros [Hne Hl].
    rewrite decide_False by done. by rewrite IH.
Qed.

Lemma cut_without sep (l : string) :
  sep ∉ String.list_ascii_of_string l → geecache.cut sep l = None.
Proof.
  induction l as [|a l IH]; simpl; [done|].
  rewrite not_elem_of_cons. intros [Hne Hl].
  rewrite decide_False by done. by rewrite IH.
Qed.

(** X20.  The handler reads the group and the key off the path: with a
    path made of the base path, a group name with no ["/"], a ["/"] and a
    key, which may have ["/"] in it, it looks the group of that name up and
    calls [Get] of that key on it; with no ["/"] after the group name it
    replies "bad request" with status 400; with nothing after the ["/"],
    for a group there is, it replies "key is required" with status 500 and
    changes nothing. *)
Theorem ServeHTTP_reads_path :
  ∀ (Env : Type) (p : geecache.HTTPPool) groupName key (w : geecache.World Env),
    "/"%char ∉ String.list_ascii_of_string groupName →
    geecache.ServeHTTP p (geecache.basePath p +:+ groupName) w
    = Ret ([geecache.Error_ "bad request" 400], w) ∧
    geecache.ServeHTTP p (geecache.basePath p +:+ groupName +:+ String "/" key) w
    = match geecache.GetGroup groupName w with
      | None => Ret ([geecache.Error_ ("no such group: " +:+ groupName) 404], w)
      | Some group =>
          '(view, err, w') ← geecache.through group (geecache.Get key) w;
          match err with
          | Some e => Ret ([geecache.Error_ e 500], w')
          | None =>
              Ret ([geecache.HeaderSet "Content-Type" "application/octet-stream";
                    geecache.Write (geecache.ByteSlice view)], w')
          end
      end ∧
    (∀ group, geecache.GetGroup groupName w = Some group →
              is_Some (geecache.heap w !! group) →
              geecache.ServeHTTP p (geecache.basePath p +:+ groupName +:+ String "/" "") w
              = Ret ([geecache.Error_ "key is required" 500], w)).
Proof.
  intros Env p groupName key w Hg.
  assert (∀ k, geecache.ServeHTTP p (geecache.basePath p +:+ groupName +:+ String "/" k) w
    = match geecache.GetGroup groupName w with
      | None => Ret ([geecache.Error_ ("no such group: " +:+ groupName) 404], w)
      | Some group =>
          '(view, err, w') ← geecache.through group (geecache.Get k) w;
          match err with
          | Some e => Ret ([geecache.Error_ e 500], w')
          | None =>
              Ret ([geecache.HeaderSet "Content-Type" "application/octet-stream";
                    geecache.Write (geecache.ByteSlice view)], w')
          end
      end) as Hpath.
  { intros k. unfold geecache.ServeHTTP.
    rewrite HasPrefix_app, from_app. cbn [negb].
    rewrite SplitN_two, cut_app by done. cbn [length].
    rewrite decide_False by (intros Hn; by apply Hn).
    done. }
  split_and!.
  - unfold geecache.ServeHTTP.
    rewrite HasPrefix_app, from_app. cbn [negb].
    rewrite SplitN_two, cut_without by done. cbn [length].
    by rewrite decide_True by done.
  - apply Hpath.
  - intros group Hgroup [g Hheap]. rewrite Hpath, Hgroup.
    unfold geecache.through. rewrite Hheap.
    unfold geecache.Get. rewrite decide_True by done. simpl.
    rewrite list_insert_id by done. by destruct w.
Qed.

Lemma ServeHTTP_reads_path_witness :
  geecache.ServeHTTP (geecache.NewHTTPPool "localhost:8001")
    (geecache.basePath (geecache.NewHTTPPool "localhost:8001") +:+ "scores"
       +:+ String "/" "") scores
  = Ret ([geecache.Error_ "key is required" 500], scores).
Proof.
  destruct (ServeHTTP_reads_path unit (geecache.NewHTTPPool "localhost:8001")
              "scores" "Tom" scores) as (_ & _ & Hempty).
  - vm_compute. intros Hin. apply list_elem_of_In in Hin. simpl in Hin.
    repeat (destruct Hin as [Hin|Hin]; [discriminate|]). exact Hin.
  - apply (Hempty 0%nat); [reflexivity|]. eexists. reflexivity.
Defined.

Lemma append_length (s t : string) :
  String.length (s +:+ t) = (String.length s + String.length t)%nat.
Proof. induction s as [|a s IH]; simpl; [done|]. by rewrite IH. Qed.

Lemma append_inj_r (s1 s2 t : string) : s1 +:+ t = s2 +:+ t → s1 = s2.
Proof.
  revert s2. induction s1 as [|a s1 IH]; intros [|b s2]; simpl; try done.
  - intros Heq. apply (f_equal String.length) in Heq.
    simpl in Heq. rewrite !append_length in Heq. simpl in Heq. lia.
  - intros Heq. apply (f_equal String.length) in Heq.
    simpl in Heq. rewrite !append_length in Heq. simpl in Heq. lia.
  - intros [= -> Heq]. f_equal. by apply IH.
Qed.

Section pool_facts.

Context {Map : Type}.
Variable New : Z → Map.
Variable Add : list string → Map → Map.
Variable Get : string → option Map → outcome string.

(** The table [Set] makes has the getter of each peer given, and of no
    other. *)
Lemma getters_lookup (bp : string) (ps : list string) (hg : gmap string pool.httpGetter)
    peer :
  foldl (λ hg peer, <[ peer := {| pool.baseURL := peer +:+ bp |} ]> hg) hg ps !! peer
  = if decide (peer ∈ ps) then Some {| pool.baseURL := peer +:+ bp |} else hg !! peer.
Proof.
  revert hg. induction ps as [|x ps IH]; intros hg; cbn [foldl].
  - rewrite decide_False; [done|]. apply not_elem_of_nil.
  - rewrite IH. destruct (decide (peer ∈ ps)) as [Hin|Hin].
    + rewrite decide_True; [done|]. by right.
    + destruct (decide (peer = x)) as [->|Hne].
      * rewrite lookup_insert_eq. rewrite decide_True; [done|]. by left.
      * rewrite lookup_insert_ne by done. rewrite decide_False; [done|].
        rewrite not_elem_of_cons. done.
Qed.

End pool_facts.

(** X21.  After [Set(peers...)], when the ring of the library gives for a
    key one of the peers set, or no peer, [PickPeer] of that key gives the
    getter of that peer, whose base URL is the peer followed by the base
    path of the pool, unless the peer is the pool itself or there is none,
    and then it gives no peer.  The getter is not nil.  [Set] forgets the
    peers of an earlier [Set]. *)
Theorem PickPeer_after_Set :
  ∀ (Map : Type) (New : Z → Map) (Add : list string → Map → Map)
    (Get : string → option Map → outcome string)
    (p : pool.HTTPPool Map) (ps ps' : list string) key peer,
    Get key (Some (Add ps (New pool.defaultReplicas))) = Ret peer →
    peer = "" ∨ peer ∈ ps →
    pool.PickPeer Get key (pool.Set_ New Add ps p)
    = Ret (if decide (peer ≠ "" ∧ peer ≠ pool.self p)
           then Some (Some {| pool.baseURL := peer +:+ pool.basePath p |})
           else None) ∧
    pool.PickPeer Get key (pool.Set_ New Add ps p)
    ≠ Ret (Some (Some {| pool.baseURL := pool.self p +:+ pool.basePath p |})) ∧
    pool.PickPeer Get key (pool.Set_ New Add ps p) ≠ Ret (Some None) ∧
    pool.Set_ New Add ps (pool.Set_ New Add ps' p) = pool.Set_ New Add ps p.
Proof.
  intros Map New Add Get p ps ps' key peer Hget Hin.
  assert (pool.PickPeer Get key (pool.Set_ New Add ps p)
          = Ret (if decide (peer ≠ "" ∧ peer ≠ pool.self p)
                 then Some (Some {| pool.baseURL := peer +:+ pool.basePath p |})
                 else None)) as Hpick.
  { unfold pool.PickPeer. cbn [pool.Set_ pool.peers pool.self pool.httpGetters].
    unfold pool.defaultReplicas in *. rewrite Hget. simpl.
    case_decide as Hpeer; [|done]. rewrite getters_lookup.
    rewrite decide_True; [done|]. destruct Hin as [->|Hin]; [|done].
    by destruct Hpeer. }
  split_and!; [done| | |done].
  - rewrite Hpick. case_decide as Hpeer; [|done].
    intros [= Heq]. destruct Hpeer as [_ Hself]. apply Hself.
    by apply append_inj_r in Heq.
  - rewrite Hpick. by case_decide.
Qed.

Lemma PickPeer_after_Set_witness :
  pool.PickPeer localGet "Tom"
    (pool.Set_ (λ r, consistenthash.New byteSum r None) consistenthash.Add
       ["http://a"; "http://b"; "http://c"] (pool.NewHTTPPool "http://b"))
  = Ret (if decide ("http://a" ≠ "" ∧ "http://a" ≠ "http://b")
         then Some (Some {| pool.baseURL := "http://a" +:+ "/_geecache/" |})
         else None).
Proof.
  destruct (PickPeer_after_Set consistenthash.Map
              (λ r, consistenthash.New byteSum r None) consistenthash.Add localGet
              (pool.NewHTTPPool "http://b") ["http://a"; "http://b"; "http://c"] []
              "Tom" "http://a") as (Hpick & _).
  - vm_compute. reflexivity.
  - right. apply elem_of_cons. by left.
  - exact Hpick.
Defined.

(** * More on the request coalescer *)

Section coalescer_flight.

Context {R Env : Type}.

Notation pc := (singleflight.pc R Env).
Notation state := (singleflight.state R Env).
Notation call := (singleflight.call R).

Implicit Types (p : pc) (σ : state) (cl : call) (t c : nat) (key : string).

(** A step that keeps what its goroutine owns and has in the table, the
    table, and the counters of the wait groups. *)
Lemma flight_keep t σ p pold g e x :
  singleflight.threads σ !! t = Some pold →
  owns p = owns pold → tabled p = tabled pold →
  default ∅ (singleflight.m g) = default ∅ (singleflight.m (singleflight.group σ)) →
  (∀ c cl', singleflight.calls g !! c = Some cl' →
            ∃ cl, singleflight.calls (singleflight.group σ) !! c = Some cl ∧
                  singleflight.wg cl = singleflight.wg cl') →
  flight σ → flight (singleflight.setThread t p g e x σ).
Proof.
  intros Ht Ho Htb Hm Hc [FW FT FO].
  constructor; cbn [singleflight.group singleflight.setThread].
  - intros c cl' (cl & Hcl & Hwg)%Hc Hne. rewrite <- Hwg in Hne.
    destruct (FW c cl Hcl Hne) as (t0 & p0 & Hp0 & Hown).
    destruct (decide (t0 = t)) as [->|Hnt].
    + exists t, p. split; [by eapply threads_set_eq|]. congruence.
    + exists t0, p0. by rewrite threads_set_ne.
  - intros t0 p0 k c [[-> ->]|[Hne Hp0]]%threads_set Hk; rewrite Hm.
    + rewrite Htb in Hk. eauto.
    + eauto.
  - intros t0 t1 p0 p1 k k' c [[-> ->]|[Hne0 Hp0]]%threads_set
      [[-> ->]|[Hne1 Hp1]]%threads_set H0 H1; [done| | |by eauto].
    + rewrite Htb in H0. eauto.
    + rewrite Htb in H1. eauto.
Qed.

Lemma flight_register t σ key fn :
  singleflight.threads σ !! t = Some (singleflight.Enter key fn) →
  default ∅ (singleflight.m (singleflight.group σ)) !! key = None →
  inv σ → flight σ →
  flight (singleflight.setThread t
         (singleflight.Run key fn (length (singleflight.calls (singleflight.group σ))))
         {| singleflight.m :=
              Some (<[ key := length (singleflight.calls (singleflight.group σ)) ]>
                      (default ∅ (singleflight.m (singleflight.group σ))));
            singleflight.calls := singleflight.calls (singleflight.group σ)
              ++ [ {| singleflight.wg := 1; singleflight.res := None |} ] |}
         (singleflight.env σ) (singleflight.execs σ) σ).
Proof.
  intros Ht Hm Hinv [FW FT FO].
  constructor;
    cbn [singleflight.group singleflight.setThread singleflight.calls
         singleflight.m default].
  - intros c cl [[_ Hcl]|[-> _]]%lookup_snoc_Some Hne.
    + destruct (FW c cl Hcl Hne) as (t0 & p0 & Hp0 & Hown).
      exists t0, p0. split; [|done]. rewrite threads_set_ne; [done|].
      intros ->. simplify_eq.
    + exists t. eexists. split; [by eapply threads_set_eq|done].
  - intros t0 p0 k c [[-> ->]|[Hne Hp0]]%threads_set Hk.
    + simpl in Hk. simplify_eq. simpl. by rewrite lookup_insert_eq.
    + pose proof (FT t0 p0 k c Hp0 Hk) as Hkc.
      simpl. rewrite lookup_insert_ne; [done|]. intros ->. congruence.
  - intros t0 t1 p0 p1 k k' c [[-> ->]|[Hne0 Hp0]]%threads_set
      [[-> ->]|[Hne1 Hp1]]%threads_set H0 H1; [done| | |by eauto].
    + simpl in H0. simplify_eq.
      pose proof (attached_known σ t1 p1 _ Hinv Hp1 (tabled_attached _ _ _ H1)). lia.
    + simpl in H1. simplify_eq.
      pose proof (attached_known σ t0 p0 _ Hinv Hp0 (tabled_attached _ _ _ H0)). lia.
Qed.

Lemma flight_signal t σ key c :
  singleflight.threads σ !! t = Some (singleflight.Done key c) →
  inv σ → flight σ →
  flight (singleflight.setThread t (singleflight.Delete key c)
         {| singleflight.m := singleflight.m (singleflight.group σ);
            singleflight.calls :=
              alter (λ cl, {| singleflight.wg := singleflight.wg cl - 1;
                              singleflight.res := singleflight.res cl |}) c
                    (singleflight.calls (singleflight.group σ)) |}
         (singleflight.env σ) (singleflight.execs σ) σ).
Proof.
  intros Ht Hinv [FW FT FO].
  destruct (inv_attached σ Hinv t _ c Ht eq_refl) as (cl & Hcl & Hwg & Hres).
  constructor;
    cbn [singleflight.group singleflight.setThread singleflight.calls singleflight.m].
  - intros c0 cl0. destruct (decide (c0 = c)) as [->|Hne].
    + rewrite list_lookup_alter_eq, Hcl. simpl. intros [= <-]. simpl. lia.
    + rewrite list_lookup_alter_ne by done. intros Hcl0 Hwg0.
      destruct (FW c0 cl0 Hcl0 Hwg0) as (t0 & p0 & Hp0 & Hown).
      exists t0, p0. split; [|done]. rewrite threads_set_ne; [done|].
      intros ->. simplify_eq. simpl in Hown. congruence.
  - intros t0 p0 k c0 [[-> ->]|[Hne Hp0]]%threads_set Hk; [|by eauto].
    eapply (FT t); [done|]. done.
  - intros t0 t1 p0 p1 k k' c0 [[-> ->]|[Hne0 Hp0]]%threads_set
      [[-> ->]|[Hne1 Hp1]]%threads_set H0 H1; [done| | |by eauto].
    + eapply (FO t t1); [done|done| |done]. done.
    + eapply (FO t0 t); [done|done|done|]. done.
Qed.

Lemma flight_delete t σ key c :
  singleflight.threads σ !! t = Some (singleflight.Delete key c) →
  flight σ →
  flight (singleflight.setThread t (singleflight.Return c)
         {| singleflight.m := delete key <$> singleflight.m (singleflight.group σ);
            singleflight.calls := singleflight.calls (singleflight.group σ) |}
         (singleflight.env σ) (singleflight.execs σ) σ).
Proof.
  intros Ht [FW FT FO].
  constructor;
    cbn [singleflight.group singleflight.setThread singleflight.calls singleflight.m].
  - intros c0 cl0 Hcl0 Hwg0.
    destruct (FW c0 cl0 Hcl0 Hwg0) as (t0 & p0 & Hp0 & Hown).
    exists t0, p0. split; [|done]. rewrite threads_set_ne; [done|].
    intros ->. simplify_eq.
  - intros t0 p0 k c0 [[-> ->]|[Hne Hp0]]%threads_set Hk; [done|].
    pose proof (FT t0 p0 k c0 Hp0 Hk) as Hkc.
    assert (k ≠ key) as Hkk.
    { intros ->. pose proof (FT t _ key c Ht eq_refl) as Hkc'.
      assert (c0 = c) as -> by congruence.
      apply Hne. by eapply (FO t0 t p0 _ key key c). }
    destruct (singleflight.m (singleflight.group σ)) as [m0|]; simpl in *.
    + by rewrite lookup_delete_ne.
    + by rewrite lookup_empty in Hkc.
  - intros t0 t1 p0 p1 k k' c0 [[-> ->]|[Hne0 Hp0]]%threads_set
      [[-> ->]|[Hne1 Hp1]]%threads_set H0 H1; try done. eauto.
Qed.

Lemma trans_flight t σ σ' : inv σ → flight σ → trans t σ σ' → flight σ'.
Proof.
  intros Hinv Hfl Htr. destruct Htr as [key fn c Ht Hm|key fn Ht Hm|c cl Ht Hc Hwg
    |c cl Ht Hc|key fn c r e' Ht Hf|key c Ht|key c Ht|c cl Ht Hc].
  - eapply flight_keep; [done|done|done|done| |done]. simpl. eauto.
  - by apply flight_register.
  - eapply flight_keep; [done|done|done|done| |done]. eauto.
  - eapply flight_keep; [done|done|done|done| |done]. eauto.
  - eapply flight_keep; [done|done|done|done| |done]. simpl.
    intros c0 cl'. destruct (decide (c0 = c)) as [->|Hne].
    + rewrite list_lookup_alter_eq.
      destruct (singleflight.calls (singleflight.group σ) !! c) as [cl|]; [|done].
      simpl. intros [= <-]. by exists cl.
    + rewrite list_lookup_alter_ne by done. eauto.
  - by apply flight_signal.
  - by apply flight_delete.
  - eapply flight_keep; [done|done|done|done| |done]. eauto.
Qed.

Lemma flight_init (e : Env) : flight (singleflight.init (R:=R) e).
Proof. constructor; simpl; intros; by rewrite ?lookup_nil in *. Qed.

Lemma flight_call σ key (fn : Env → R * Env) :
  flight σ →
  flight {| singleflight.group := singleflight.group σ;
            singleflight.threads := singleflight.threads σ ++ [ singleflight.Enter key fn ];
            singleflight.env := singleflight.env σ;
            singleflight.execs := singleflight.execs σ |}.
Proof.
  intros [FW FT FO]. constructor; simpl.
  - intros c cl Hcl Hwg. destruct (FW c cl Hcl Hwg) as (t & p & Hp & Hown).
    exists t, p. split; [|done]. rewrite lookup_app_l; [done|].
    by eapply lookup_lt_Some.
  - intros t p k c [[_ Hp]|[_ <-]]%lookup_snoc_Some Hk; [by eauto|done].
  - intros t t' p p' k k' c [[_ Hp]|[_ <-]]%lookup_snoc_Some
      [[_ Hp']|[_ <-]]%lookup_snoc_Some H0 H1; try done. eauto.
Qed.

Lemma act_flight (a : singleflight.action R Env) σ σ' :
  inv σ → flight σ → singleflight.act a σ = Some σ' → flight σ'.
Proof.
  intros Hinv Hfl. destruct a as [key fn|t]; simpl.
  - intros [= <-]. by apply flight_call.
  - intros Hs%step_trans. by eapply trans_flight.
Qed.

Lemma schedule_flight (l : list (singleflight.action R Env)) σ σ' :
  inv σ → flight σ → singleflight.schedule l σ = Some σ' → inv σ' ∧ flight σ'.
Proof.
  revert σ. induction l as [|a l IH]; intros σ Hinv Hfl; simpl.
  - by intros [= <-].
  - destruct (singleflight.act a σ) as [σ1|] eqn:Ha; [|done].
    apply IH; [by eapply act_inv|by eapply act_flight].
Qed.

(** A goroutine inside [Do] can take a step, or waits for one that can. *)
Lemma progress σ t p :
  inv σ → flight σ → singleflight.threads σ !! t = Some p →
  singleflight.inside p = true →
  ∃ t', is_Some (singleflight.step t' σ).
Proof.
  intros Hinv Hfl Ht Hin.
  destruct p as [key fn|c|key fn c|key c|key c|c|c|c r]; try done.
  - exists t. unfold singleflight.step. rewrite Ht.
    by destruct (default ∅ _ !! key).
  - destruct (inv_attached σ Hinv t _ c Ht eq_refl) as (cl & Hcl & _).
    destruct (decide (singleflight.wg cl = 0)) as [Hwg|Hwg].
    + exists t. unfold singleflight.step. rewrite Ht, Hcl.
      by rewrite decide_True.
    + destruct (flight_waited σ Hfl c cl Hcl Hwg) as (t0 & p0 & Hp0 & Hown).
      exists t0. unfold singleflight.step. rewrite Hp0.
      destruct p0; try done. by destruct (fn _).
  - exists t. unfold singleflight.step. rewrite Ht. by destruct (fn _).
  - exists t. unfold singleflight.step. by rewrite Ht.
  - exists t. unfold singleflight.step. by rewrite Ht.
  - destruct (inv_attached σ Hinv t _ c Ht eq_refl) as (cl & Hcl & _).
    exists t. unfold singleflight.step. by rewrite Ht, Hcl.
  - destruct (inv_attached σ Hinv t _ c Ht eq_refl) as (cl & Hcl & _).
    exists t. unfold singleflight.step. by rewrite Ht, Hcl.
Qed.

Lemma trans_rank t σ σ' :
  trans t σ σ' →
  ∃ pold p, singleflight.threads σ !! t = Some pold ∧
            singleflight.threads σ' = <[ t := p ]> (singleflight.threads σ) ∧
            (rank p < rank pold)%nat.
Proof.
  intros Htr. destruct Htr; eexists _, _; (split; [eassumption|]);
    (split; [reflexivity|]); cbn [rank]; lia.
Qed.

Lemma sum_list_insert (f : pc → nat) (l : list pc) t pold p :
  l !! t = Some pold →
  (sum_list (f <$> <[ t := p ]> l) + f pold = sum_list (f <$> l) + f p)%nat.
Proof.
  revert t. induction l as [|x l IH]; intros [|t]; simpl; try done.
  - intros [= ->]. lia.
  - intros Ht. specialize (IH t Ht). unfold fmap in IH. lia.
Qed.

Lemma step_weight t σ σ' :
  singleflight.step t σ = Some σ' → (weight σ' < weight σ)%nat.
Proof.
  intros (pold & p & Ht & Hth & Hlt)%step_trans%trans_rank.
  unfold weight. rewrite Hth.
  pose proof (sum_list_insert rank _ t pold p Ht). lia.
Qed.

Lemma step_length t σ σ' :
  singleflight.step t σ = Some σ' →
  length (singleflight.threads σ') = length (singleflight.threads σ).
Proof.
  intros (pold & p & Ht & Hth & Hlt)%step_trans%trans_rank.
  by rewrite Hth, length_insert.
Qed.

Lemma steps_weight ts σ σ' :
  singleflight.schedule (steps ts) σ = Some σ' →
  (weight σ' + length ts ≤ weight σ)%nat ∧
  length (singleflight.threads σ') = length (singleflight.threads σ).
Proof.
  revert σ. induction ts as [|t ts IH]; intros σ; simpl.
  - intros [= <-]. lia.
  - destruct (singleflight.step t σ) as [σ1|] eqn:Hs; [|done].
    intros [Hw Hl]%IH. apply step_weight in Hs as Hlt.
    apply step_length in Hs. lia.
Qed.

Lemma weight_bound σ : (weight σ ≤ 5 * length (singleflight.threads σ))%nat.
Proof.
  unfold weight. induction (singleflight.threads σ) as [|p l IH]; simpl; [lia|].
  assert (rank p ≤ 5)%nat by (destruct p; simpl; lia). unfold fmap in IH. lia.
Qed.

(** From any state the goroutines can be run until all have returned. *)
Lemma completes n σ :
  (weight σ ≤ n)%nat → inv σ → flight σ →
  ∃ ts σ', singleflight.schedule (steps ts) σ = Some σ' ∧
           Forall (λ p, singleflight.inside p = false) (singleflight.threads σ').
Proof.
  revert σ. induction n as [|n IH]; intros σ Hn Hinv Hfl.
  - exists [], σ. split; [done|]. unfold weight in Hn.
    induction (singleflight.threads σ) as [|p l IHl]; [done|].
    simpl in Hn. unfold fmap in IHl. constructor; [|apply IHl; lia].
    destruct p; simpl in *; try lia; done.
  - destruct (decide (Forall (λ p, singleflight.inside p = false)
                        (singleflight.threads σ))) as [Hall|Hex].
    + by exists [], σ.
    + apply not_Forall_Exists in Hex; [|apply _].
      apply Exists_exists in Hex as (p & [t Ht]%list_elem_of_lookup_1 & Hp).
      destruct (progress σ t p Hinv Hfl Ht) as (t' & σ1 & Hs).
      { simpl in Hp. destruct (singleflight.inside p); [done|]. by destruct Hp. }
      destruct (IH σ1) as (ts & σ' & Hrun & Hall).
      * apply step_weight in Hs. lia.
      * eapply trans_inv; [done|]. by apply step_trans.
      * eapply trans_flight; [done..|]. by apply step_trans.
      * exists (t' :: ts), σ'. simpl. by rewrite Hs.
Qed.

End coalescer_flight.

(** X11.  [Do] does not deadlock and ends.  In every state that goroutines
    calling [Do] reach, whatever the schedule: when no goroutine can take a
    step every goroutine has returned; with no new caller the goroutines
    take at most five steps each; and they can be run until each of them
    has returned a result.  (The functions passed to [Do] return.) *)
Theorem coalescer_every_caller_returns :
  ∀ (R Env : Type) (e : Env) (l : list (singleflight.action R Env)) σ,
    singleflight.schedule l (singleflight.init e) = Some σ →
    ((∀ t, singleflight.step t σ = None) →
     ∀ p, p ∈ singleflight.threads σ → singleflight.inside p = false) ∧
    (∀ ts σ', singleflight.schedule (steps ts) σ = Some σ' →
              (length ts ≤ 5 * length (singleflight.threads σ))%nat) ∧
    ∃ ts σ',
      singleflight.schedule (steps ts) σ = Some σ' ∧
      length (singleflight.threads σ') = length (singleflight.threads σ) ∧
      ∀ t, (t < length (singleflight.threads σ))%nat →
           ∃ c r, singleflight.threads σ' !! t = Some (singleflight.Returned c r) ∧
                  is_Some r.
Proof.
  intros R Env e l σ Hrun.
  destruct (schedule_flight l _ _ (inv_init e) (flight_init e) Hrun) as [Hinv Hfl].
  split_and!.
  - intros Hstuck p [t Ht]%list_elem_of_lookup_1.
    destruct (singleflight.inside p) eqn:Hin; [|done].
    destruct (progress σ t p Hinv Hfl Ht Hin) as (t' & σ1 & Hs).
    by rewrite Hstuck in Hs.
  - intros ts σ' [Hw _]%steps_weight. pose proof (weight_bound σ). lia.
  - destruct (completes (weight σ) σ ltac:(lia) Hinv Hfl) as (ts & σ' & Hsteps & Hall).
    exists ts, σ'. destruct (steps_weight _ _ _ Hsteps) as [_ Hlen].
    split_and!; [done|done|]. intros t Ht. rewrite <- Hlen in Ht.
    destruct (lookup_lt_is_Some_2 _ _ Ht) as [p Hp].
    rewrite Forall_forall in Hall.
    pose proof (Hall p (list_elem_of_lookup_2 _ _ _ Hp)) as Hin.
    destruct p as [| | | | | | |c r]; try done.
    exists c, r. split; [done|].
    destruct (schedule_flight _ _ _ Hinv Hfl Hsteps) as [Hinv' _].
    destruct (inv_attached σ' Hinv' t _ c Hp eq_refl) as (cl & _ & _ & _ & Hr).
    done.
Qed.

Lemma coalescer_every_caller_returns_witness :
  ∃ ts σ',
    singleflight.schedule (steps ts)
      {| singleflight.group :=
           {| singleflight.m := Some {[ "k" := 0%nat ]};
              singleflight.calls :=
                [ {| singleflight.wg := 1; singleflight.res := None |} ] |};
         singleflight.threads :=
           [singleflight.Run "k" tick 0; singleflight.Wait 0];
         singleflight.env := 0%nat;
         singleflight.execs := [] |} = Some σ' ∧
    length (singleflight.threads σ') = 2%nat ∧
    ∀ t, (t < 2)%nat →
         ∃ c r, singleflight.threads σ' !! t = Some (singleflight.Returned c r) ∧
                is_Some r.
Proof.
  assert (singleflight.schedule
            [singleflight.Call "k" tick; singleflight.Step 0;
             singleflight.Call "k" tick; singleflight.Step 1]
            (singleflight.init 0%nat)
          = Some {| singleflight.group :=
                      {| singleflight.m := Some {[ "k" := 0%nat ]};
                         singleflight.calls :=
                           [ {| singleflight.wg := 1;
                                singleflight.res := @None nat |} ] |};
                    singleflight.threads :=
                      [singleflight.Run "k" tick 0; singleflight.Wait 0];
                    singleflight.env := 0%nat;
                    singleflight.execs := [] |}) as Hrun.
  { vm_compute. reflexivity. }
  destruct (coalescer_every_caller_returns nat nat 0%nat _ _ Hrun)
    as (_ & _ & Hall).
  exact Hall.
Defined.

(** X12.  While a goroutine has a call for a key in the table, from the
    step that registers it to the step that deletes it, no other goroutine
    has one for that key, and a goroutine that enters [Do] for that key
    joins that call: it goes to wait for it and runs nothing. *)
Theorem coalescer_one_call_per_key :
  ∀ (R Env : Type) (e : Env) (l : list (singleflight.action R Env)) σ t p key c,
    singleflight.schedule l (singleflight.init e) = Some σ →
    singleflight.threads σ !! t = Some p → tabled p = Some (key, c) →
    (∀ t' p' c', singleflight.threads σ !! t' = Some p' →
                 tabled p' = Some (key, c') → t' = t) ∧
    (∀ t' fn, singleflight.threads σ !! t' = Some (singleflight.Enter key fn) →
       ∃ σ', singleflight.step t' σ = Some σ' ∧
             singleflight.threads σ' !! t' = Some (singleflight.Wait c) ∧
             singleflight.threads σ' !! t = Some p ∧
             singleflight.env σ' = singleflight.env σ ∧
             singleflight.execs σ' = singleflight.execs σ).
Proof.
  intros R Env e l σ t p key c Hrun Ht Htb.
  destruct (schedule_flight l _ _ (inv_init e) (flight_init e) Hrun) as [Hinv Hfl].
  pose proof (flight_tabled σ Hfl t p key c Ht Htb) as Hm.
  split.
  - intros t' p' c' Ht' Htb'.
    pose proof (flight_tabled σ Hfl t' p' key c' Ht' Htb') as Hm'.
    assert (c' = c) as -> by congruence.
    by eapply (flight_one σ Hfl t' t p' p key key c).
  - intros t' fn Ht'. eexists. split.
    + unfold singleflight.step. rewrite Ht', Hm. reflexivity.
    + split_and!; [by eapply threads_set_eq| |done|done].
      rewrite threads_set_ne; [done|]. intros ->. simplify_eq.
Qed.

Lemma coalescer_one_call_per_key_witness :
  ∃ σ',
    singleflight.step 1
      {| singleflight.group :=
           {| singleflight.m := Some {[ "k" := 0%nat ]};
              singleflight.calls :=
                [ {| singleflight.wg := 1; singleflight.res := None |} ] |};
         singleflight.threads :=
           [singleflight.Run "k" tick 0; singleflight.Enter "k" tick];
         singleflight.env := 0%nat;
         singleflight.execs := [] |} = Some σ' ∧
    singleflight.threads σ' !! 1%nat = Some (singleflight.Wait 0).
Proof.
  assert (singleflight.schedule
            [singleflight.Call "k" tick; singleflight.Step 0;
             singleflight.Call "k" tick]
            (singleflight.init 0%nat)
          = Some {| singleflight.group :=
                      {| singleflight.m := Some {[ "k" := 0%nat ]};
                         singleflight.calls :=
                           [ {| singleflight.wg := 1;
                                singleflight.res := @None nat |} ] |};
                    singleflight.threads :=
                      [singleflight.Run "k" tick 0; singleflight.Enter "k" tick];
                    singleflight.env := 0%nat;
                    singleflight.execs := [] |}) as Hrun.
  { vm_compute. reflexivity. }
  destruct (coalescer_one_call_per_key nat nat 0%nat _ _ 0%nat
              (singleflight.Run "k" tick 0) "k" 0%nat Hrun eq_refl eq_refl)
    as [_ Hjoin].
  destruct (Hjoin 1%nat tick eq_refl) as (σ' & Hs & Hw & _).
  exists σ'. split; [exact Hs|exact Hw].
Defined.
